(** * PvP typing matches: Elo calculator, match coordinator, matchmaking queue
    and leaderboard read, embedded from the TypeScript sources.

    Numbers.  JavaScript [number]s are modelled by exact arithmetic:
    - ratings fed to the Elo formula are mathematical reals ([R]), since
      [Math.pow(10, d / 400)] is a transcendental function; IEEE-754 rounding
      of intermediate results is outside the model;
    - persisted ratings, counters and timestamps (milliseconds) are integers
      ([Z]): a ranking is created with [elo = 1000] and only ever changed by
      adding a [Math.round]ed delta;
    - reported [wpm] / [accuracy] are IEEE-754 doubles ([float], the
      binary64 numbers of the kernel): the weighted score and its
      comparison are computed as JavaScript computes them, rounding
      included. *)

From Stdlib Require Import Floats.
From Stdlib Require Import ZArith QArith Qround Reals Lra Lia List Sorting.Permutation Sorting.Sorted.
From Stdlib Require Lqa.
From stdpp Require Import gmap strings list sorting.

(** ** backend/src/utils/elo.utils.ts *)

Module Elo.
Local Open Scope R_scope.

Definition K_FACTOR : R := 32.

(** [Math.pow(b, e)] for a positive base. *)
Definition Math_pow (b e : R) : R := Rpower b e.

(** [Math.round(x)]: the integer closest to [x], ties going towards
    +infinity, that is [floor (x + 1/2)]. *)
Definition Math_round (x : R) : Z := Zfloor (x + / 2).

Definition getExpectedScore (playerRating opponentRating : R) : R :=
  let ratingDiff := opponentRating - playerRating in
  1 / (1 + Math_pow 10 (ratingDiff / 400)).

Definition calculateEloChange (playerRating opponentRating result : R) : Z :=
  let expected := getExpectedScore playerRating opponentRating in
  let change := K_FACTOR * (result - expected) in
  Math_round change.

Definition calculateNewRating (currentRating opponentRating result : R) : Z :=
  let change := calculateEloChange currentRating opponentRating result in
  let newRating := currentRating + IZR change in
  Z.max 0 (Math_round newRating).

(** The spec's wording of section 4.1, kept apart from the code above:
    [z] is [round x] when it is the nearest integer, a tie being resolved
    upwards. *)
Definition spec_expected (player opponent : R) : R :=
  1 / (1 + Rpower 10 ((opponent - player) / 400)).

Definition spec_is_round (x : R) (z : Z) : Prop :=
  IZR z - / 2 <= x < IZR z + / 2.

(** A value is a rounding tie when it sits exactly half way between two
    integers. *)
Definition is_tie (x : R) : Prop := exists n : Z, x + / 2 = IZR n.

End Elo.

(** ** packages/contracts/src/pvp.ts: persisted documents

    Timestamps ([Date]) are milliseconds since the epoch. *)

Module Ranking.
Record PvPRanking := mk {
  userId : string;
  username : string;
  elo : Z;
  wins : Z;
  losses : Z;
  matches : Z;
  lastMatchAt : option Z;
  createdAt : Z;
  updatedAt : Z
}.
End Ranking.
Abbreviation PvPRanking := Ranking.PvPRanking.

Inductive MatchStatus := active | completed | cancelled.

Global Instance MatchStatus_eq_dec : EqDecision MatchStatus.
Proof. solve_decision. Defined.

Module Match.
Record PvPMatch := mk {
  _id : string;
  player1Id : string;
  player1Username : string;
  player2Id : string;
  player2Username : string;
  player1Wpm : float;
  player1Accuracy : float;
  player2Wpm : float;
  player2Accuracy : float;
  winnerId : option string;
  winnerName : option string;
  player1EloChange : Z;
  player2EloChange : Z;
  matchDuration : Z;
  status : MatchStatus;
  createdAt : Z;
  completedAt : option Z
}.
End Match.
Abbreviation PvPMatch := Match.PvPMatch.

(** ** backend/src/dal/pvp.ts: the two collections

    [pvp_rankings] is keyed by [userId] (unique index), [pvp_matches] by
    [_id].  A partial update ([$set]) is a function on the stored document;
    [findOneAndUpdate] leaves the collection alone when no document
    matches, which is what [alter] does. *)

Module Dal.

Record Db := mkDb {
  pvp_rankings : gmap string PvPRanking;
  pvp_matches : gmap string PvPMatch
}.

Definition getRanking (d : Db) (userId : string) : option PvPRanking :=
  pvp_rankings d !! userId.

Definition createRanking (d : Db) (ranking : PvPRanking) : Db * PvPRanking :=
  match pvp_rankings d !! Ranking.userId ranking with
  | Some existing => (d, existing)
  | None =>
      (mkDb (<[Ranking.userId ranking := ranking]> (pvp_rankings d)) (pvp_matches d),
       ranking)
  end.

Definition updateRanking (d : Db) (userId : string)
    (updates : PvPRanking -> PvPRanking) (now : Z) : Db :=
  let set r :=
    let r' := updates r in
    Ranking.mk (Ranking.userId r') (Ranking.username r') (Ranking.elo r')
      (Ranking.wins r') (Ranking.losses r') (Ranking.matches r')
      (Ranking.lastMatchAt r') (Ranking.createdAt r') now in
  mkDb (alter set userId (pvp_rankings d)) (pvp_matches d).

Definition createMatch (d : Db) (m : PvPMatch) : Db :=
  mkDb (pvp_rankings d) (<[Match._id m := m]> (pvp_matches d)).

Definition getMatch (d : Db) (matchId : string) : option PvPMatch :=
  pvp_matches d !! matchId.

Definition updateMatch (d : Db) (matchId : string)
    (updates : PvPMatch -> PvPMatch) : Db :=
  mkDb (pvp_rankings d) (alter updates matchId (pvp_matches d)).

(** [getLeaderboard].

    The query is [find({}).sort({ elo: -1 }).limit(limit).skip(offset)]
    together with [countDocuments({})].  The only thing the query asks of
    the server is an ordering on [elo], descending; how documents with the
    same [elo] are arranged is the server's choice.  The server's sort is
    therefore a parameter, constrained by exactly that contract.  A cursor
    applies [skip] before [limit] whatever the order of the calls, and
    [limit(0)] means no limit. *)

Definition elo_desc (a b : PvPRanking) : Prop :=
  (Ranking.elo b <= Ranking.elo a)%Z.

Definition cursor_limit {A} (limit : nat) (l : list A) : list A :=
  match limit with
  | O => l
  | _ => take limit l
  end.

Definition find_all (d : Db) : list PvPRanking :=
  (map_to_list (pvp_rankings d)).*2.

Section Leaderboard.
Variable sort_elo_desc : list PvPRanking -> list PvPRanking.

Definition getLeaderboard (d : Db) (limit offset : nat)
    : list PvPRanking * nat :=
  let leaderboard :=
    cursor_limit limit (drop offset (sort_elo_desc (find_all d))) in
  let total := size (pvp_rankings d) in
  (leaderboard, total).
End Leaderboard.

(** What the query asks of the server's sort. *)
Definition sorts_by_elo_desc (sort : list PvPRanking -> list PvPRanking)
    : Prop :=
  forall l, Permutation (sort l) l /\ StronglySorted elo_desc (sort l).

Global Instance elo_desc_dec : RelDecision elo_desc.
Proof. intros a b. unfold elo_desc. apply _. Defined.

(** One server that honours the contract. *)
Definition server_sort : list PvPRanking -> list PvPRanking :=
  merge_sort elo_desc.

End Dal.

(** ** backend/src/init/socket.ts: targeted emits *)

Record ResultPayload := mkResult {
  res_matchId : string;
  res_winnerId : option string;
  res_winnerName : option string;
  res_player1Id : string;
  res_player1Name : string;
  res_player1Wpm : float;
  res_player1Accuracy : float;
  res_player1EloChange : Z;
  res_player2Id : string;
  res_player2Name : string;
  res_player2Wpm : float;
  res_player2Accuracy : float;
  res_player2EloChange : Z;
  res_matchDuration : Z
}.

Inductive ServerEvent :=
| match_found (matchId opponentId opponentUsername : string) (opponentElo : Z)
| game_start (matchId p1Id p1Username p2Id p2Username : string)
             (startTime testDuration : Z)
| opponent_progress (matchId : string) (opponentWpm opponentAccuracy : float)
                    (timestamp : Z)
| match_result (payload : ResultPayload)
| match_timeout (matchId message : string)
| queue_timeout (message : string).

(** A connected socket: [socket.id] and [socket.data.userId]. *)
Record Socket := mkSocket { socket_id : string; socket_userId : string }.

Module Progress.
Record MatchProgress := mk {
  userId : string;
  wpm : float;
  accuracy : float;
  timestamp : Z
}.
End Progress.
Abbreviation MatchProgress := Progress.MatchProgress.

(** The process state the match service works on: the database, the
    Socket.IO server ([None] before [initializeSocket]), the progress
    tracker, the armed match timers (with their deadline) and, in order,
    every [socket.emit] performed, as (socket, event). *)
Record World := mkWorld {
  db : Dal.Db;
  io : option (list Socket);
  tracker : gmap string MatchProgress;
  activeMatches : gmap string Z;
  emitted : list (Socket * ServerEvent)
}.

Definition with_db (w : World) (d : Dal.Db) : World :=
  mkWorld d (io w) (tracker w) (activeMatches w) (emitted w).

Definition with_tracker (w : World) (t : gmap string MatchProgress) : World :=
  mkWorld (db w) (io w) t (activeMatches w) (emitted w).

Definition with_activeMatches (w : World) (a : gmap string Z) : World :=
  mkWorld (db w) (io w) (tracker w) a (emitted w).

Definition deliveries (sockets : list Socket) (userId : string)
    (event : ServerEvent) : list (Socket * ServerEvent) :=
  map (fun s => (s, event))
      (List.filter (fun s => bool_decide (socket_userId s = userId)) sockets).

Definition emitToUser (w : World) (userId : string) (event : ServerEvent)
    : World :=
  match io w with
  | None => w
  | Some sockets =>
      mkWorld (db w) (io w) (tracker w) (activeMatches w)
              (emitted w ++ deliveries sockets userId event)
  end.

(** ** backend/src/services/pvp-match.service.ts

    Every handler takes the reading of the clock ([Date.now()]) as [now].
    Storage calls are taken to succeed: a throwing call is caught by the
    handler's [try]/[catch] and only logged. *)

Module MatchService.
Import Match Dal.

Definition MATCH_TIMEOUT : Z := 120000.

(** [a > b] on numbers: false when either is [NaN]. *)
Definition gt (a b : float) : bool := PrimFloat.ltb b a.

(** [tracker.updateProgress] and [tracker.clearMatch]. *)
Definition updateProgress (w : World) (userId : string) (wpm accuracy : float)
    (now : Z) : World :=
  with_tracker w (<[userId := Progress.mk userId wpm accuracy now]> (tracker w)).

Definition clearMatch (w : World) (player1Id player2Id : string) : World :=
  with_tracker w (delete player2Id (delete player1Id (tracker w))).

(** The [$set] documents written by the handlers. *)
Definition set_player1_stats (wpm accuracy : float) (m : PvPMatch) : PvPMatch :=
  mk (_id m) (player1Id m) (player1Username m) (player2Id m) (player2Username m)
     wpm accuracy (player2Wpm m) (player2Accuracy m)
     (winnerId m) (winnerName m) (player1EloChange m) (player2EloChange m)
     (matchDuration m) (status m) (createdAt m) (completedAt m).

Definition set_player2_stats (wpm accuracy : float) (m : PvPMatch) : PvPMatch :=
  mk (_id m) (player1Id m) (player1Username m) (player2Id m) (player2Username m)
     (player1Wpm m) (player1Accuracy m) wpm accuracy
     (winnerId m) (winnerName m) (player1EloChange m) (player2EloChange m)
     (matchDuration m) (status m) (createdAt m) (completedAt m).

Definition set_result (winnerId' winnerName' : option string)
    (p1EloChange p2EloChange matchDuration' now : Z) (m : PvPMatch) : PvPMatch :=
  mk (_id m) (player1Id m) (player1Username m) (player2Id m) (player2Username m)
     (player1Wpm m) (player1Accuracy m) (player2Wpm m) (player2Accuracy m)
     winnerId' winnerName' p1EloChange p2EloChange
     matchDuration' completed (createdAt m) (Some now).

Definition set_timed_out (now : Z) (m : PvPMatch) : PvPMatch :=
  mk (_id m) (player1Id m) (player1Username m) (player2Id m) (player2Username m)
     (player1Wpm m) (player1Accuracy m) (player2Wpm m) (player2Accuracy m)
     (winnerId m) (winnerName m) (player1EloChange m) (player2EloChange m)
     (matchDuration m) completed (createdAt m) (Some now).

Definition set_ranking (elo' wins' losses' matches' now : Z) (r : PvPRanking)
    : PvPRanking :=
  Ranking.mk (Ranking.userId r) (Ranking.username r) elo' wins' losses' matches'
             (Some now) (Ranking.createdAt r) (Ranking.updatedAt r).

Definition startMatch (w : World) (matchId : string) (now : Z) : World :=
  match getMatch (db w) matchId with
  | None => w
  | Some m =>
      let gameStartPayload :=
        game_start matchId (player1Id m) (player1Username m)
                   (player2Id m) (player2Username m) now 60 in
      let w := emitToUser w (player1Id m) gameStartPayload in
      let w := emitToUser w (player2Id m) gameStartPayload in
      with_activeMatches w (<[matchId := (now + MATCH_TIMEOUT)%Z]> (activeMatches w))
  end.

(** The first half of [handleProgressUpdate] and of [handleMatchComplete]:
    the sender's stats go to the slot of the player the sender is. *)
Definition storeStats (d : Db) (m : PvPMatch) (matchId userId : string)
    (wpm accuracy : float) : Db :=
  if bool_decide (userId = player1Id m) then
    updateMatch d matchId (set_player1_stats wpm accuracy)
  else if bool_decide (userId = player2Id m) then
    updateMatch d matchId (set_player2_stats wpm accuracy)
  else d.

Definition handleProgressUpdate (w : World) (matchId userId : string)
    (wpm accuracy : float) (now : Z) : World :=
  match getMatch (db w) matchId with
  | None => w
  | Some m =>
      if negb (bool_decide (status m = active)) then w
      else
        let w := updateProgress w userId wpm accuracy now in
        let w := with_db w (storeStats (db w) m matchId userId wpm accuracy) in
        let opponentId :=
          if bool_decide (userId = player1Id m) then player2Id m
          else player1Id m in
        emitToUser w opponentId (opponent_progress matchId wpm accuracy now)
  end.

(** [winnerId === id] for a nullable [winnerId]. *)
Definition is_id (winnerId : option string) (id : string) : bool :=
  bool_decide (winnerId = Some id).

Definition resultOf (winnerId : option string) (own other : string) : R :=
  if is_id winnerId own then 1%R
  else if is_id winnerId other then 0%R else (/ 2)%R.

(** Weighted score: 80% WPM + 20% accuracy, [wpm * 0.8 + accuracy * 0.2]
    in double arithmetic: each product and the sum are rounded to the
    nearest double, and [0.8] and [0.2] are the doubles nearest to these
    decimals. *)
#[local] Set Warnings "-inexact-float".
Definition weightedScore (wpm accuracy : float) : float :=
  (wpm * 0.8 + accuracy * 0.2)%float.
#[local] Set Warnings "inexact-float".

(** The winner's id and name, [None] for a draw. *)
Definition selectWinner (m : PvPMatch) : option (string * string) :=
  let player1Score := weightedScore (player1Wpm m) (player1Accuracy m) in
  let player2Score := weightedScore (player2Wpm m) (player2Accuracy m) in
  if gt player1Score player2Score then
    Some (player1Id m, player1Username m)
  else if gt player2Score player1Score then
    Some (player2Id m, player2Username m)
  else None.

(** The update written to the ranking of player [id], from the snapshot
    [ranking] read before either update. *)
Definition rankingUpdate (winnerId : option string) (id : string)
    (ranking : PvPRanking) (eloChange now : Z) : PvPRanking -> PvPRanking :=
  set_ranking
    (Ranking.elo ranking + eloChange)
    (if is_id winnerId id
     then Ranking.wins ranking + 1 else Ranking.wins ranking)
    (if negb (is_id winnerId id) && bool_decide (winnerId <> None)
     then Ranking.losses ranking + 1 else Ranking.losses ranking)
    (Ranking.matches ranking + 1) now.

Definition durationOf (m : PvPMatch) : Z :=
  match completedAt m with
  | Some completedAt => (completedAt - createdAt m) / 1000
  | None => 60
  end.

Definition finalizeMatch (w : World) (matchId : string) (now : Z) : World :=
  match getMatch (db w) matchId with
  | None => w
  | Some m =>
      (* clear timeout *)
      let w := with_activeMatches w (delete matchId (activeMatches w)) in
      let winner := selectWinner m in
      let winnerId := fst <$> winner in
      let winnerName := snd <$> winner in
      match getRanking (db w) (player1Id m), getRanking (db w) (player2Id m) with
      | Some p1Ranking, Some p2Ranking =>
          let p1Result := resultOf winnerId (player1Id m) (player2Id m) in
          let p2Result := resultOf winnerId (player2Id m) (player1Id m) in
          let p1EloChange :=
            Elo.calculateEloChange (IZR (Ranking.elo p1Ranking))
                                   (IZR (Ranking.elo p2Ranking)) p1Result in
          let p2EloChange :=
            Elo.calculateEloChange (IZR (Ranking.elo p2Ranking))
                                   (IZR (Ranking.elo p1Ranking)) p2Result in
          (* update rankings *)
          let d := updateRanking (db w) (player1Id m)
                     (rankingUpdate winnerId (player1Id m) p1Ranking p1EloChange now)
                     now in
          let d := updateRanking d (player2Id m)
                     (rankingUpdate winnerId (player2Id m) p2Ranking p2EloChange now)
                     now in
          let matchDuration := durationOf m in
          let d := updateMatch d matchId
            (set_result winnerId winnerName p1EloChange p2EloChange
                        matchDuration now) in
          let w := with_db w d in
          let resultPayload :=
            mkResult matchId winnerId winnerName
              (player1Id m) (player1Username m) (player1Wpm m)
              (player1Accuracy m) p1EloChange
              (player2Id m) (player2Username m) (player2Wpm m)
              (player2Accuracy m) p2EloChange matchDuration in
          let w := emitToUser w (player1Id m) (match_result resultPayload) in
          let w := emitToUser w (player2Id m) (match_result resultPayload) in
          clearMatch w (player1Id m) (player2Id m)
      | _, _ => w
      end
  end.

(** The barrier test of [handleMatchComplete] on the re-read match. *)
Definition bothCompleted (updatedMatch : PvPMatch) : bool :=
  gt (player1Wpm updatedMatch) 0 && gt (player2Wpm updatedMatch) 0.

Definition handleMatchComplete (w : World) (matchId userId : string)
    (finalWpm finalAccuracy : float) (now : Z) : World :=
  match getMatch (db w) matchId with
  | None => w
  | Some m =>
      if negb (bool_decide (status m = active)) then w
      else
        let w := with_db w (storeStats (db w) m matchId userId finalWpm finalAccuracy) in
        match getMatch (db w) matchId with
        | Some updatedMatch =>
            if bothCompleted updatedMatch then finalizeMatch w matchId now
            else w
        | None => w
        end
  end.

Definition handleMatchTimeout (w : World) (matchId : string) (now : Z) : World :=
  match getMatch (db w) matchId with
  | None => w
  | Some m =>
      if negb (bool_decide (status m = active)) then w
      else
        let w := with_db w (updateMatch (db w) matchId (set_timed_out now)) in
        let message := "Match timeout - game ended"%string in
        let w := emitToUser w (player1Id m) (match_timeout matchId message) in
        let w := emitToUser w (player2Id m) (match_timeout matchId message) in
        clearMatch w (player1Id m) (player2Id m)
  end.

End MatchService.

(** ** backend/src/services/pvp-queue.service.ts *)

Module QueueService.

Record QueueEntry := mkEntry {
  userId : string;
  username : string;
  socketId : string;
  joinedAt : Z
}.

(** The queue object.  [tryMatch] is [async]: it runs until it awaits the
    creation of a match and resumes when that creation settles.  [creating]
    holds, for every suspended [tryMatch], the pair it has popped and is
    creating a match for; everything between two suspension points runs
    without interleaving. *)
Record PvPQueue := mkQueue {
  queue : list QueueEntry;
  userInQueue : gset string;
  creating : list (QueueEntry * QueueEntry);
  world : World
}.

Definition QUEUE_TIMEOUT : Z := 30000.
Definition CLEANUP_INTERVAL : Z := 5000.

Definition with_world (q : PvPQueue) (w : World) : PvPQueue :=
  mkQueue (queue q) (userInQueue q) (creating q) w.

Definition getSize (q : PvPQueue) : nat := length (queue q).

Definition getQueueUsers (q : PvPQueue) : list QueueEntry := queue q.

Definition isInQueue (q : PvPQueue) (userId : string) : bool :=
  bool_decide (userId ∈ userInQueue q).

(** How the storage calls of one [createMatch] end: all succeed, or one of
    them throws, at the first player's ranking, at the second player's, or
    at the insertion of the match. *)
Inductive CreateOutcome :=
| Created
| ThrowsAtRanking1
| ThrowsAtRanking2
| ThrowsAtInsert.

Inductive Completion := Resolved (w : World) | Rejected (w : World).

(** [getRanking(id) ?? createRanking({...})]. *)
Definition ensureRanking (d : Dal.Db) (player : QueueEntry) (now : Z)
    : Dal.Db * PvPRanking :=
  match Dal.getRanking d (userId player) with
  | Some ranking => (d, ranking)
  | None =>
      Dal.createRanking d
        (Ranking.mk (userId player) (username player) 1000 0 0 0 None now now)
  end.

Definition newMatch (matchId : string) (player1 player2 : QueueEntry) (now : Z)
    : PvPMatch :=
  Match.mk matchId (userId player1) (username player1)
           (userId player2) (username player2)
           0 0 0 0 None None 0 0 0 active now None.

(** The private [createMatch(player1, player2)]; [matchId] is the value of
    [uuidv4()]. *)
Definition createMatch (w : World) (player1 player2 : QueueEntry)
    (matchId : string) (now : Z) (outcome : CreateOutcome) : Completion :=
  match outcome with
  | ThrowsAtRanking1 => Rejected w
  | ThrowsAtRanking2 =>
      let '(d, _) := ensureRanking (db w) player1 now in
      Rejected (with_db w d)
  | ThrowsAtInsert =>
      let '(d, _) := ensureRanking (db w) player1 now in
      let '(d, _) := ensureRanking d player2 now in
      Rejected (with_db w d)
  | Created =>
      let '(d, p1Ranking) := ensureRanking (db w) player1 now in
      let '(d, p2Ranking) := ensureRanking d player2 now in
      let d := Dal.createMatch d (newMatch matchId player1 player2 now) in
      let w := with_db w d in
      let w := emitToUser w (userId player1)
                 (match_found matchId (userId player2) (username player2)
                              (Ranking.elo p2Ranking)) in
      let w := emitToUser w (userId player2)
                 (match_found matchId (userId player1) (username player1)
                              (Ranking.elo p1Ranking)) in
      Resolved w
  end.

(** The body of [tryMatch], from the loop test to the next suspension:
    with two entries or more the two oldest are popped, leave the
    membership set, and their match creation is awaited. *)
Definition tryMatch (q : PvPQueue) : PvPQueue :=
  match queue q with
  | player1 :: player2 :: rest =>
      mkQueue rest
              (userInQueue q ∖ {[userId player1]} ∖ {[userId player2]})
              (creating q ++ [(player1, player2)])
              (world q)
  | _ => q
  end.

(** The [catch] block of [tryMatch]. *)
Definition readd (q : PvPQueue) (player1 player2 : QueueEntry) : PvPQueue :=
  mkQueue (queue q ++ [player1; player2])
          (userInQueue q ∪ {[userId player1]} ∪ {[userId player2]})
          (creating q) (world q).

(** The [i]-th suspended [tryMatch] resumes: its [createMatch] has settled
    with [outcome]; on a rejection the [catch] block runs; in both cases the
    loop goes on to its next test. *)
Definition settle (q : PvPQueue) (i : nat) (matchId : string) (now : Z)
    (outcome : CreateOutcome) : PvPQueue :=
  match creating q !! i with
  | None => q
  | Some (player1, player2) =>
      let q := mkQueue (queue q) (userInQueue q) (delete i (creating q))
                       (world q) in
      match createMatch (world q) player1 player2 matchId now outcome with
      | Resolved w => tryMatch (with_world q w)
      | Rejected w => tryMatch (readd (with_world q w) player1 player2)
      end
  end.

Definition join (q : PvPQueue) (userId' username' socketId' : string)
    (now : Z) : PvPQueue * nat :=
  if bool_decide (userId' ∈ userInQueue q) then (q, length (queue q))
  else
    let entry := mkEntry userId' username' socketId' now in
    let q := mkQueue (queue q ++ [entry]) (userInQueue q ∪ {[userId']})
                     (creating q) (world q) in
    let q := tryMatch q in
    (q, length (queue q)).

Definition leave (q : PvPQueue) (userId' : string) : PvPQueue * bool :=
  match list_find (fun entry => userId entry = userId') (queue q) with
  | None => (q, false)
  | Some (index, _) =>
      (mkQueue (delete index (queue q)) (userInQueue q ∖ {[userId']})
               (creating q) (world q),
       true)
  end.

Definition stale (now : Z) (entry : QueueEntry) : bool :=
  (QUEUE_TIMEOUT <? now - joinedAt entry)%Z.

Definition cleanupStaleEntries (q : PvPQueue) (now : Z) : PvPQueue :=
  let removed := List.filter (stale now) (queue q) in
  mkQueue (List.filter (fun entry => negb (stale now entry)) (queue q))
          (userInQueue q ∖ list_to_set (map userId removed))
          (creating q)
          (fold_left
             (fun w entry =>
                emitToUser w (userId entry)
                  (queue_timeout "Queue timeout - you were removed"))
             removed (world q)).

(** What can happen to the queue object, one event at a time. *)
Inductive QueueEvent :=
| Join (userId username socketId : string) (now : Z)
| Leave (userId : string)
| Cleanup (now : Z)
| Settle (i : nat) (matchId : string) (now : Z) (outcome : CreateOutcome).

Definition step (q : PvPQueue) (ev : QueueEvent) : PvPQueue :=
  match ev with
  | Join u n s now => fst (join q u n s now)
  | Leave u => fst (leave q u)
  | Cleanup now => cleanupStaleEntries q now
  | Settle i matchId now outcome => settle q i matchId now outcome
  end.

Definition run (q : PvPQueue) (evs : list QueueEvent) : PvPQueue :=
  fold_left step evs q.

(** [new PvPQueue()]. *)
Definition empty_queue (w : World) : PvPQueue := mkQueue [] ∅ [] w.

Definition reachable (q : PvPQueue) : Prop :=
  exists w evs, q = run (empty_queue w) evs.

(** Between two events the queue holds at most one entry: a second entry
    is popped, with the first, by the [tryMatch] that [join] starts. *)
Definition at_rest (q : PvPQueue) : Prop := length (queue q) <= 1.

(** The membership set mirrors the queue. *)
Definition in_sync (q : PvPQueue) : Prop :=
  userInQueue q = list_to_set (map userId (queue q)).

Definition settled (q : PvPQueue) : Prop := at_rest q /\ in_sync q.

(** Events in which no match creation fails. *)
Definition no_failure (ev : QueueEvent) : Prop :=
  match ev with
  | Settle _ _ _ outcome => outcome = Created
  | _ => True
  end.

Definition reachable_without_failure (q : PvPQueue) : Prop :=
  exists w evs, Forall no_failure evs /\ q = run (empty_queue w) evs.

End QueueService.

(** ** The weighted score as the spec words it

    [score = 0.8 * wpm + 0.2 * accuracy] over the rationals that the
    stored doubles denote, without rounding.  Kept apart from
    [MatchService.weightedScore], which computes as the code does. *)

Module SpecScore.

(** The rational that a finite double denotes; infinities and [NaN] denote
    none. *)
Definition exact (x : float) : option Q :=
  match Prim2SF x with
  | S754_zero _ => Some 0%Q
  | S754_finite s m e =>
      Some (Qred (inject_Z (if s then Z.neg m else Z.pos m) * Qpower 2 e))
  | _ => None
  end.


End SpecScore.

(** ** Sample data: two players and their match *)

Module Sample.

Definition ranking (userId username : string) (elo : Z) : PvPRanking :=
  Ranking.mk userId username elo 0 0 0 None 0 0.

(** An active match created at time 0 whose two players have both
    reported: alice 80 wpm at 95%, bob 70 wpm at 97%. *)
Definition m1 : PvPMatch :=
  Match.mk "m1" "alice" "Alice" "bob" "Bob" 80 95 70 97
           None None 0 0 0 active 0 None.

Definition sockets : list Socket :=
  [mkSocket "s1" "alice"; mkSocket "s2" "bob"; mkSocket "s3" "carol"].

(** Both players rated [elo]. *)
Definition world (elo : Z) : World :=
  mkWorld
    (Dal.mkDb (<["alice" := ranking "alice" "Alice" elo]>
                 (<["bob" := ranking "bob" "Bob" elo]> ∅))
              (<["m1" := m1]> ∅))
    (Some sockets) ∅ ∅ [].



End Sample.

(** The order the spec words for the leaderboard: [elo] descending, ties
    broken by [updatedAt] ascending. *)
Definition spec_leaderboard_order (a b : PvPRanking) : Prop :=
  (Ranking.elo b < Ranking.elo a)%Z \/
  (Ranking.elo a = Ranking.elo b /\ (Ranking.updatedAt a <= Ranking.updatedAt b)%Z).

Module SampleQueue.
Import QueueService.

Definition eA : QueueEntry := mkEntry "alice" "Alice" "s1" 0.
Definition eB : QueueEntry := mkEntry "bob" "Bob" "s2" 1000.
Definition eC : QueueEntry := mkEntry "carol" "Carol" "s3" 2000.

(** alice and bob join in turn; they are popped when bob joins and their
    match is being created. *)
Definition two_joined : PvPQueue :=
  run (empty_queue (Sample.world 1000))
      [Join "alice" "Alice" "s1" 0; Join "bob" "Bob" "s2" 1000].

(** alice, bob and carol join in turn; alice and bob are popped when bob
    joins and their match is being created when carol joins. *)
Definition three_joined : PvPQueue :=
  run (empty_queue (Sample.world 1000))
      [Join "alice" "Alice" "s1" 0; Join "bob" "Bob" "s2" 1000;
       Join "carol" "Carol" "s3" 2000].

(** alice and bob are popped, bob joins again while their match is being
    created, and the creation fails. *)
Definition rejoined_then_failed : PvPQueue :=
  run (empty_queue (Sample.world 1000))
      [Join "alice" "Alice" "s1" 0; Join "bob" "Bob" "s2" 1000;
       Join "bob" "Bob" "s2" 2000; Settle 0 "m2" 3000 ThrowsAtInsert].

(** After that bob joins once more, is paired with the entry of his that
    was left in the queue, and the creation of that match succeeds. *)
Definition self_matched : PvPQueue :=
  run rejoined_then_failed
      [Join "bob" "Bob" "s2" 4000; Settle 1 "m3" 5000 Created].

(** Two rankings with the same [elo]; the one updated last is stored
    under the key that the collection lists first. *)
Definition tied_rankings : Dal.Db :=
  Dal.mkDb (<["alice" := Ranking.mk "alice" "Alice" 1000 0 0 0 None 0 9]>
              (<["bob" := Ranking.mk "bob" "Bob" 1000 0 0 0 None 0 3]> ∅))
           ∅.

End SampleQueue.

(** ** backend/src/utils/elo.utils.ts: preview, tiers, win rate *)

Module EloMore.

Record RatingPreview := mkPreview { ifWin : Z; ifLoss : Z; ifDraw : Z }.

Definition simulateRatingChange (playerRating opponentRating : R)
    : RatingPreview :=
  mkPreview (Elo.calculateEloChange playerRating opponentRating 1)
            (Elo.calculateEloChange playerRating opponentRating 0)
            (Elo.calculateEloChange playerRating opponentRating (/ 2)).

(** [a < b] on numbers. *)
Definition lt (a b : Q) : bool := negb (Qle_bool b a).

Definition getRatingTier (elo : Q) : string :=
  if lt elo 1000 then "Bronze"
  else if lt elo 1200 then "Silver"
  else if lt elo 1400 then "Gold"
  else if lt elo 1600 then "Platinum"
  else if lt elo 1800 then "Diamond"
  else "Immortal".

(** The badges, lowest first. *)
Definition tiers : list string :=
  ["Bronze"; "Silver"; "Gold"; "Platinum"; "Diamond"; "Immortal"].

(** The place of a badge in [tiers]. *)
Definition tierRank (tier : string) : option nat :=
  fst <$> list_find (fun t => t = tier) tiers.

(** [Math.round] on exact rationals. *)
Definition Math_round_Q (x : Q) : Z := Qfloor (x + (1 # 2)).

(** [wins] and [losses] are counters. *)
Definition getWinRate (wins losses : Z) : Z :=
  let total := (wins + losses)%Z in
  if (total =? 0)%Z then 0%Z
  else Math_round_Q (inject_Z wins / inject_Z total * 100).

End EloMore.

(** ** backend/src/init/socket.ts: the other emitters and lookups *)

Module SocketMore.

Definition emitToUsers (w : World) (userIds : list string)
    (event : ServerEvent) : World :=
  match io w with
  | None => w
  | Some sockets =>
      mkWorld (db w) (io w) (tracker w) (activeMatches w)
        (emitted w ++
         map (fun s => (s, event))
             (List.filter (fun s => bool_decide (socket_userId s ∈ userIds))
                          sockets))
  end.

Definition broadcastEvent (w : World) (event : ServerEvent) : World :=
  match io w with
  | None => w
  | Some sockets =>
      mkWorld (db w) (io w) (tracker w) (activeMatches w)
        (emitted w ++ map (fun s => (s, event)) sockets)
  end.

Definition getUserSocketId (w : World) (userId : string) : option string :=
  match io w with
  | None => None
  | Some sockets =>
      socket_id <$>
        List.find (fun s => bool_decide (socket_userId s = userId)) sockets
  end.

Definition isUserConnected (w : World) (userId : string) : bool :=
  match io w with
  | None => false
  | Some sockets =>
      existsb (fun s => bool_decide (socket_userId s = userId)) sockets
  end.

End SocketMore.

(** ** backend/src/dal/pvp.ts: match history and active matches

    As for the leaderboard, the server's sort (here on [createdAt],
    descending) is a parameter held to what the query asks. *)

Module DalMore.
Import Match Dal.

Definition createdAt_desc (a b : PvPMatch) : Prop :=
  (createdAt b <= createdAt a)%Z.

Definition sorts_by_createdAt_desc (sort : list PvPMatch -> list PvPMatch)
    : Prop :=
  forall l, Permutation (sort l) l /\ StronglySorted createdAt_desc (sort l).

Global Instance createdAt_desc_dec : RelDecision createdAt_desc.
Proof. intros a b. unfold createdAt_desc. apply _. Defined.

Definition server_sort_matches : list PvPMatch -> list PvPMatch :=
  merge_sort createdAt_desc.

(** [$or: [{ player1Id: userId }, { player2Id: userId }]]. *)
Definition involves (userId : string) (m : PvPMatch) : bool :=
  bool_decide (player1Id m = userId) || bool_decide (player2Id m = userId).

(** [find(query)] on the matches, in the collection's own order. *)
Definition find_matches (d : Db) (query : PvPMatch -> bool) : list PvPMatch :=
  List.filter query (map_to_list (pvp_matches d)).*2.

Definition history_query (userId : string) (m : PvPMatch) : bool :=
  involves userId m && bool_decide (status m = completed).

Definition getMatchHistory (sort_createdAt_desc : list PvPMatch -> list PvPMatch)
    (d : Db) (userId : string) (limit offset : nat) : list PvPMatch * nat :=
  let matches :=
    cursor_limit limit
      (drop offset (sort_createdAt_desc (find_matches d (history_query userId)))) in
  let total := length (find_matches d (history_query userId)) in
  (matches, total).

Definition getActiveMatches (d : Db) (userId : string) : list PvPMatch :=
  find_matches d
    (fun m => involves userId m && bool_decide (status m = active)).

End DalMore.

(** ** backend/src/services/pvp-match.service.ts: tracker reads, disconnect,
    shutdown *)

Module MatchServiceMore.

(** [tracker.getProgress]. *)
Definition getProgress (w : World) (userId : string) : option MatchProgress :=
  tracker w !! userId.

(** Only logs. *)
Definition handlePlayerDisconnect (w : World) (userId : string) : World := w.

Definition cleanupMatches (w : World) : World :=
  with_activeMatches w ∅.

End MatchServiceMore.

(** ** backend/src/api/routes/pvp.ts

    A handler either returns a 200 body or throws a [MonkeyError]; every
    handler body sits in a [try] whose [catch] throws a fresh error, so an
    error thrown inside is replaced. *)

Module Routes.

Inductive Response (A : Type) :=
| Ok200 (message : string) (data : A)
| MonkeyError (status : Z) (message : string).
Arguments Ok200 {A} message data.
Arguments MonkeyError {A} status message.

(** [try { body } catch (error) { throw new MonkeyError(status, message) }]. *)
Definition try_catch {A} (body : Response A) (status : Z) (message : string)
    : Response A :=
  match body with
  | Ok200 m d => Ok200 m d
  | MonkeyError _ _ => MonkeyError status message
  end.

(** [!s] on an optional string: missing or empty. *)
Definition falsy (s : option string) : bool :=
  match s with
  | None => true
  | Some s => bool_decide (s = "")
  end.

Definition getRanking (d : Dal.Db) (userId : string) : Response PvPRanking :=
  try_catch
    (match Dal.getRanking d userId with
     | None => MonkeyError 404 ("No ranking found for user " ++ userId)
     | Some ranking => Ok200 "Ranking retrieved" ranking
     end)
    500 "Internal server error".

Definition getLeaderboard (sort : list PvPRanking -> list PvPRanking)
    (d : Dal.Db) (limit offset : nat) : Response (list PvPRanking * nat) :=
  try_catch (Ok200 "Leaderboard retrieved" (Dal.getLeaderboard sort d limit offset))
            500 "Internal server error".

(** The request's user: [req.user?.id], [req.user?.username],
    [req.user?.socketId]. *)
Record RequestUser := mkUser {
  id : option string;
  username : option string;
  socketId : option string
}.


Definition leaveQueue (q : QueueService.PvPQueue) (user : RequestUser)
    : QueueService.PvPQueue * Response unit :=
  match id user with
  | Some userId =>
      if falsy (id user) then (q, MonkeyError 404 "Failed to leave queue")
      else
        let '(q, success) := QueueService.leave q userId in
        if success then (q, Ok200 "Left queue successfully" tt)
        else (q, MonkeyError 404 "Failed to leave queue")
  | None => (q, MonkeyError 404 "Failed to leave queue")
  end.

End Routes.

(** ** frontend PvP page: scoring of the typing test

    The test state [pvpTest] and what a press of the space bar and
    [updateStats] do to it; the DOM updates are left out. *)

Module Typing.

Record PvpTest := mkTest {
  words : list string;
  currentWordIndex : nat;
  currentInput : string;
  correctChars : Z;
  totalChars : Z;
  startTime : option Z;
  isActive : bool
}.

(** A fresh test, as [initializePvPTest] sets it up. *)
Definition newTest (words' : list string) : PvpTest :=
  mkTest words' 0 "" 0 0 None true.

(** [handlePvPInput]: the input field now holds [inputValue]. *)
Definition handlePvPInput (t : PvpTest) (inputValue : string) (now : Z)
    : PvpTest :=
  if negb (isActive t) then t
  else
    let startTime' :=
      match startTime t with
      | None => if (0 <? String.length inputValue)%nat then Some now else None
      | Some started => Some started
      end in
    mkTest (words t) (currentWordIndex t) inputValue
           (correctChars t) (totalChars t) startTime' (isActive t).

(** The loop over the first [min] characters: positions where the input
    and the word agree. *)
Fixpoint correctInWord (input word : string) : Z :=
  match input, word with
  | String a input', String b word' =>
      ((if Ascii.eqb a b then 1 else 0) + correctInWord input' word')%Z
  | _, _ => 0%Z
  end.

Definition len (s : string) : Z := Z.of_nat (String.length s).

(** [handlePvPKeydown] for the space key; [finishPvPTest] once the last
    word is done. *)
Definition handleSpace (t : PvpTest) : PvpTest :=
  if negb (isActive t) then t
  else
    match words t !! currentWordIndex t with
    | None => t
    | Some currentWord =>
        if bool_decide (currentWord = "") then t
        else
          let correctChars' :=
            if bool_decide (currentInput t = currentWord)
            then (correctChars t + (len currentWord + 1))%Z
            else (correctChars t + correctInWord (currentInput t) currentWord)%Z in
          let totalChars' :=
            (totalChars t + (Z.max (len (currentInput t)) (len currentWord) + 1))%Z in
          let currentWordIndex' := S (currentWordIndex t) in
          mkTest (words t) currentWordIndex' "" correctChars' totalChars'
                 (startTime t)
                 (negb (length (words t) <=? currentWordIndex'))
    end.

(** The accuracy computed by [updateStats]. *)
Definition accuracy (t : PvpTest) : Z :=
  if (0 <? totalChars t)%Z
  then EloMore.Math_round_Q (inject_Z (correctChars t) / inject_Z (totalChars t) * 100)
  else 100%Z.

(** One word: what the field holds when the space bar is pressed. *)
Definition typeWord (now : Z) (t : PvpTest) (typed : string) : PvpTest :=
  handleSpace (handlePvPInput t typed now).

(** *** The page: the test, the player's own figures in
    [state.matchStats], and what is sent to the server.  The opponent's
    figures and [yourProgress], which nothing here reads, are left out, and
    so is the [progress] field of ["pvp:progress"]. *)

Record MatchStats := mkStats {
  yourWpm : Z;
  yourAccuracy : Z
}.

Inductive ClientEvent :=
| PvpProgress (wpm accuracy : Z)
| PvpComplete (wpm accuracy : Z).

Record Page := mkPage {
  pvpTest : PvpTest;
  matchStats : option MatchStats;
  sent : list ClientEvent
}.

Definition newPage (words' : list string) : Page :=
  mkPage (newTest words') None [].

(** The words per minute computed by [updateStats] at time [now]. *)
Definition wpm (t : PvpTest) (started now : Z) : Z :=
  let elapsed := (inject_Z (now - started) / 1000 / 60)%Q in
  if EloMore.lt 0 elapsed
  then EloMore.Math_round_Q (inject_Z (correctChars t) / 5 / elapsed)
  else 0%Z.

Definition updateStats (p : Page) (now : Z) : Page :=
  match startTime (pvpTest p) with
  | None => p
  | Some started =>
      if (started =? 0)%Z then p
      else
        let wpm' := wpm (pvpTest p) started now in
        let accuracy' := accuracy (pvpTest p) in
        mkPage (pvpTest p) (Some (mkStats wpm' accuracy'))
               (sent p ++ [PvpProgress wpm' accuracy'])
  end.

(** [state.matchStats?.yourWpm ?? 0] and the same for the accuracy. *)
Definition reported (stats : option MatchStats) : ClientEvent :=
  match stats with
  | Some stats => PvpComplete (yourWpm stats) (yourAccuracy stats)
  | None => PvpComplete 0 0
  end.

Definition finishPvPTest (p : Page) : Page :=
  let t := pvpTest p in
  mkPage (mkTest (words t) (currentWordIndex t) (currentInput t)
                 (correctChars t) (totalChars t) (startTime t) false)
         (matchStats p)
         (sent p ++ [reported (matchStats p)]).

(** The two listeners of the input field.  [handlePvPInput] reads the
    clock twice, for the start time and in [updateStats]. *)
Inductive KeyEvent :=
| Input (inputValue : string) (now now' : Z)
| Space (now : Z).

Definition onInput (p : Page) (inputValue : string) (now now' : Z) : Page :=
  if negb (isActive (pvpTest p)) then p
  else
    updateStats
      (mkPage (handlePvPInput (pvpTest p) inputValue now) (matchStats p) (sent p))
      now'.

Definition onSpace (p : Page) (now : Z) : Page :=
  let t := pvpTest p in
  if negb (isActive t) then p
  else
    match words t !! currentWordIndex t with
    | None => p
    | Some currentWord =>
        if bool_decide (currentWord = "") then p
        else
          let scored := mkPage (handleSpace t) (matchStats p) (sent p) in
          if length (words t) <=? S (currentWordIndex t)
          then finishPvPTest scored
          else updateStats scored now
    end.

Definition key (p : Page) (e : KeyEvent) : Page :=
  match e with
  | Input inputValue now now' => onInput p inputValue now now'
  | Space now => onSpace p now
  end.

(** The figures of the last ["pvp:progress"] sent, if any. *)
Definition lastProgress (l : list ClientEvent) : option MatchStats :=
  match last l with
  | Some (PvpProgress wpm' accuracy') => Some (mkStats wpm' accuracy')
  | _ => None
  end.

Definition isProgress (e : ClientEvent) : Prop :=
  match e with
  | PvpProgress _ _ => True
  | PvpComplete _ _ => False
  end.

End Typing.

(** ** More sample data *)

Module SampleMore.

(** The sample match stored, but no ranking and no socket server. *)
Definition unranked_world : World :=
  mkWorld (Dal.mkDb ∅ (<["m1" := Sample.m1]> ∅)) None ∅ ∅ [].

End SampleMore.

(** * Properties *)

(** ** Elo calculator *)

Module EloFacts.
Import Elo.
Local Open Scope R_scope.

(** *** Rounding *)

Lemma Math_round_nearest x : spec_is_round x (Math_round x).
Proof.
  unfold spec_is_round, Math_round.
  pose proof (Zfloor_bound (x + / 2)) as [Hlo Hhi]. lra.
Qed.

Lemma Math_round_unique x z : spec_is_round x z -> Math_round x = z.
Proof.
  unfold spec_is_round, Math_round. intros [Hlo Hhi].
  apply Zfloor_eq. lra.
Qed.

Lemma Math_round_IZR z : Math_round (IZR z) = z.
Proof. apply Math_round_unique. unfold spec_is_round. lra. Qed.

Lemma Math_round_opp x : ~ is_tie x -> Math_round (- x) = (- Math_round x)%Z.
Proof.
  intros Hnt. apply Math_round_unique. unfold spec_is_round.
  pose proof (Math_round_nearest x) as [Hlo Hhi].
  rewrite opp_IZR. split; [lra|].
  destruct (Rle_lt_or_eq_dec _ _ Hlo) as [Hlt | Heq]; [lra|].
  exfalso. apply Hnt. exists (Math_round x). lra.
Qed.

Lemma Math_round_opp_tie x :
  is_tie x -> (Math_round (- x) + Math_round x = 1)%Z.
Proof.
  intros [n Hn].
  assert (Hx : Math_round x = n).
  { apply Math_round_unique. unfold spec_is_round. lra. }
  assert (Hmx : Math_round (- x) = (1 - n)%Z).
  { apply Math_round_unique. unfold spec_is_round. rewrite minus_IZR. lra. }
  lia.
Qed.

(** *** Expected score *)

Lemma Math_pow_pos e : 0 < Math_pow 10 e.
Proof. unfold Math_pow, Rpower. apply exp_pos. Qed.

Lemma getExpectedScore_range p o : 0 < getExpectedScore p o < 1.
Proof.
  unfold getExpectedScore.
  pose proof (Math_pow_pos ((o - p) / 400)) as Hpos.
  set (t := Math_pow 10 ((o - p) / 400)) in *.
  split.
  - apply Rdiv_lt_0_compat; lra.
  - apply Rmult_lt_reg_r with (1 + t); [lra|].
    unfold Rdiv. rewrite Rmult_assoc, Rinv_l by lra. lra.
Qed.

Lemma getExpectedScore_sum p o :
  getExpectedScore p o + getExpectedScore o p = 1.
Proof.
  unfold getExpectedScore.
  pose proof (Math_pow_pos ((o - p) / 400)) as Hpos.
  replace ((p - o) / 400) with (- ((o - p) / 400)) by lra.
  unfold Math_pow in *. rewrite Rpower_Ropp.
  set (t := Rpower 10 ((o - p) / 400)) in *.
  field. split; lra.
Qed.

Lemma getExpectedScore_equal p : getExpectedScore p p = / 2.
Proof.
  pose proof (getExpectedScore_sum p p). lra.
Qed.

(** *** Integer ratings never produce a rounding tie

    [32 * (r - E)] is half way between two integers only if [E = m / 64]
    for an odd [m], that is [10 ^ (d / 400) = (64 - m) / m].  Raising to the
    400th power gives an equation between integers whose two sides have
    different parities. *)

Lemma Math_pow_400 (d : Z) :
  Math_pow 10 (IZR d / 400) ^ 400 = powerRZ 10 d.
Proof.
  unfold Math_pow.
  rewrite <- Rpower_pow by (unfold Rpower; apply exp_pos).
  rewrite Rpower_mult, INR_IZR_INZ.
  change (Z.of_nat 400) with 400%Z.
  replace (IZR d / 400 * 400) with (IZR d) by lra.
  symmetry. apply powerRZ_Rpower. lra.
Qed.

Lemma ten_pow_even (p : positive) : Z.odd (10 ^ Z.pos p) = false.
Proof. rewrite Z.odd_pow by lia. reflexivity. Qed.

Lemma odd_pow_400 (m : Z) : Z.odd m = true -> Z.odd (m ^ 400) = true.
Proof. intros H. rewrite Z.odd_pow by lia. exact H. Qed.

Lemma pow_IZR_400 (z : Z) : IZR (z ^ 400) = IZR z ^ 400.
Proof. rewrite pow_IZR. reflexivity. Qed.

Lemma odd_expected_denominator (m d : Z) :
  Z.odd m = true ->
  IZR m * (1 + Math_pow 10 (IZR d / 400)) = 64 -> False.
Proof.
  intros Hodd Heq.
  set (t := Math_pow 10 (IZR d / 400)) in *.
  assert (Hmt : IZR m * t = IZR (64 - m)) by (rewrite minus_IZR; lra).
  assert (Hpow : IZR (m ^ 400) * powerRZ 10 d = IZR ((64 - m) ^ 400)).
  { rewrite <- Math_pow_400. fold t.
    rewrite !pow_IZR_400, <- Hmt, Rpow_mult_distr. reflexivity. }
  assert (Hodd' : Z.odd (64 - m) = true).
  { rewrite Z.odd_sub, Hodd. reflexivity. }
  destruct d as [|p|p]; cbn [powerRZ] in Hpow.
  - (* equal ratings: t = 1 and m = 32 *)
    clear Hpow.
    assert (t = 1) as Ht.
    { unfold t, Math_pow. replace (0 / 400) with 0 by lra.
      apply Rpower_O. lra. }
    rewrite Ht in Hmt. rewrite minus_IZR in Hmt.
    assert (Hm : (2 * m = 64)%Z).
    { apply eq_IZR. rewrite mult_IZR. lra. }
    assert (m = 32%Z) by lia. subst m. discriminate Hodd.
  - assert (Hz : (m ^ 400 * 10 ^ Z.pos p = (64 - m) ^ 400)%Z).
    { apply eq_IZR. rewrite mult_IZR, <- Hpow. f_equal.
      rewrite <- (positive_nat_Z p), <- pow_IZR. reflexivity. }
    apply (f_equal Z.odd) in Hz.
    rewrite Z.odd_mul, ten_pow_even, (odd_pow_400 _ Hodd), (odd_pow_400 _ Hodd') in Hz.
    discriminate Hz.
  - assert (Hz : (m ^ 400 = (64 - m) ^ 400 * 10 ^ Z.pos p)%Z).
    { apply eq_IZR. rewrite mult_IZR, <- Hpow.
      rewrite <- (positive_nat_Z p), <- pow_IZR.
      rewrite Rmult_assoc, Rinv_l, Rmult_1_r; [reflexivity|].
      apply pow_nonzero. clear. lra. }
    apply (f_equal Z.odd) in Hz.
    rewrite Z.odd_mul, ten_pow_even, (odd_pow_400 _ Hodd), (odd_pow_400 _ Hodd') in Hz.
    discriminate Hz.
Qed.
Lemma no_tie_integer_ratings (e1 e2 : Z) (r : R) :
  r = 0 \/ r = / 2 \/ r = 1 ->
  ~ is_tie (K_FACTOR * (r - getExpectedScore (IZR e1) (IZR e2))).
Proof.
  intros Hr [n Hn]. unfold K_FACTOR, getExpectedScore in Hn.
  rewrite <- minus_IZR in Hn.
  pose proof (Math_pow_pos (IZR (e2 - e1) / 400)) as Hpos.
  set (t := Math_pow 10 (IZR (e2 - e1) / 400)) in *.
  assert (Hinv : (1 + t) * (1 / (1 + t)) = 1) by (field; lra).
  set (E := 1 / (1 + t)) in *.
  assert (Hm : exists m : Z, Z.odd m = true /\ IZR m = 64 * E).
  { destruct Hr as [-> | [-> | ->]].
    - exists (1 - 2 * n)%Z. split.
      + rewrite Z.odd_sub, Z.odd_mul. reflexivity.
      + rewrite minus_IZR, mult_IZR. lra.
    - exists (33 - 2 * n)%Z. split.
      + rewrite Z.odd_sub, Z.odd_mul. reflexivity.
      + rewrite minus_IZR, mult_IZR. lra.
    - exists (65 - 2 * n)%Z. split.
      + rewrite Z.odd_sub, Z.odd_mul. reflexivity.
      + rewrite minus_IZR, mult_IZR. lra. }
  destruct Hm as (m & Hodd & HmE).
  apply (odd_expected_denominator m (e2 - e1) Hodd).
  fold t. rewrite HmE. nra.
Qed.

(** *** The delta function *)

Lemma calculateEloChange_opp (p o r : R) :
  ~ is_tie (K_FACTOR * (r - getExpectedScore p o)) ->
  calculateEloChange o p (1 - r) = (- calculateEloChange p o r)%Z.
Proof.
  intros Hnt. unfold calculateEloChange.
  rewrite <- Math_round_opp by exact Hnt.
  f_equal. pose proof (getExpectedScore_sum p o). unfold K_FACTOR. lra.
Qed.

Lemma calculateEloChange_sum_general (p o r : R) :
  (calculateEloChange p o r + calculateEloChange o p (1 - r) = 0)%Z \/
  (is_tie (K_FACTOR * (r - getExpectedScore p o)) /\
   (calculateEloChange p o r + calculateEloChange o p (1 - r) = 1)%Z).
Proof.
  assert (Hopp : K_FACTOR * (1 - r - getExpectedScore o p) =
                 - (K_FACTOR * (r - getExpectedScore p o))).
  { pose proof (getExpectedScore_sum p o). unfold K_FACTOR. lra. }
  assert (Hdec : forall z : Z,
    K_FACTOR * (r - getExpectedScore p o) + / 2 = IZR z \/
    K_FACTOR * (r - getExpectedScore p o) + / 2 <> IZR z).
  { intros z. destruct (Req_dec_T (K_FACTOR * (r - getExpectedScore p o) + / 2) (IZR z)); auto. }
  destruct (Hdec (Math_round (K_FACTOR * (r - getExpectedScore p o)))) as [Htie | Hno].
  - right. split; [eexists; exact Htie|].
    unfold calculateEloChange. rewrite Hopp.
    pose proof (Math_round_opp_tie (K_FACTOR * (r - getExpectedScore p o))) as H.
    specialize (H (ex_intro _ _ Htie)). lia.
  - left. rewrite calculateEloChange_opp; [lia|].
    intros [n Hn]. apply Hno. rewrite Hn. f_equal. symmetry.
    apply Math_round_unique. unfold spec_is_round. lra.
Qed.

Lemma calculateEloChange_equal (p r : R) :
  calculateEloChange p p r = Math_round (32 * r - 16).
Proof.
  unfold calculateEloChange. rewrite getExpectedScore_equal.
  unfold K_FACTOR. f_equal. lra.
Qed.

Lemma calculateEloChange_equal_win p : calculateEloChange p p 1 = 16%Z.
Proof.
  rewrite calculateEloChange_equal.
  replace (32 * 1 - 16) with (IZR 16) by lra. apply Math_round_IZR.
Qed.

Lemma calculateEloChange_equal_loss p : calculateEloChange p p 0 = (-16)%Z.
Proof.
  rewrite calculateEloChange_equal.
  replace (32 * 0 - 16) with (IZR (-16)) by lra. apply Math_round_IZR.
Qed.

Lemma calculateEloChange_equal_draw p : calculateEloChange p p (/ 2) = 0%Z.
Proof.
  rewrite calculateEloChange_equal.
  replace (32 * / 2 - 16) with (IZR 0) by lra. apply Math_round_IZR.
Qed.

(** For persisted (integer) ratings and a result in {0, 1/2, 1}, the
    opponent's delta for the complementary result is the exact negative. *)
Lemma calculateEloChange_antisymmetric (e1 e2 : Z) (r : R) :
  r = 0 \/ r = / 2 \/ r = 1 ->
  calculateEloChange (IZR e2) (IZR e1) (1 - r) =
  (- calculateEloChange (IZR e1) (IZR e2) r)%Z.
Proof.
  intros Hr. apply calculateEloChange_opp.
  apply no_tie_integer_ratings. exact Hr.
Qed.

(** C1. [calculateEloChange] returns [round (K * (result - expected))] with
    [K = 32] and [expected = 1 / (1 + 10 ^ ((opponent - player) / 400))]:
    the returned integer is the one nearest to that value (a tie going
    up), and it is the only integer that is. *)
Theorem calculateEloChange_rounds_elo_formula
    (playerRating opponentRating result : R) :
  spec_is_round (32 * (result - spec_expected playerRating opponentRating))
                (calculateEloChange playerRating opponentRating result) /\
  forall z : Z,
    spec_is_round (32 * (result - spec_expected playerRating opponentRating)) z ->
    z = calculateEloChange playerRating opponentRating result.
Proof.
  split.
  - apply (Math_round_nearest (K_FACTOR * (result - getExpectedScore playerRating opponentRating))).
  - intros z Hz. symmetry.
    apply (Math_round_unique (K_FACTOR * (result - getExpectedScore playerRating opponentRating))).
    exact Hz.
Qed.

End EloFacts.

(** ** Match coordinator *)

Module MatchFacts.
Import Match Dal MatchService.

(** *** Comparison of doubles

    [<] on doubles is what IEEE-754 says it is ([FloatAxioms.ltb_spec]):
    no number is above itself, two numbers are never each above the other,
    and numbers that compare equal are not above one another. *)

Lemma SFcompare_antisym (x y : spec_float) :
  SFcompare y x = match SFcompare x y with
                  | Some c => Some (CompOpp c)
                  | None => None
                  end.
Proof.
  destruct x as [sx|sx| |sx mx ex], y as [sy|sy| |sy my ey]; cbn;
    try reflexivity;
    try (destruct sx; reflexivity); try (destruct sy; reflexivity);
    try (destruct sx, sy; reflexivity).
  destruct sx, sy; try reflexivity;
    rewrite (Z.compare_antisym ex ey);
    destruct (ex ?= ey)%Z; cbn [CompOpp]; try reflexivity;
    pose proof (Pos.compare_cont_antisym mx my Eq) as Hanti;
    cbn [CompOpp] in Hanti; rewrite <- Hanti, ?CompOpp_involutive; reflexivity.
Qed.

Lemma gt_asym (a b : float) : gt a b = true -> gt b a = false.
Proof.
  unfold gt. rewrite !FloatAxioms.ltb_spec. unfold SFltb.
  rewrite (SFcompare_antisym (Prim2SF b) (Prim2SF a)).
  destruct (SFcompare (Prim2SF b) (Prim2SF a)) as [[]|]; cbn; congruence.
Qed.



(** Emitting and tracker bookkeeping leave the database alone. *)
Lemma db_emitToUser w u e : db (emitToUser w u e) = db w.
Proof. unfold emitToUser. destruct (io w); reflexivity. Qed.

Lemma io_emitToUser w u e : io (emitToUser w u e) = io w.
Proof. unfold emitToUser. destruct (io w) eqn:E; simpl; congruence. Qed.

Lemma db_clearMatch w a b : db (clearMatch w a b) = db w.
Proof. reflexivity. Qed.

Lemma emitted_emitToUser w u e sockets :
  io w = Some sockets ->
  emitted (emitToUser w u e) = emitted w ++ deliveries sockets u e.
Proof. intros H. unfold emitToUser. rewrite H. reflexivity. Qed.

Lemma emitted_emitToUser_offline w u e :
  io w = None -> emitted (emitToUser w u e) = emitted w.
Proof. intros H. unfold emitToUser. rewrite H. reflexivity. Qed.

(** *** Finalization, once the match and both rankings are found *)

Section Finalize.
Variables (w : World) (matchId : string) (now : Z).
Variables (m : PvPMatch) (p1Ranking p2Ranking : PvPRanking).
Hypothesis Hmatch : getMatch (db w) matchId = Some m.
Hypothesis Hrank1 : getRanking (db w) (player1Id m) = Some p1Ranking.
Hypothesis Hrank2 : getRanking (db w) (player2Id m) = Some p2Ranking.

Local Abbreviation winnerId' := (fst <$> selectWinner m).
Local Abbreviation winnerName' := (snd <$> selectWinner m).
Local Abbreviation p1EloChange :=
  (Elo.calculateEloChange (IZR (Ranking.elo p1Ranking)) (IZR (Ranking.elo p2Ranking))
     (resultOf winnerId' (player1Id m) (player2Id m))).
Local Abbreviation p2EloChange :=
  (Elo.calculateEloChange (IZR (Ranking.elo p2Ranking)) (IZR (Ranking.elo p1Ranking))
     (resultOf winnerId' (player2Id m) (player1Id m))).

Lemma finalizeMatch_db :
  db (finalizeMatch w matchId now) =
  updateMatch
    (updateRanking
       (updateRanking (db w) (player1Id m)
          (rankingUpdate winnerId' (player1Id m) p1Ranking p1EloChange now) now)
       (player2Id m)
       (rankingUpdate winnerId' (player2Id m) p2Ranking p2EloChange now) now)
    matchId
    (set_result winnerId' winnerName' p1EloChange p2EloChange (durationOf m) now).
Proof.
  unfold finalizeMatch. rewrite Hmatch.
  change (db (with_activeMatches w (delete matchId (activeMatches w)))) with (db w).
  rewrite Hrank1, Hrank2.
  cbv zeta. rewrite db_clearMatch, !db_emitToUser. reflexivity.
Qed.

Lemma finalizeMatch_match :
  getMatch (db (finalizeMatch w matchId now)) matchId =
  Some (set_result winnerId' winnerName' p1EloChange p2EloChange
                   (durationOf m) now m).
Proof.
  rewrite finalizeMatch_db. unfold getMatch, updateMatch, updateRanking.
  cbn [pvp_matches]. rewrite lookup_alter_eq.
  unfold getMatch in Hmatch. rewrite Hmatch. reflexivity.
Qed.

Lemma finalizeMatch_ranking2 :
  getRanking (db (finalizeMatch w matchId now)) (player2Id m) =
  Some (Ranking.mk (Ranking.userId p2Ranking) (Ranking.username p2Ranking)
          (Ranking.elo p2Ranking + p2EloChange)
          (if is_id winnerId' (player2Id m)
           then Ranking.wins p2Ranking + 1 else Ranking.wins p2Ranking)
          (if negb (is_id winnerId' (player2Id m)) && bool_decide (winnerId' <> None)
           then Ranking.losses p2Ranking + 1 else Ranking.losses p2Ranking)
          (Ranking.matches p2Ranking + 1)
          (Some now) (Ranking.createdAt p2Ranking) now)%Z.
Proof.
  rewrite finalizeMatch_db. unfold getRanking, updateMatch, updateRanking.
  cbn [pvp_rankings]. rewrite lookup_alter_eq.
  unfold getRanking in Hrank1, Hrank2.
  destruct (decide (player1Id m = player2Id m)) as [Heq | Hne].
  - rewrite <- Heq at 1. rewrite lookup_alter_eq, Hrank1.
    rewrite Heq, Hrank2 in Hrank1. injection Hrank1 as ->. reflexivity.
  - rewrite lookup_alter_ne by exact Hne. rewrite Hrank2. reflexivity.
Qed.

Lemma finalizeMatch_ranking1 :
  player1Id m <> player2Id m ->
  getRanking (db (finalizeMatch w matchId now)) (player1Id m) =
  Some (Ranking.mk (Ranking.userId p1Ranking) (Ranking.username p1Ranking)
          (Ranking.elo p1Ranking + p1EloChange)
          (if is_id winnerId' (player1Id m)
           then Ranking.wins p1Ranking + 1 else Ranking.wins p1Ranking)
          (if negb (is_id winnerId' (player1Id m)) && bool_decide (winnerId' <> None)
           then Ranking.losses p1Ranking + 1 else Ranking.losses p1Ranking)
          (Ranking.matches p1Ranking + 1)
          (Some now) (Ranking.createdAt p1Ranking) now)%Z.
Proof.
  intros Hne.
  rewrite finalizeMatch_db. unfold getRanking, updateMatch, updateRanking.
  cbn [pvp_rankings].
  rewrite lookup_alter_ne by congruence. rewrite lookup_alter_eq.
  unfold getRanking in Hrank1. rewrite Hrank1. reflexivity.
Qed.

End Finalize.

(** *** Winner selection *)

Lemma selectWinner_player1 (m : PvPMatch) :
  gt (weightedScore (player1Wpm m) (player1Accuracy m))
     (weightedScore (player2Wpm m) (player2Accuracy m)) = true ->
  selectWinner m = Some (player1Id m, player1Username m).
Proof. intros H. unfold selectWinner. rewrite H. reflexivity. Qed.

Lemma selectWinner_player2 (m : PvPMatch) :
  gt (weightedScore (player2Wpm m) (player2Accuracy m))
     (weightedScore (player1Wpm m) (player1Accuracy m)) = true ->
  selectWinner m = Some (player2Id m, player2Username m).
Proof.
  intros H. unfold selectWinner. rewrite (gt_asym _ _ H), H. reflexivity.
Qed.


#[local] Set Warnings "-inexact-float".




#[local] Set Warnings "inexact-float".

(** *** Elo deltas *)

Lemma selectWinner_cases (m : PvPMatch) :
  fst <$> selectWinner m = Some (player1Id m) \/
  fst <$> selectWinner m = Some (player2Id m) \/
  fst <$> selectWinner m = None.
Proof.
  unfold selectWinner.
  destruct (gt _ _); [left; reflexivity|].
  destruct (gt _ _); [right; left; reflexivity | right; right; reflexivity].
Qed.

Lemma is_id_same (id : string) : is_id (Some id) id = true.
Proof. unfold is_id. apply bool_decide_eq_true. reflexivity. Qed.

Lemma is_id_other (a b : string) : a <> b -> is_id (Some a) b = false.
Proof. intros H. unfold is_id. apply bool_decide_eq_false. congruence. Qed.

Lemma is_id_None (id : string) : is_id None id = false.
Proof. reflexivity. Qed.

Lemma resultOf_complement (winnerId : option string) (p1 p2 : string) :
  p1 <> p2 ->
  winnerId = Some p1 \/ winnerId = Some p2 \/ winnerId = None ->
  (resultOf winnerId p1 p2 = 0 \/ resultOf winnerId p1 p2 = / 2 \/
   resultOf winnerId p1 p2 = 1)%R /\
  resultOf winnerId p2 p1 = (1 - resultOf winnerId p1 p2)%R.
Proof.
  intros Hne [-> | [-> | ->]]; unfold resultOf.
  - rewrite is_id_same, (is_id_other p1 p2) by congruence.
    split; [auto | lra].
  - rewrite is_id_same, (is_id_other p2 p1) by congruence.
    split; [auto | lra].
  - rewrite !is_id_None. split; [auto | lra].
Qed.

(** C4. For a finalized match the two deltas, computed from the ratings
    read at finalization as [calculateEloChange (p1.elo, p2.elo, r)] and
    [calculateEloChange (p2.elo, p1.elo, 1 - r)], are negatives of each
    other: they sum to zero. *)
Theorem finalizeMatch_elo_deltas_sum_to_zero
    (w : World) (matchId : string) (now : Z)
    (m : PvPMatch) (p1Ranking p2Ranking : PvPRanking) :
  getMatch (db w) matchId = Some m ->
  getRanking (db w) (player1Id m) = Some p1Ranking ->
  getRanking (db w) (player2Id m) = Some p2Ranking ->
  player1Id m <> player2Id m ->
  exists (m' : PvPMatch) (r : R),
    getMatch (db (finalizeMatch w matchId now)) matchId = Some m' /\
    (r = 0 \/ r = / 2 \/ r = 1)%R /\
    player1EloChange m' =
      Elo.calculateEloChange (IZR (Ranking.elo p1Ranking))
                             (IZR (Ranking.elo p2Ranking)) r /\
    player2EloChange m' =
      Elo.calculateEloChange (IZR (Ranking.elo p2Ranking))
                             (IZR (Ranking.elo p1Ranking)) (1 - r) /\
    player2EloChange m' = (- player1EloChange m')%Z /\
    (player1EloChange m' + player2EloChange m' = 0)%Z.
Proof.
  intros Hm H1 H2 Hne.
  pose proof (finalizeMatch_match w matchId now m p1Ranking p2Ranking Hm H1 H2) as Hm'.
  destruct (resultOf_complement (fst <$> selectWinner m) (player1Id m) (player2Id m)
              Hne (selectWinner_cases m)) as [Hr Hcompl].
  eexists _, (resultOf (fst <$> selectWinner m) (player1Id m) (player2Id m)).
  split; [exact Hm'|]. split; [exact Hr|].
  cbn [player1EloChange player2EloChange set_result].
  rewrite Hcompl.
  pose proof (EloFacts.calculateEloChange_antisymmetric
                (Ranking.elo p1Ranking) (Ranking.elo p2Ranking) _ Hr) as Hanti.
  split; [reflexivity|]. split; [reflexivity|]. split; [exact Hanti|].
  rewrite Hanti. lia.
Qed.

Lemma finalizeMatch_elo_deltas_sum_to_zero_witness :
  exists m' : PvPMatch,
    getMatch (db (finalizeMatch (Sample.world 1000) "m1" 60000)) "m1" = Some m' /\
    (player1EloChange m' + player2EloChange m' = 0)%Z.
Proof.
  destruct (finalizeMatch_elo_deltas_sum_to_zero
              (Sample.world 1000) "m1" 60000 Sample.m1
              (Sample.ranking "alice" "Alice" 1000)
              (Sample.ranking "bob" "Bob" 1000)
              eq_refl eq_refl eq_refl ltac:(discriminate))
    as (m' & r & Hm & _ & _ & _ & _ & Hsum).
  exists m'. split; [exact Hm | exact Hsum].
Defined.

(** Scenario S1 of the spec: equal ratings, alice wins: +16 and -16. *)
Lemma finalizeMatch_S1_deltas :
  exists m' : PvPMatch,
    getMatch (db (finalizeMatch (Sample.world 1000) "m1" 60000)) "m1" = Some m' /\
    winnerId m' = Some "alice" /\
    player1EloChange m' = 16%Z /\ player2EloChange m' = (-16)%Z.
Proof.
  eexists. split.
  - apply (finalizeMatch_match (Sample.world 1000) "m1" 60000 Sample.m1
             (Sample.ranking "alice" "Alice" 1000)
             (Sample.ranking "bob" "Bob" 1000)); reflexivity.
  - cbn [winnerId player1EloChange player2EloChange set_result].
    change (selectWinner Sample.m1) with (Some ("alice", "Alice")).
    split; [reflexivity|]. unfold resultOf.
    change (is_id (fst <$> Some ("alice", "Alice")) (player1Id Sample.m1)) with true.
    change (is_id (fst <$> Some ("alice", "Alice")) (player2Id Sample.m1)) with false.
    cbn [Sample.ranking Ranking.elo].
    split.
    + apply EloFacts.calculateEloChange_equal_win.
    + apply EloFacts.calculateEloChange_equal_loss.
Qed.

(** *** Rating application *)

(** The sibling helper of the Elo module does floor at zero. *)
Lemma calculateNewRating_floor (currentRating opponentRating result : R) :
  (0 <= Elo.calculateNewRating currentRating opponentRating result)%Z.
Proof. unfold Elo.calculateNewRating. lia. Qed.

Lemma calculateNewRating_low_loss : Elo.calculateNewRating 10 10 0 = 0%Z.
Proof.
  unfold Elo.calculateNewRating.
  rewrite EloFacts.calculateEloChange_equal_loss.
  replace (10 + IZR (-16))%R with (IZR (-6)) by lra.
  rewrite EloFacts.Math_round_IZR. reflexivity.
Qed.

(** C2, the code at a failing input.  Two players rated 10: the loser's
    persisted rating is [10 + (-16) = -6]; [finalizeMatch] writes
    [old + delta] without the floor that [calculateNewRating] applies and
    that the claim asks for ([max 0 (old + delta) = 0]). *)
Theorem finalizeMatch_persists_negative_elo :
  exists r2 : PvPRanking,
    getRanking (db (finalizeMatch (Sample.world 10) "m1" 60000)) "bob" = Some r2 /\
    Ranking.elo r2 = (-6)%Z /\
    Z.max 0 (10 + Elo.calculateEloChange 10 10 0) = 0%Z /\
    Elo.calculateNewRating 10 10 0 = 0%Z.
Proof.
  eexists. split.
  - apply (finalizeMatch_ranking2 (Sample.world 10) "m1" 60000 Sample.m1
             (Sample.ranking "alice" "Alice" 10)
             (Sample.ranking "bob" "Bob" 10)); reflexivity.
  - cbn [Ranking.elo].
    change (selectWinner Sample.m1) with (Some ("alice", "Alice")).
    unfold resultOf.
    change (is_id (fst <$> Some ("alice", "Alice")) (player2Id Sample.m1)) with false.
    change (is_id (fst <$> Some ("alice", "Alice")) (player1Id Sample.m1)) with true.
    cbn [Sample.ranking Ranking.elo].
    rewrite !EloFacts.calculateEloChange_equal_loss.
    split; [reflexivity|]. split; [reflexivity|].
    apply calculateNewRating_low_loss.
Qed.

(** *** Match duration *)

(** A match that is still to be completed has no [completedAt]; the
    duration written at finalization is then the constant 60, whatever the
    clock says. *)
Lemma finalizeMatch_duration_of_open_match
    (w : World) (matchId : string) (now : Z)
    (m : PvPMatch) (p1Ranking p2Ranking : PvPRanking) :
  getMatch (db w) matchId = Some m ->
  getRanking (db w) (player1Id m) = Some p1Ranking ->
  getRanking (db w) (player2Id m) = Some p2Ranking ->
  completedAt m = None ->
  exists m' : PvPMatch,
    getMatch (db (finalizeMatch w matchId now)) matchId = Some m' /\
    matchDuration m' = 60%Z /\ completedAt m' = Some now /\
    status m' = completed.
Proof.
  intros Hm H1 H2 Hopen.
  eexists. split.
  - apply (finalizeMatch_match w matchId now m p1Ranking p2Ranking Hm H1 H2).
  - cbn [matchDuration completedAt status set_result].
    unfold durationOf. rewrite Hopen. auto.
Qed.

(** C6, the code at a failing input.  The match was created at time 0 and
    is finalized 45 seconds later: the persisted [matchDuration] is 60,
    while [floor ((completedAt - createdAt) / 1000)] is 45. *)
Theorem finalizeMatch_duration_ignores_clock :
  exists m' : PvPMatch,
    getMatch (db (finalizeMatch (Sample.world 1000) "m1" 45000)) "m1" = Some m' /\
    completedAt m' = Some 45000%Z /\
    createdAt m' = 0%Z /\
    matchDuration m' = 60%Z /\
    ((45000 - 0) / 1000 = 45)%Z.
Proof.
  eexists. split.
  - apply (finalizeMatch_match (Sample.world 1000) "m1" 45000 Sample.m1
             (Sample.ranking "alice" "Alice" 1000)
             (Sample.ranking "bob" "Bob" 1000)); reflexivity.
  - cbn [matchDuration completedAt createdAt set_result].
    repeat split; reflexivity.
Qed.

(** *** Progress fan-out *)

Lemma In_deliveries (sockets : list Socket) (userId : string)
    (event : ServerEvent) (s : Socket) (e : ServerEvent) :
  In (s, e) (deliveries sockets userId event) <->
  In s sockets /\ socket_userId s = userId /\ e = event.
Proof.
  unfold deliveries. rewrite in_map_iff. split.
  - intros (s' & Heq & Hin). injection Heq as -> ->.
    apply filter_In in Hin as [Hin Hb].
    apply bool_decide_eq_true in Hb. auto.
  - intros (Hin & Hu & ->). exists s. split; [reflexivity|].
    apply filter_In. split; [exact Hin|].
    apply bool_decide_eq_true. exact Hu.
Qed.

(** Between two different players: a progress event of one of them
    produces [opponent_progress] emissions for the other player only: every
    new emission goes to a socket of the opponent, never to one of the
    sender, and carries the sender's wpm and accuracy; every connected
    socket of the opponent gets it. *)
Lemma handleProgressUpdate_between_two_players
    (w : World) (matchId userId : string) (wpm accuracy : float) (now : Z)
    (m : PvPMatch) :
  getMatch (db w) matchId = Some m ->
  status m = active ->
  player1Id m <> player2Id m ->
  userId = player1Id m \/ userId = player2Id m ->
  exists (opponentId : string) (new : list (Socket * ServerEvent)),
    (userId = player1Id m /\ opponentId = player2Id m \/
     userId = player2Id m /\ opponentId = player1Id m) /\
    opponentId <> userId /\
    emitted (handleProgressUpdate w matchId userId wpm accuracy now) =
      emitted w ++ new /\
    (forall s e, In (s, e) new ->
       socket_userId s = opponentId /\ socket_userId s <> userId /\
       e = opponent_progress matchId wpm accuracy now) /\
    (forall sockets s, io w = Some sockets -> In s sockets ->
       socket_userId s = opponentId ->
       In (s, opponent_progress matchId wpm accuracy now) new).
Proof.
  intros Hm Hact Hne Hparty.
  set (opponentId := if bool_decide (userId = player1Id m)
                     then player2Id m else player1Id m).
  assert (Hopp : (userId = player1Id m /\ opponentId = player2Id m \/
                  userId = player2Id m /\ opponentId = player1Id m) /\
                 opponentId <> userId).
  { unfold opponentId. destruct Hparty as [-> | ->].
    - rewrite bool_decide_eq_true_2 by reflexivity. split; [auto | congruence].
    - rewrite bool_decide_eq_false_2 by congruence. split; [auto | congruence]. }
  destruct Hopp as [Hopp Hdiff].
  assert (Hrun : handleProgressUpdate w matchId userId wpm accuracy now =
    emitToUser
      (with_db (updateProgress w userId wpm accuracy now)
         (storeStats (db w) m matchId userId wpm accuracy))
      opponentId (opponent_progress matchId wpm accuracy now)).
  { unfold handleProgressUpdate. rewrite Hm.
    rewrite (bool_decide_eq_true_2 _ Hact). reflexivity. }
  exists opponentId.
  destruct (io w) as [sockets|] eqn:Hio.
  - exists (deliveries sockets opponentId (opponent_progress matchId wpm accuracy now)).
    split; [exact Hopp|]. split; [exact Hdiff|]. split; [|split].
    + rewrite Hrun.
      rewrite (emitted_emitToUser _ _ _ sockets) by exact Hio. reflexivity.
    + intros s e Hin. apply In_deliveries in Hin as (_ & Hu & He).
      split; [exact Hu|]. split; [congruence | exact He].
    + intros sockets' s [= <-] Hin Hu. apply In_deliveries. auto.
  - exists []. split; [exact Hopp|]. split; [exact Hdiff|]. split; [|split].
    + rewrite Hrun, app_nil_r.
      rewrite emitted_emitToUser_offline by exact Hio. reflexivity.
    + intros s e [].
    + intros sockets s Hs. discriminate Hs.
Qed.

Example handleProgressUpdate_sample :
  emitted (handleProgressUpdate (Sample.world 1000) "m1" "alice" 80 95 10000) =
  [(mkSocket "s2" "bob", opponent_progress "m1" 80 95 10000)].
Proof. reflexivity. Qed.

(** C8, the code at two failing inputs.  The recipient is computed as
    [userId === match.player1Id ? match.player2Id : match.player1Id], with
    no test that the sender plays in the match, although the update of the
    match record just above does test both slots.
    - carol, who plays in neither slot of the match of alice and bob,
      sends progress for it: nothing is stored in the match, but
      [opponent_progress] with carol's numbers goes to alice, who is not
      carol's opponent.
    - bob has been paired with himself (the state [self_matched], reached
      through a failed match creation): his progress goes to his own
      socket, that is, to the sender. *)
Theorem handleProgressUpdate_reaches_non_opponents :
  (getMatch (db (Sample.world 1000)) "m1" = Some Sample.m1 /\
   status Sample.m1 = active /\
   player1Id Sample.m1 = "alice" /\ player2Id Sample.m1 = "bob" /\
   getMatch (db (handleProgressUpdate (Sample.world 1000) "m1" "carol" 55 90 10000))
     "m1" = Some Sample.m1 /\
   emitted (handleProgressUpdate (Sample.world 1000) "m1" "carol" 55 90 10000) =
     [(mkSocket "s1" "alice", opponent_progress "m1" 55 90 10000)]) /\
  (let w := QueueService.world SampleQueue.self_matched in
   QueueService.reachable SampleQueue.self_matched /\
   getMatch (db w) "m3" =
     Some (Match.mk "m3" "bob" "Bob" "bob" "Bob" 0 0 0 0 None None 0 0 0
                    active 5000 None) /\
   emitted (handleProgressUpdate w "m3" "bob" 60 90 10000) =
     emitted w ++ [(mkSocket "s2" "bob", opponent_progress "m3" 60 90 10000)]).
Proof.
  split.
  - repeat split; vm_compute; reflexivity.
  - cbv zeta. split; [|split; vm_compute; reflexivity].
    exists (Sample.world 1000). eexists. unfold SampleQueue.self_matched,
      SampleQueue.rejoined_then_failed, QueueService.run.
    rewrite <- fold_left_app. reflexivity.
Qed.

(** *** Completion barrier *)

Lemma getMatch_storeStats (d : Db) (m : PvPMatch) (matchId userId : string)
    (wpm accuracy : float) :
  getMatch d matchId = Some m ->
  getMatch (storeStats d m matchId userId wpm accuracy) matchId =
  Some (if bool_decide (userId = player1Id m) then set_player1_stats wpm accuracy m
        else if bool_decide (userId = player2Id m) then set_player2_stats wpm accuracy m
        else m).
Proof.
  intros Hm. unfold storeStats, getMatch in *.
  destruct (bool_decide (userId = player1Id m)).
  - cbn. rewrite lookup_alter_eq, Hm. reflexivity.
  - destruct (bool_decide (userId = player2Id m)).
    + cbn. rewrite lookup_alter_eq, Hm. reflexivity.
    + exact Hm.
Qed.

Lemma bothCompleted_spec (m : PvPMatch) :
  bothCompleted m = true <->
  gt (player1Wpm m) 0 = true /\ gt (player2Wpm m) 0 = true.
Proof. unfold bothCompleted. apply andb_true_iff. Qed.

Lemma handleMatchTimeout_completes (w : World) (matchId : string) (now : Z)
    (m : PvPMatch) :
  getMatch (db w) matchId = Some m ->
  status m = active ->
  exists m' : PvPMatch,
    getMatch (db (handleMatchTimeout w matchId now)) matchId = Some m' /\
    status m' = completed /\ completedAt m' = Some now.
Proof.
  intros Hm Hact. unfold handleMatchTimeout. rewrite Hm.
  rewrite (bool_decide_eq_true_2 _ Hact). cbn [negb].
  cbv zeta. rewrite db_clearMatch, !db_emitToUser.
  exists (set_timed_out now m). split; [|split; reflexivity].
  unfold getMatch, updateMatch in *. cbn. rewrite lookup_alter_eq, Hm. reflexivity.
Qed.

(** A completion for an active match stores the sender's stats and then
    tests the barrier on the match as it is stored. *)
Lemma handleMatchComplete_active
    (w : World) (matchId userId : string) (finalWpm finalAccuracy : float)
    (now : Z) (m : PvPMatch) :
  getMatch (db w) matchId = Some m ->
  status m = active ->
  let stored :=
    with_db w (storeStats (db w) m matchId userId finalWpm finalAccuracy) in
  let updatedMatch :=
    if bool_decide (userId = player1Id m)
    then set_player1_stats finalWpm finalAccuracy m
    else if bool_decide (userId = player2Id m)
         then set_player2_stats finalWpm finalAccuracy m
         else m in
  getMatch (db stored) matchId = Some updatedMatch /\
  status updatedMatch = active /\
  handleMatchComplete w matchId userId finalWpm finalAccuracy now =
    if bothCompleted updatedMatch then finalizeMatch stored matchId now else stored.
Proof.
  intros Hm Hact stored updatedMatch.
  pose proof (getMatch_storeStats (db w) m matchId userId finalWpm finalAccuracy Hm)
    as Hstored.
  split; [exact Hstored|]. split.
  - unfold updatedMatch. repeat case_bool_decide; exact Hact.
  - unfold handleMatchComplete. rewrite Hm.
    rewrite (bool_decide_eq_true_2 _ Hact). cbn [negb]. cbv zeta.
    change (db (with_db w (storeStats (db w) m matchId userId finalWpm finalAccuracy)))
      with (storeStats (db w) m matchId userId finalWpm finalAccuracy).
    rewrite Hstored. reflexivity.
Qed.

(** C10. The completion barrier looks at wpm alone.  Once the sender's
    final stats are stored, [finalizeMatch] is called exactly when both
    stored wpm values are strictly positive; the stored wpm values, and so
    the decision, do not depend on any reported accuracy; a player who
    reports a final wpm that is not above 0 does not release the barrier
    and the match stays active.  It can then end by the timeout, and as
    well by any later completion after which both stored wpm values are
    positive. *)
Theorem handleMatchComplete_barrier_is_wpm_only
    (w : World) (matchId userId : string) (finalWpm finalAccuracy : float)
    (now : Z) (m : PvPMatch) :
  getMatch (db w) matchId = Some m ->
  status m = active ->
  let stored :=
    with_db w (storeStats (db w) m matchId userId finalWpm finalAccuracy) in
  exists updatedMatch : PvPMatch,
    getMatch (db stored) matchId = Some updatedMatch /\
    status updatedMatch = active /\
    player1Wpm updatedMatch =
      (if bool_decide (userId = player1Id m) then finalWpm else player1Wpm m) /\
    player2Wpm updatedMatch =
      (if bool_decide (userId = player1Id m) then player2Wpm m
       else if bool_decide (userId = player2Id m) then finalWpm
       else player2Wpm m) /\
    (gt (player1Wpm updatedMatch) 0 = true /\
     gt (player2Wpm updatedMatch) 0 = true ->
     handleMatchComplete w matchId userId finalWpm finalAccuracy now =
     finalizeMatch stored matchId now) /\
    (~ (gt (player1Wpm updatedMatch) 0 = true /\
        gt (player2Wpm updatedMatch) 0 = true) ->
     handleMatchComplete w matchId userId finalWpm finalAccuracy now = stored) /\
    (forall (accuracy' : float) (updatedMatch' : PvPMatch),
       getMatch (storeStats (db w) m matchId userId finalWpm accuracy') matchId
         = Some updatedMatch' ->
       bothCompleted updatedMatch' = bothCompleted updatedMatch) /\
    (userId = player1Id m \/ userId = player2Id m ->
     gt finalWpm 0 = false ->
     handleMatchComplete w matchId userId finalWpm finalAccuracy now = stored) /\
    (forall later : Z,
       exists m' : PvPMatch,
         getMatch (db (handleMatchTimeout stored matchId later)) matchId = Some m' /\
         status m' = completed) /\
    (forall (userId' : string) (wpm' accuracy' : float) (later : Z)
            (updatedMatch' : PvPMatch),
       let stored' :=
         with_db stored
           (storeStats (db stored) updatedMatch matchId userId' wpm' accuracy') in
       getMatch (db stored') matchId = Some updatedMatch' ->
       gt (player1Wpm updatedMatch') 0 = true ->
       gt (player2Wpm updatedMatch') 0 = true ->
       handleMatchComplete stored matchId userId' wpm' accuracy' later =
       finalizeMatch stored' matchId later).
Proof.
  intros Hm Hact stored.
  destruct (handleMatchComplete_active w matchId userId finalWpm finalAccuracy now m
              Hm Hact) as (Hstored & Hst & Hrun).
  fold stored in Hstored, Hrun.
  set (updatedMatch :=
         if bool_decide (userId = player1Id m)
         then set_player1_stats finalWpm finalAccuracy m
         else if bool_decide (userId = player2Id m)
              then set_player2_stats finalWpm finalAccuracy m
              else m) in *.
  assert (Hw1 : player1Wpm updatedMatch =
                if bool_decide (userId = player1Id m) then finalWpm else player1Wpm m).
  { unfold updatedMatch. repeat case_bool_decide; reflexivity. }
  assert (Hw2 : player2Wpm updatedMatch =
                if bool_decide (userId = player1Id m) then player2Wpm m
                else if bool_decide (userId = player2Id m) then finalWpm
                     else player2Wpm m).
  { unfold updatedMatch. repeat case_bool_decide; reflexivity. }
  assert (Hno : ~ (gt (player1Wpm updatedMatch) 0 = true /\
                   gt (player2Wpm updatedMatch) 0 = true) ->
                handleMatchComplete w matchId userId finalWpm finalAccuracy now = stored).
  { intros Hn. rewrite Hrun.
    destruct (bothCompleted updatedMatch) eqn:Hb; [|reflexivity].
    exfalso. apply Hn. apply bothCompleted_spec. exact Hb. }
  exists updatedMatch.
  split; [exact Hstored|]. split; [exact Hst|]. split; [exact Hw1|].
  split; [exact Hw2|]. split; [|split; [exact Hno|split; [|split; [|split]]]].
  - intros Hboth. rewrite Hrun.
    apply bothCompleted_spec in Hboth. rewrite Hboth. reflexivity.
  - intros accuracy' updatedMatch' Hget.
    rewrite (getMatch_storeStats (db w) m matchId userId finalWpm accuracy' Hm) in Hget.
    injection Hget as <-. unfold updatedMatch, bothCompleted.
    repeat case_bool_decide; reflexivity.
  - intros Hparty Hzero. apply Hno. intros [Hp1 Hp2].
    rewrite Hw1 in Hp1. rewrite Hw2 in Hp2.
    destruct Hparty as [Hu | Hu].
    + rewrite (bool_decide_eq_true_2 _ Hu) in Hp1. congruence.
    + rewrite (bool_decide_eq_true_2 _ Hu) in Hp2.
      destruct (bool_decide (userId = player1Id m)) eqn:E; congruence.
  - intros later.
    destruct (handleMatchTimeout_completes stored matchId later updatedMatch
                Hstored Hst) as (m' & Hget & Hs & _).
    exists m'. auto.
  - intros userId' wpm' accuracy' later updatedMatch' stored' Hget Hp1 Hp2.
    destruct (handleMatchComplete_active stored matchId userId' wpm' accuracy' later
                updatedMatch Hstored Hst) as (Hstored' & _ & Hrun').
    fold stored' in Hstored', Hrun'.
    rewrite Hget in Hstored'. injection Hstored' as Heq.
    rewrite Hrun', <- Heq.
    rewrite (proj2 (bothCompleted_spec updatedMatch') (conj Hp1 Hp2)). reflexivity.
Qed.

Lemma handleMatchComplete_barrier_is_wpm_only_witness :
  handleMatchComplete (Sample.world 1000) "m1" "bob" 0 100 60000 =
  with_db (Sample.world 1000)
          (storeStats (db (Sample.world 1000)) Sample.m1 "m1" "bob" 0 100).
Proof.
  destruct (handleMatchComplete_barrier_is_wpm_only
              (Sample.world 1000) "m1" "bob" 0 100 60000 Sample.m1
              eq_refl eq_refl)
    as (updatedMatch & _ & _ & _ & _ & _ & _ & _ & Hzero & _).
  apply Hzero; [right; reflexivity | reflexivity].
Defined.

(** C10 as it is worded fails: a final wpm of 0 does not leave the
    timeout as the only way out.  bob completes with 0 wpm at 100% while
    alice's 80 wpm are stored: the match stays active.
    - bob completes once more, with 70 wpm: the match is finalized on the
      spot, at 61000 ms, and no timer has fired;
    - or bob sends a progress update with 70 wpm and alice then completes:
      the match is finalized as well. *)
Lemma zero_wpm_completion_is_not_final :
  let w1 := handleMatchComplete (Sample.world 1000) "m1" "bob" 0 100 60000 in
  (exists m1 : PvPMatch,
     getMatch (db w1) "m1" = Some m1 /\ status m1 = active /\
     player1Wpm m1 = 80%float /\ player2Wpm m1 = 0%float) /\
  (exists m2 : PvPMatch,
     getMatch (db (handleMatchComplete w1 "m1" "bob" 70 97 61000)) "m1" = Some m2 /\
     status m2 = completed /\ completedAt m2 = Some 61000%Z) /\
  (exists m3 : PvPMatch,
     getMatch (db (handleMatchComplete
                     (handleProgressUpdate w1 "m1" "bob" 70 97 61000)
                     "m1" "alice" 80 95 62000)) "m1" = Some m3 /\
     status m3 = completed /\ completedAt m3 = Some 62000%Z).
Proof.
  cbv zeta.
  set (w1 := handleMatchComplete (Sample.world 1000) "m1" "bob" 0 100 60000).
  assert (Hw1 : w1 = with_db (Sample.world 1000)
                       (storeStats (db (Sample.world 1000)) Sample.m1 "m1" "bob" 0 100))
    by reflexivity.
  split; [|split].
  - eexists. split; [rewrite Hw1; vm_compute; reflexivity|].
    repeat split; reflexivity.
  - set (stored := with_db w1 (storeStats (db w1) (set_player2_stats 0 100 Sample.m1)
                                 "m1" "bob" 70 97)).
    assert (Hrun : handleMatchComplete w1 "m1" "bob" 70 97 61000 =
                   finalizeMatch stored "m1" 61000) by (rewrite Hw1; reflexivity).
    rewrite Hrun. eexists. split.
    + apply (finalizeMatch_match stored "m1" 61000 (set_player2_stats 70 97 Sample.m1)
               (Sample.ranking "alice" "Alice" 1000)
               (Sample.ranking "bob" "Bob" 1000));
        unfold stored; rewrite Hw1; vm_compute; reflexivity.
    + split; reflexivity.
  - set (w2 := handleProgressUpdate w1 "m1" "bob" 70 97 61000).
    set (stored := with_db w2 (storeStats (db w2) (set_player2_stats 70 97 Sample.m1)
                                 "m1" "alice" 80 95)).
    assert (Hrun : handleMatchComplete w2 "m1" "alice" 80 95 62000 =
                   finalizeMatch stored "m1" 62000)
      by (unfold stored, w2; rewrite Hw1; reflexivity).
    rewrite Hrun. eexists. split.
    + apply (finalizeMatch_match stored "m1" 62000 (set_player2_stats 70 97 Sample.m1)
               (Sample.ranking "alice" "Alice" 1000)
               (Sample.ranking "bob" "Bob" 1000));
        unfold stored, w2; rewrite Hw1; vm_compute; reflexivity.
    + split; reflexivity.
Qed.

End MatchFacts.

(** ** Matchmaking queue *)

Module QueueFacts.
Import QueueService.

(** *** Pair-off *)

Lemma tryMatch_pops (q : PvPQueue) (player1 player2 : QueueEntry)
    (rest : list QueueEntry) :
  queue q = player1 :: player2 :: rest ->
  tryMatch q =
  mkQueue rest (userInQueue q ∖ {[userId player1]} ∖ {[userId player2]})
          (creating q ++ [(player1, player2)]) (world q).
Proof. intros H. unfold tryMatch. rewrite H. reflexivity. Qed.

Lemma tryMatch_short (q : PvPQueue) :
  length (queue q) < 2 -> tryMatch q = q.
Proof.
  unfold tryMatch.
  destruct (queue q) as [|a [|b rest]]; cbn [length]; intros; try lia; reflexivity.
Qed.

Lemma tryMatch_length (q : PvPQueue) :
  length (queue (tryMatch q)) =
  if decide (2 <= length (queue q)) then length (queue q) - 2
  else length (queue q).
Proof.
  unfold tryMatch.
  destruct (queue q) as [|a [|b rest]] eqn:E; cbn [queue length];
    rewrite ?E; cbn [length]; destruct (decide _); lia.
Qed.

Lemma tryMatch_world (q : PvPQueue) : world (tryMatch q) = world q.
Proof.
  unfold tryMatch. destruct (queue q) as [|a [|b rest]]; reflexivity.
Qed.

(** *** The queue at rest holds at most one entry *)

Lemma length_delete_le {A} (l : list A) (i : nat) :
  length (delete i l) <= length l.
Proof.
  revert i. induction l as [|x l IH]; intros [|i]; simpl; try lia.
  apply le_n_S. apply IH.
Qed.

Lemma join_at_rest q u n s now : at_rest q -> at_rest (fst (join q u n s now)).
Proof.
  unfold at_rest, join. intros H.
  destruct (bool_decide (u ∈ userInQueue q)); cbn [fst]; [exact H|].
  rewrite tryMatch_length. cbn [queue]. rewrite length_app. cbn [length].
  destruct (decide _); lia.
Qed.

Lemma leave_at_rest q u : at_rest q -> at_rest (fst (leave q u)).
Proof.
  unfold at_rest, leave. intros H.
  destruct (list_find _ _) as [[index e]|]; cbn [fst queue]; [|exact H].
  pose proof (length_delete_le (queue q) index). lia.
Qed.

Lemma cleanupStaleEntries_at_rest q now :
  at_rest q -> at_rest (cleanupStaleEntries q now).
Proof.
  unfold at_rest, cleanupStaleEntries. cbn [queue]. intros H.
  pose proof (List.filter_length_le (fun entry => negb (stale now entry)) (queue q)).
  lia.
Qed.

Lemma settle_at_rest q i matchId now outcome :
  at_rest q -> at_rest (settle q i matchId now outcome).
Proof.
  unfold at_rest, settle. intros H.
  destruct (creating q !! i) as [[player1 player2]|]; [|exact H].
  cbn [world].
  destruct (createMatch _ _ _ _ _ _);
    rewrite tryMatch_length; cbn [queue with_world readd];
    rewrite ?length_app; cbn [length]; destruct (decide _); lia.
Qed.

Lemma step_at_rest q ev : at_rest q -> at_rest (step q ev).
Proof.
  destruct ev; cbn [step].
  - apply join_at_rest.
  - apply leave_at_rest.
  - apply cleanupStaleEntries_at_rest.
  - apply settle_at_rest.
Qed.

Lemma run_at_rest evs : forall q, at_rest q -> at_rest (run q evs).
Proof.
  induction evs as [|ev evs IH]; intros q H; [exact H|].
  cbn. apply IH. apply step_at_rest. exact H.
Qed.

Lemma reachable_at_rest q : reachable q -> at_rest q.
Proof.
  intros (w & evs & ->). apply run_at_rest. unfold at_rest. cbn. lia.
Qed.

Lemma reachable_NoDup q : reachable q -> NoDup (map userId (queue q)).
Proof.
  intros H. apply reachable_at_rest in H. unfold at_rest in H.
  destruct (queue q) as [|a [|b rest]]; cbn in *; try lia.
  - constructor.
  - constructor; [apply not_elem_of_nil | constructor].
Qed.

(** *** Joining *)

Lemma join_present (q : PvPQueue) (userId' username' socketId' : string)
    (now : Z) :
  isInQueue q userId' = true ->
  join q userId' username' socketId' now = (q, getSize q).
Proof.
  unfold isInQueue, join, getSize. intros H. rewrite H. reflexivity.
Qed.

Lemma join_absent (q : PvPQueue) (userId' username' socketId' : string)
    (now : Z) :
  isInQueue q userId' = false ->
  join q userId' username' socketId' now =
  let q' := tryMatch
              (mkQueue (queue q ++ [mkEntry userId' username' socketId' now])
                       (userInQueue q ∪ {[userId']}) (creating q) (world q)) in
  (q', length (queue q')).
Proof.
  unfold isInQueue, join. intros H. rewrite H. reflexivity.
Qed.

(** *** Match creation *)

Lemma ensureRanking_matches (d : Dal.Db) (player : QueueEntry) (now : Z) :
  Dal.pvp_matches (fst (ensureRanking d player now)) = Dal.pvp_matches d.
Proof.
  unfold ensureRanking, Dal.createRanking, Dal.getRanking.
  cbn [Ranking.userId].
  destruct (Dal.pvp_rankings d !! userId player); reflexivity.
Qed.

Lemma createMatch_created (w : World) (player1 player2 : QueueEntry)
    (matchId : string) (now : Z) :
  exists w' : World,
    createMatch w player1 player2 matchId now Created = Resolved w' /\
    Dal.pvp_matches (db w') =
      <[matchId := newMatch matchId player1 player2 now]> (Dal.pvp_matches (db w)).
Proof.
  unfold createMatch.
  pose proof (ensureRanking_matches (db w) player1 now) as H1.
  destruct (ensureRanking (db w) player1 now) as [d1 r1].
  pose proof (ensureRanking_matches d1 player2 now) as H2.
  destruct (ensureRanking d1 player2 now) as [d2 r2].
  cbn [fst] in H1, H2.
  eexists. split; [reflexivity|].
  rewrite !MatchFacts.db_emitToUser. cbn. rewrite H2, H1. reflexivity.
Qed.

Lemma createMatch_rejected (w : World) (player1 player2 : QueueEntry)
    (matchId : string) (now : Z) (outcome : CreateOutcome) :
  outcome <> Created ->
  exists w' : World,
    createMatch w player1 player2 matchId now outcome = Rejected w' /\
    emitted w' = emitted w /\ io w' = io w.
Proof.
  intros Hfail. unfold createMatch.
  destruct outcome; [congruence| | |].
  - eexists; split; [reflexivity | split; reflexivity].
  - destruct (ensureRanking (db w) player1 now) as [d1 r1].
    eexists; split; [reflexivity | split; reflexivity].
  - destruct (ensureRanking (db w) player1 now) as [d1 r1].
    destruct (ensureRanking d1 player2 now) as [d2 r2].
    eexists; split; [reflexivity | split; reflexivity].
Qed.

(** *** Without failed creations the membership set mirrors the queue *)

Lemma settled_cases (q : PvPQueue) :
  settled q ->
  (queue q = [] /\ userInQueue q = ∅) \/
  (exists e, queue q = [e] /\ userInQueue q = {[userId e]}).
Proof.
  unfold settled, at_rest, in_sync. intros [Hlen Hsync].
  destruct (queue q) as [|e [|e' rest]]; cbn in *; try lia.
  - left. auto.
  - right. exists e. split; [reflexivity|]. rewrite Hsync. set_solver.
Qed.

Lemma settled_intro (q : PvPQueue) :
  (queue q = [] /\ userInQueue q = ∅) \/
  (exists e, queue q = [e] /\ userInQueue q = {[userId e]}) ->
  settled q.
Proof.
  unfold settled, at_rest, in_sync.
  intros [[Hq Hs] | (e & Hq & Hs)]; rewrite Hq, Hs; cbn; split; try lia; set_solver.
Qed.

Lemma join_settled q u n s now : settled q -> settled (fst (join q u n s now)).
Proof.
  intros H. unfold join.
  destruct (bool_decide (u ∈ userInQueue q)) eqn:Hin; cbn [fst]; [exact H|].
  apply bool_decide_eq_false in Hin.
  apply settled_intro.
  destruct (settled_cases q H) as [[Hq Hs] | (e & Hq & Hs)];
    unfold tryMatch; cbn [queue]; rewrite Hq; cbn [app queue userInQueue userId].
  - right. eexists. split; [reflexivity|]. rewrite Hs. cbn. set_solver.
  - left. split; [reflexivity|]. rewrite Hs. set_solver.
Qed.

Lemma leave_settled q u : settled q -> settled (fst (leave q u)).
Proof.
  intros H. unfold leave.
  destruct (settled_cases q H) as [[Hq Hs] | (e & Hq & Hs)]; rewrite Hq.
  - cbn. exact H.
  - cbn [list_find]. unfold list_find. cbn.
    destruct (decide (userId e = u)) as [Heq | Hne]; cbn [fst].
    + apply settled_intro. left. cbn [queue userInQueue]. rewrite Hs.
      split; [reflexivity | set_solver].
    + exact H.
Qed.

Lemma cleanupStaleEntries_settled q now :
  settled q -> settled (cleanupStaleEntries q now).
Proof.
  intros H. apply settled_intro. unfold cleanupStaleEntries.
  cbn [queue userInQueue].
  destruct (settled_cases q H) as [[Hq Hs] | (e & Hq & Hs)]; rewrite Hq, Hs.
  - left. cbn. split; [reflexivity | set_solver].
  - cbn [List.filter]. destruct (stale now e); cbn [negb map list_to_set].
    + left. split; [reflexivity | set_solver].
    + right. exists e. split; [reflexivity | set_solver].
Qed.

Lemma settle_created_settled q i matchId now :
  settled q -> settled (settle q i matchId now Created).
Proof.
  intros H. unfold settle.
  destruct (creating q !! i) as [[player1 player2]|]; [|exact H].
  cbn [world].
  destruct (createMatch_created (world q) player1 player2 matchId now)
    as (w' & Hres & _).
  rewrite Hres. rewrite tryMatch_short.
  - destruct H as [H1 H2]. split; [exact H1 | exact H2].
  - destruct H as [H1 _]. unfold at_rest in H1. cbn. lia.
Qed.

Lemma step_settled q ev : no_failure ev -> settled q -> settled (step q ev).
Proof.
  destruct ev; cbn [step no_failure]; intros Hok.
  - apply join_settled.
  - apply leave_settled.
  - apply cleanupStaleEntries_settled.
  - subst outcome. apply settle_created_settled.
Qed.

Lemma run_settled evs :
  forall q, Forall no_failure evs -> settled q -> settled (run q evs).
Proof.
  induction evs as [|ev evs IH]; intros q Hok H; [exact H|].
  apply Forall_cons in Hok as [Hev Hok].
  cbn. apply IH; [exact Hok|]. apply step_settled; assumption.
Qed.

Lemma reachable_without_failure_in_sync q :
  reachable_without_failure q -> in_sync q.
Proof.
  intros (w & evs & Hok & ->).
  apply (run_settled evs (empty_queue w) Hok).
  apply settled_intro. left. auto.
Qed.

Lemma queued_isInQueue q u :
  in_sync q -> In u (map userId (queue q)) -> isInQueue q u = true.
Proof.
  unfold in_sync, isInQueue. intros Hsync Hin.
  apply bool_decide_eq_true. rewrite Hsync.
  apply elem_of_list_to_set. apply list_elem_of_In. exact Hin.
Qed.

(** As long as no match creation fails.  Between two events the queue
    holds no user id twice; [join] for a member of the membership set,
    which is what [isInQueue] and [join] test and which mirrors the queue
    as long as no match creation has failed, changes nothing and returns
    the current size; so joining twice leaves one entry, and when a second
    user joins exactly one pair is popped and one match is created for
    it. *)
Lemma join_twice_without_failure :
  (forall q, reachable q -> NoDup (map userId (queue q))) /\
  (forall q userId' username' socketId' now,
     isInQueue q userId' = true ->
     join q userId' username' socketId' now = (q, getSize q)) /\
  (forall q userId' username' socketId' now,
     reachable_without_failure q ->
     In userId' (map userId (queue q)) ->
     join q userId' username' socketId' now = (q, getSize q)) /\
  (forall w a na sa ta na' sa' ta' b nb sb tb,
     a <> b ->
     exists q1 q3 : PvPQueue,
       join (empty_queue w) a na sa ta = (q1, 1) /\
       queue q1 = [mkEntry a na sa ta] /\
       isInQueue q1 a = true /\
       join q1 a na' sa' ta' = (q1, 1) /\
       join q1 b nb sb tb = (q3, 0) /\
       queue q3 = [] /\
       creating q3 = [(mkEntry a na sa ta, mkEntry b nb sb tb)] /\
       forall matchId now,
         let q4 := settle q3 0 matchId now Created in
         queue q4 = [] /\ creating q4 = [] /\
         Dal.pvp_matches (db (world q4)) =
           <[matchId := newMatch matchId (mkEntry a na sa ta)
                                 (mkEntry b nb sb tb) now]>
             (Dal.pvp_matches (db w))).
Proof.
  split; [exact reachable_NoDup|]. split; [exact join_present|].
  split.
  { intros q u n s now Hreach Hin. apply join_present.
    apply queued_isInQueue; [|exact Hin].
    apply reachable_without_failure_in_sync. exact Hreach. }
  intros w a na sa ta na' sa' ta' b nb sb tb Hab.
  set (eA := mkEntry a na sa ta). set (eB := mkEntry b nb sb tb).
  set (q1 := mkQueue [eA] (∅ ∪ {[a]}) [] w).
  set (q3 := mkQueue [] ((((∅ ∪ {[a]}) ∪ {[b]}) ∖ {[a]}) ∖ {[b]}) [(eA, eB)] w).
  assert (Ha : isInQueue q1 a = true).
  { unfold isInQueue. apply bool_decide_eq_true. cbn. set_solver. }
  exists q1, q3.
  split.
  { rewrite join_absent; [reflexivity|].
    unfold isInQueue. apply bool_decide_eq_false. cbn. set_solver. }
  split; [reflexivity|]. split; [exact Ha|].
  split; [apply (join_present q1 a na' sa' ta' Ha)|].
  split.
  { rewrite join_absent; [reflexivity|].
    unfold isInQueue. apply bool_decide_eq_false. cbn. set_solver. }
  split; [reflexivity|]. split; [reflexivity|].
  intros matchId now q4.
  destruct (createMatch_created w eA eB matchId now) as (w' & Hres & Hdb).
  assert (Hq4 : q4 = mkQueue [] (userInQueue q3) [] w').
  { unfold q4, settle. change (creating q3 !! 0) with (Some (eA, eB)).
    cbv beta iota zeta. change (world (mkQueue _ _ _ (world q3))) with w.
    rewrite Hres. reflexivity. }
  rewrite Hq4. cbn [queue creating world].
  split; [reflexivity|]. split; [reflexivity|]. exact Hdb.
Qed.

(** C7, the code at a failing input.  [join] guards against a second
    entry with the membership set, but after a failed match creation the
    set no longer mirrors the queue.  alice and bob are popped; bob joins
    again while their match is being created; the creation fails.  The
    [catch] block pushes alice and bob back: the queue holds bob twice.
    The loop, which goes on, pops the younger bob and alice and removes
    both ids from the set: the older bob is queued but is no member.  His
    next [join] is not a no-op: a second entry of his is queued, the pair
    (bob, bob) is popped, the call returns 0 and not the size 1, and the
    match that is created has bob on both sides. *)
Theorem join_after_failed_creation_adds_second_entry :
  let q0 := run (empty_queue (Sample.world 1000))
                [Join "alice" "Alice" "s1" 0; Join "bob" "Bob" "s2" 1000;
                 Join "bob" "Bob" "s2" 2000] in
  let q := SampleQueue.rejoined_then_failed in
  let again := mkEntry "bob" "Bob" "s2" 4000 in
  reachable q /\
  q = settle q0 0 "m2" 3000 ThrowsAtInsert /\
  map userId (queue (readd q0 SampleQueue.eA SampleQueue.eB)) =
    ["bob"; "alice"; "bob"] /\
  queue q = [SampleQueue.eB] /\ getSize q = 1 /\
  isInQueue q "bob" = false /\
  snd (join q "bob" "Bob" "s2" 4000) = 0 /\
  queue (fst (join q "bob" "Bob" "s2" 4000)) = [] /\
  creating (fst (join q "bob" "Bob" "s2" 4000)) =
    creating q ++ [(SampleQueue.eB, again)] /\
  SampleQueue.self_matched =
    settle (fst (join q "bob" "Bob" "s2" 4000)) 1 "m3" 5000 Created /\
  Dal.getMatch (db (world SampleQueue.self_matched)) "m3" =
    Some (newMatch "m3" SampleQueue.eB again 5000) /\
  Match.player1Id (newMatch "m3" SampleQueue.eB again 5000) = "bob" /\
  Match.player2Id (newMatch "m3" SampleQueue.eB again 5000) = "bob".
Proof.
  cbv zeta. split.
  { exists (Sample.world 1000). eexists. reflexivity. }
  repeat split; vm_compute; reflexivity.
Qed.

(** *** Failure of a match creation *)

(** What a failed creation does in general: the two popped entries are
    appended at the tail of the queue in their original order, both user
    ids are added to the membership set again, and the failed attempt
    emits nothing; the pair-off loop then goes on: two entries at least are
    queued, so the two at the head are popped for a new attempt. *)
Lemma settle_rejected_readds_at_tail
    (q : PvPQueue) (i : nat) (player1 player2 : QueueEntry)
    (matchId : string) (now : Z) (outcome : CreateOutcome) :
  creating q !! i = Some (player1, player2) ->
  outcome <> Created ->
  exists (w' : World) (next1 next2 : QueueEntry) (rest : list QueueEntry),
    createMatch (world q) player1 player2 matchId now outcome = Rejected w' /\
    emitted w' = emitted (world q) /\
    let readded :=
      readd (mkQueue (queue q) (userInQueue q) (delete i (creating q)) w')
            player1 player2 in
    queue readded = queue q ++ [player1; player2] /\
    userId player1 ∈ userInQueue readded /\
    userId player2 ∈ userInQueue readded /\
    (queue q = [] -> queue readded = [player1; player2]) /\
    settle q i matchId now outcome = tryMatch readded /\
    queue readded = next1 :: next2 :: rest /\
    queue (settle q i matchId now outcome) = rest /\
    creating (settle q i matchId now outcome) =
      delete i (creating q) ++ [(next1, next2)] /\
    emitted (world (settle q i matchId now outcome)) = emitted (world q).
Proof.
  intros Hi Hfail.
  destruct (createMatch_rejected (world q) player1 player2 matchId now outcome Hfail)
    as (w' & Hrej & Hemit & _).
  assert (Hq : exists next1 next2 rest,
             queue q ++ [player1; player2] = next1 :: next2 :: rest).
  { destruct (queue q) as [|x [|y l]]; cbn; eauto. }
  destruct Hq as (next1 & next2 & rest & Hq).
  exists w', next1, next2, rest.
  split; [exact Hrej|]. split; [exact Hemit|].
  intros readded.
  assert (Hsettle : settle q i matchId now outcome = tryMatch readded).
  { unfold settle. rewrite Hi. cbn [world]. rewrite Hrej. reflexivity. }
  assert (Hpop := tryMatch_pops readded next1 next2 rest Hq).
  split; [reflexivity|].
  split; [cbn; set_solver|]. split; [cbn; set_solver|].
  split; [intros Hnil; cbn; rewrite Hnil; reflexivity|].
  split; [exact Hsettle|]. split; [exact Hq|].
  rewrite Hsettle, Hpop. cbn. auto.
Qed.

(** C5, the code at a failing input.  alice and bob have been popped and
    the creation of their match fails.  The [catch] block, commented
    "Re-add players to queue if match creation fails", puts both back: the
    queue is [alice; bob] again and both are members.  But the block does
    not leave the [while] loop, whose test now finds two entries: both are
    popped again at once and a new creation is awaited.  When the handler
    is done the queue is empty and neither user is a member, where the
    claim wants [alice; bob] queued, both members, and the pair-off
    stopped for this round. *)
Theorem settle_rejected_pops_the_pair_again :
  let q := SampleQueue.two_joined in
  let q' := settle q 0 "m2" 3000 ThrowsAtInsert in
  queue q = [] /\
  creating q = [(SampleQueue.eA, SampleQueue.eB)] /\
  queue (readd q SampleQueue.eA SampleQueue.eB) =
    [SampleQueue.eA; SampleQueue.eB] /\
  isInQueue (readd q SampleQueue.eA SampleQueue.eB) "alice" = true /\
  isInQueue (readd q SampleQueue.eA SampleQueue.eB) "bob" = true /\
  queue q' = [] /\
  isInQueue q' "alice" = false /\ isInQueue q' "bob" = false /\
  creating q' = [(SampleQueue.eA, SampleQueue.eB)] /\
  emitted (world q') = emitted (world q) /\
  ~ (queue q' = [SampleQueue.eA; SampleQueue.eB] /\
     isInQueue q' "alice" = true /\ isInQueue q' "bob" = true /\
     creating q' = []).
Proof.
  cbv zeta.
  assert (Hq : queue (settle SampleQueue.two_joined 0 "m2" 3000 ThrowsAtInsert) = [])
    by (vm_compute; reflexivity).
  repeat split; try (vm_compute; reflexivity).
  intros (Habs & _). rewrite Hq in Habs. discriminate Habs.
Qed.

(** With a third user queued the entries also come back in another
    place.  alice and bob were popped, carol joined while their match was
    being created, and the creation fails.  The [catch] block pushes at
    the tail, which gives [carol; alice; bob] and not [alice; bob; carol],
    and the loop at once pops carol and alice: bob alone is queued, alice
    is not in the set, a creation is under way. *)
Lemma settle_rejected_not_restored :
  let q := SampleQueue.three_joined in
  let q' := settle q 0 "m2" 3000%Z ThrowsAtInsert in
  queue q = [SampleQueue.eC] /\
  creating q = [(SampleQueue.eA, SampleQueue.eB)] /\
  queue (readd q SampleQueue.eA SampleQueue.eB) =
    [SampleQueue.eC; SampleQueue.eA; SampleQueue.eB] /\
  queue q' = [SampleQueue.eB] /\
  creating q' = [(SampleQueue.eC, SampleQueue.eA)] /\
  isInQueue q' "alice" = false /\
  ~ (queue q' = SampleQueue.eA :: SampleQueue.eB :: queue q /\
     isInQueue q' "alice" = true /\ isInQueue q' "bob" = true /\
     creating q' = []).
Proof.
  cbv zeta.
  assert (Hq : queue (settle SampleQueue.three_joined 0 "m2" 3000%Z ThrowsAtInsert)
               = [SampleQueue.eB]) by (vm_compute; reflexivity).
  repeat split; try (vm_compute; reflexivity).
  intros (Habs & _). rewrite Hq in Habs. discriminate Habs.
Qed.

(** After a failed creation the membership set can miss a queued user:
    bob joined again while his match with alice was being created; the
    [catch] block queues [bob; alice; bob], the loop pops bob and alice and
    removes both ids from the set, and the bob left in the queue is not a
    member any more.  His next [join] is then not recognised as a
    duplicate, and he is paired with himself. *)
Example readd_then_pop_loses_membership :
  let q := SampleQueue.rejoined_then_failed in
  map userId (queue q) = ["bob"] /\
  isInQueue q "bob" = false /\
  map (fun p => (userId (fst p), userId (snd p)))
      (creating (fst (join q "bob" "Bob" "s2" 4000%Z))) =
    [("bob", "alice"); ("bob", "bob")].
Proof. cbv zeta. repeat split; vm_compute; reflexivity. Qed.

End QueueFacts.

(** ** Leaderboard *)

Module DalFacts.
Import Dal.

Global Instance elo_desc_trans : Transitive elo_desc.
Proof. intros a b c. unfold elo_desc. lia. Qed.

Global Instance elo_desc_total : Total elo_desc.
Proof. intros a b. unfold elo_desc. lia. Qed.

Lemma server_sort_contract : sorts_by_elo_desc server_sort.
Proof.
  intros l. unfold server_sort. split.
  - apply merge_sort_Permutation.
  - apply StronglySorted_merge_sort; apply _.
Qed.

Lemma StronglySorted_drop {A} (R : A -> A -> Prop) (n : nat) (l : list A) :
  StronglySorted R l -> StronglySorted R (drop n l).
Proof.
  intros H. rewrite <- (take_drop n l) in H.
  apply StronglySorted_app_1_r in H. exact H.
Qed.

Lemma StronglySorted_take {A} (R : A -> A -> Prop) (n : nat) (l : list A) :
  StronglySorted R l -> StronglySorted R (take n l).
Proof.
  intros H. rewrite <- (take_drop n l) in H.
  apply StronglySorted_app_1_l in H. exact H.
Qed.

Lemma StronglySorted_cursor_limit {A} (R : A -> A -> Prop) (n : nat)
    (l : list A) :
  StronglySorted R l -> StronglySorted R (cursor_limit n l).
Proof.
  intros H. destruct n; [exact H|]. apply StronglySorted_take. exact H.
Qed.

Lemma In_cursor_limit {A} (n : nat) (l : list A) (x : A) :
  In x (cursor_limit n l) -> In x l.
Proof.
  destruct n; [auto|]. unfold cursor_limit.
  intros H. apply list_elem_of_In in H. apply list_elem_of_In.
  apply (subseteq_take (S n) l). exact H.
Qed.

Lemma In_find_all (d : Db) (r : PvPRanking) :
  In r (find_all d) <-> exists key, pvp_rankings d !! key = Some r.
Proof.
  unfold find_all. rewrite <- list_elem_of_In, list_elem_of_fmap. split.
  - intros ([key r'] & -> & Hin). exists key.
    apply elem_of_map_to_list in Hin. exact Hin.
  - intros (key & Hkey). exists (key, r). split; [reflexivity|].
    apply elem_of_map_to_list. exact Hkey.
Qed.

(** C9, as the code has it.  Whatever server sort honours the query's one
    request, [getLeaderboard] returns the slice (skip [offset], then at
    most [limit]) of the rankings ordered by [elo] descending, made of
    stored rankings only, with the number of stored rankings; nothing is
    said of rankings with equal [elo]. *)
Theorem getLeaderboard_sorted_by_elo_desc
    (sort : list PvPRanking -> list PvPRanking) (d : Db) (limit offset : nat) :
  sorts_by_elo_desc sort ->
  exists sorted : list PvPRanking,
    Permutation sorted (find_all d) /\
    StronglySorted elo_desc sorted /\
    fst (getLeaderboard sort d limit offset) =
      cursor_limit limit (drop offset sorted) /\
    StronglySorted elo_desc (fst (getLeaderboard sort d limit offset)) /\
    (forall r, In r (fst (getLeaderboard sort d limit offset)) ->
       exists key, pvp_rankings d !! key = Some r) /\
    (limit <> 0 -> length (fst (getLeaderboard sort d limit offset)) <= limit) /\
    snd (getLeaderboard sort d limit offset) = size (pvp_rankings d) /\
    snd (getLeaderboard sort d limit offset) = length (find_all d).
Proof.
  intros Hsort. destruct (Hsort (find_all d)) as [Hperm Hsorted].
  exists (sort (find_all d)). unfold getLeaderboard. cbn [fst snd].
  split; [exact Hperm|]. split; [exact Hsorted|]. split; [reflexivity|].
  split; [|split; [|split; [|split]]].
  - apply StronglySorted_cursor_limit, StronglySorted_drop. exact Hsorted.
  - intros r Hin. apply In_cursor_limit in Hin.
    apply In_find_all. apply (Permutation_in _ Hperm).
    apply list_elem_of_In. apply list_elem_of_In in Hin.
    apply (subseteq_drop offset _). exact Hin.
  - intros Hlimit. destruct limit as [|n]; [congruence|].
    unfold cursor_limit. rewrite length_take. lia.
  - reflexivity.
  - unfold find_all. rewrite length_fmap, length_map_to_list. reflexivity.
Qed.

Lemma getLeaderboard_sorted_by_elo_desc_witness :
  exists sorted : list PvPRanking,
    Permutation sorted (find_all SampleQueue.tied_rankings) /\
    StronglySorted elo_desc
      (fst (getLeaderboard server_sort SampleQueue.tied_rankings 50 0)) /\
    snd (getLeaderboard server_sort SampleQueue.tied_rankings 50 0) = 2.
Proof.
  destruct (getLeaderboard_sorted_by_elo_desc server_sort
              SampleQueue.tied_rankings 50 0 server_sort_contract)
    as (sorted & Hperm & _ & _ & Hsorted & _ & _ & Htotal & _).
  exists sorted. split; [exact Hperm|]. split; [exact Hsorted|].
  rewrite Htotal. reflexivity.
Defined.

(** C9 as the spec words it fails: a server sort that honours the query
    returns two rankings of equal [elo] with the one updated last first. *)
Lemma getLeaderboard_ties_not_by_updatedAt :
  sorts_by_elo_desc server_sort /\
  map Ranking.userId
      (fst (getLeaderboard server_sort SampleQueue.tied_rankings 50 0)) =
    ["alice"; "bob"] /\
  map Ranking.elo
      (fst (getLeaderboard server_sort SampleQueue.tied_rankings 50 0)) =
    [1000%Z; 1000%Z] /\
  map Ranking.updatedAt
      (fst (getLeaderboard server_sort SampleQueue.tied_rankings 50 0)) =
    [9%Z; 3%Z] /\
  ~ StronglySorted spec_leaderboard_order
      (fst (getLeaderboard server_sort SampleQueue.tied_rankings 50 0)).
Proof.
  split; [exact server_sort_contract|].
  split; [vm_compute; reflexivity|].
  split; [vm_compute; reflexivity|].
  split; [vm_compute; reflexivity|].
  intros Hs.
  assert (Heq : fst (getLeaderboard server_sort SampleQueue.tied_rankings 50 0) =
                [Ranking.mk "alice" "Alice" 1000 0 0 0 None 0 9;
                 Ranking.mk "bob" "Bob" 1000 0 0 0 None 0 3])
    by (vm_compute; reflexivity).
  rewrite Heq in Hs. apply StronglySorted_inv in Hs as [_ Hall].
  apply Forall_inv in Hall. unfold spec_leaderboard_order in Hall.
  cbn in Hall. lia.
Qed.

End DalFacts.

(** * Further properties *)

(** ** Elo calculator: bounds, monotonicity, preview, tiers, win rate *)

Module EloMoreFacts.
Import Elo EloMore.

Section Reals.
Local Open Scope R_scope.

Lemma Math_round_shift (x : R) (z : Z) :
  Math_round (x + IZR z) = (Math_round x + z)%Z.
Proof.
  unfold Math_round.
  replace (x + IZR z + / 2) with (x + / 2 + IZR z) by lra.
  apply Zfloor_addz.
Qed.

Lemma Math_round_le (x y : R) : x <= y -> (Math_round x <= Math_round y)%Z.
Proof. intros H. unfold Math_round. apply Zfloor_le. lra. Qed.

Lemma getExpectedScore_antitone (p o p' o' : R) :
  o - p <= o' - p' -> getExpectedScore p' o' <= getExpectedScore p o.
Proof.
  intros Hd. unfold getExpectedScore.
  pose proof (EloFacts.Math_pow_pos ((o - p) / 400)) as Hpos.
  pose proof (EloFacts.Math_pow_pos ((o' - p') / 400)) as Hpos'.
  assert (Hle : Math_pow 10 ((o - p) / 400) <= Math_pow 10 ((o' - p') / 400)).
  { unfold Math_pow. apply Rle_Rpower; lra. }
  set (t := Math_pow 10 ((o - p) / 400)) in *.
  set (t' := Math_pow 10 ((o' - p') / 400)) in *.
  unfold Rdiv. rewrite !Rmult_1_l.
  apply Rinv_le_contravar; lra.
Qed.

(** X1. The change depends on the two ratings through their difference
    only and grows with it: against a relatively stronger opponent the
    same result never yields less. *)
Theorem calculateEloChange_monotone_in_rating_gap
    (playerRating opponentRating playerRating' opponentRating' result : R) :
  opponentRating - playerRating <= opponentRating' - playerRating' ->
  (calculateEloChange playerRating opponentRating result <=
   calculateEloChange playerRating' opponentRating' result)%Z.
Proof.
  intros Hd. unfold calculateEloChange. apply Math_round_le.
  pose proof (getExpectedScore_antitone _ _ _ _ Hd). unfold K_FACTOR. lra.
Qed.

Lemma calculateEloChange_monotone_in_rating_gap_witness :
  (calculateEloChange 1200 1000 1 <= calculateEloChange 1000 1000 1)%Z.
Proof.
  apply calculateEloChange_monotone_in_rating_gap. lra.
Defined.

(** X2. The preview of [simulateRatingChange] is one number in three
    guises: a win is worth exactly 32 more than a loss and a draw exactly
    16 more; a win never costs points, a loss never earns any, and no
    change exceeds 32. *)
Theorem simulateRatingChange_spread (playerRating opponentRating : R) :
  let preview := simulateRatingChange playerRating opponentRating in
  ifWin preview = (ifLoss preview + 32)%Z /\
  ifDraw preview = (ifLoss preview + 16)%Z /\
  (0 <= ifWin preview <= 32)%Z /\
  (-32 <= ifLoss preview <= 0)%Z /\
  (-16 <= ifDraw preview <= 16)%Z.
Proof.
  cbn [simulateRatingChange ifWin ifLoss ifDraw]. unfold calculateEloChange.
  pose proof (EloFacts.getExpectedScore_range playerRating opponentRating) as [Hlo Hhi].
  set (E := getExpectedScore playerRating opponentRating) in *.
  unfold K_FACTOR.
  assert (Hwin : Math_round (32 * (1 - E)) = (Math_round (32 * (0 - E)) + 32)%Z).
  { rewrite <- Math_round_shift. f_equal. lra. }
  assert (Hdraw : Math_round (32 * (/ 2 - E)) = (Math_round (32 * (0 - E)) + 16)%Z).
  { rewrite <- Math_round_shift. f_equal. lra. }
  assert (Hl1 : (-32 <= Math_round (32 * (0 - E)))%Z).
  { rewrite <- (EloFacts.Math_round_IZR (-32)). apply Math_round_le. lra. }
  assert (Hl2 : (Math_round (32 * (0 - E)) <= 0)%Z).
  { rewrite <- (EloFacts.Math_round_IZR 0) at 2. apply Math_round_le. lra. }
  rewrite Hwin, Hdraw. lia.
Qed.

(** X3. For a stored (integer) rating [calculateNewRating] is the old
    rating plus the change, floored at zero: it is never negative, and it
    equals old + change whenever that is not negative. *)
Theorem calculateNewRating_is_floored_sum (currentRating : Z)
    (opponentRating result : R) :
  calculateNewRating (IZR currentRating) opponentRating result =
  Z.max 0 (currentRating +
           calculateEloChange (IZR currentRating) opponentRating result).
Proof.
  unfold calculateNewRating. cbv zeta.
  rewrite <- plus_IZR, EloFacts.Math_round_IZR. reflexivity.
Qed.

End Reals.

(** *** Tiers *)

Lemma lt_spec (a b : Q) : lt a b = true <-> (a < b)%Q.
Proof.
  unfold lt. rewrite negb_true_iff, <- not_true_iff_false, Qle_bool_iff.
  split; [apply Qnot_le_lt | apply Qlt_not_le].
Qed.

Lemma lt_false (a b : Q) : lt a b = false <-> (b <= a)%Q.
Proof. unfold lt. rewrite negb_false_iff. apply Qle_bool_iff. Qed.

(** X4. Every rating has a badge of the list, and badges follow ratings:
    a rating that is at least as high never gets a lower badge. *)
Theorem getRatingTier_monotone (elo elo' : Q) :
  (elo <= elo')%Q ->
  exists rank rank' : nat,
    tierRank (getRatingTier elo) = Some rank /\
    tierRank (getRatingTier elo') = Some rank' /\
    rank <= rank'.
Proof.
  intros Hle. unfold getRatingTier.
  destruct (lt elo 1000) eqn:A1; [|destruct (lt elo 1200) eqn:A2;
    [|destruct (lt elo 1400) eqn:A3; [|destruct (lt elo 1600) eqn:A4;
      [|destruct (lt elo 1800) eqn:A5]]]];
  (destruct (lt elo' 1000) eqn:B1; [|destruct (lt elo' 1200) eqn:B2;
    [|destruct (lt elo' 1400) eqn:B3; [|destruct (lt elo' 1600) eqn:B4;
      [|destruct (lt elo' 1800) eqn:B5]]]]);
  rewrite ?lt_spec, ?lt_false in *;
  try (exfalso; Lqa.lra);
  (eexists _, _; split; [reflexivity|]; split; [reflexivity|]; cbn; lia).
Qed.

Lemma getRatingTier_monotone_witness :
  exists rank rank' : nat,
    tierRank (getRatingTier 1000) = Some rank /\
    tierRank (getRatingTier 1650) = Some rank' /\
    rank <= rank'.
Proof.
  apply getRatingTier_monotone. discriminate.
Defined.

(** *** Win rate *)

Lemma Math_round_Q_le (x y : Q) :
  (x <= y)%Q -> (Math_round_Q x <= Math_round_Q y)%Z.
Proof.
  intros H. unfold Math_round_Q. apply Qfloor_resp_le. Lqa.lra.
Qed.

Lemma Math_round_Q_Z (z : Z) : Math_round_Q (inject_Z z) = z.
Proof.
  unfold Math_round_Q.
  assert (H1 : (z <= Qfloor (inject_Z z + (1 # 2)))%Z).
  { rewrite <- (Qfloor_Z z) at 1. apply Qfloor_resp_le. Lqa.lra. }
  assert (H2 : (Qfloor (inject_Z z + (1 # 2)) < z + 1)%Z).
  { apply Z.lt_nge. intros Hc.
    pose proof (Qfloor_le (inject_Z z + (1 # 2))) as Hf.
    rewrite Zle_Qle, inject_Z_plus in Hc.
    change (inject_Z 1) with 1%Q in Hc. Lqa.lra. }
  lia.
Qed.

Lemma Math_round_Q_eq (x y : Q) : (x == y)%Q -> Math_round_Q x = Math_round_Q y.
Proof. intros H. unfold Math_round_Q. rewrite H. reflexivity. Qed.

Lemma percentage_range (part total : Z) :
  (0 <= part <= total)%Z -> (0 < total)%Z ->
  (0 <= inject_Z part / inject_Z total * 100 <= 100)%Q.
Proof.
  intros [H0 H1] Ht.
  assert (Hq0 : (0 <= inject_Z part)%Q) by (pose proof H0 as Hz; rewrite Zle_Qle in Hz; exact Hz).
  assert (Hq1 : (inject_Z part <= inject_Z total)%Q) by (pose proof H1 as Hz; rewrite Zle_Qle in Hz; exact Hz).
  assert (Hqt : (0 < inject_Z total)%Q) by (pose proof Ht as Hz; rewrite Zlt_Qlt in Hz; exact Hz).
  assert (Hd0 : (0 <= inject_Z part / inject_Z total)%Q).
  { apply Qle_shift_div_l; [exact Hqt | Lqa.lra]. }
  assert (Hd1 : (inject_Z part / inject_Z total <= 1)%Q).
  { apply Qle_shift_div_r; [exact Hqt | Lqa.lra]. }
  split; Lqa.lra.
Qed.

(** X5. With counters that are not negative the win rate is a whole
    percentage between 0 and 100; it is 0 when no game was played or none
    was won, and 100 when none was lost. *)
Theorem getWinRate_is_a_percentage (wins losses : Z) :
  (0 <= wins)%Z -> (0 <= losses)%Z ->
  (0 <= getWinRate wins losses <= 100)%Z /\
  (wins = 0%Z -> getWinRate wins losses = 0%Z) /\
  (losses = 0%Z -> (0 < wins)%Z -> getWinRate wins losses = 100%Z).
Proof.
  intros Hw Hl. unfold getWinRate. cbv zeta.
  destruct (Z.eqb_spec (wins + losses) 0) as [Hz | Hnz].
  - split; [lia|]. split; [reflexivity | lia].
  - destruct (percentage_range wins (wins + losses)) as [H0 H100]; [lia | lia |].
    split; [|split].
    + split.
      * rewrite <- (Math_round_Q_Z 0). apply Math_round_Q_le. exact H0.
      * rewrite <- (Math_round_Q_Z 100) at 2. apply Math_round_Q_le. exact H100.
    + intros ->. transitivity (Math_round_Q (inject_Z 0)).
      * apply Math_round_Q_eq. unfold Qdiv. ring.
      * apply Math_round_Q_Z.
    + intros -> Hpos. rewrite Z.add_0_r.
      assert (Heq : (inject_Z wins / inject_Z wins * 100 == inject_Z 100)%Q).
      { assert (Hq : (0 < inject_Z wins)%Q) by (pose proof Hpos as Hz; rewrite Zlt_Qlt in Hz; exact Hz).
        field. Lqa.lra. }
      rewrite (Math_round_Q_eq _ _ Heq). apply (Math_round_Q_Z 100).
Qed.

Lemma getWinRate_is_a_percentage_witness :
  (0 <= getWinRate 7 3 <= 100)%Z.
Proof.
  apply (getWinRate_is_a_percentage 7 3); lia.
Defined.

End EloMoreFacts.

(** ** Match coordinator: start, timeout, discarded events, results *)

Module MatchMoreFacts.
Import Match Dal MatchService MatchServiceMore.

Lemma activeMatches_emitToUser w u e :
  activeMatches (emitToUser w u e) = activeMatches w.
Proof. unfold emitToUser. destruct (io w); reflexivity. Qed.

Lemma tracker_emitToUser w u e : tracker (emitToUser w u e) = tracker w.
Proof. unfold emitToUser. destruct (io w); reflexivity. Qed.

Lemma emitted_two_emits (w : World) (u1 u2 : string) (e : ServerEvent) :
  emitted (emitToUser (emitToUser w u1 e) u2 e) =
  emitted w ++
  match io w with
  | Some sockets => deliveries sockets u1 e ++ deliveries sockets u2 e
  | None => []
  end.
Proof.
  unfold emitToUser. destruct (io w) as [sockets|] eqn:Hio; cbn [io emitted].
  - rewrite ?Hio. cbn [emitted]. rewrite <- app_assoc. reflexivity.
  - rewrite ?Hio. rewrite app_nil_r. reflexivity.
Qed.

Lemma emitted_emit_emit (w : World) (u1 u2 : string) (e1 e2 : ServerEvent) :
  emitted (emitToUser (emitToUser w u1 e1) u2 e2) =
  emitted w ++
  match io w with
  | Some sockets => deliveries sockets u1 e1 ++ deliveries sockets u2 e2
  | None => []
  end.
Proof.
  unfold emitToUser. destruct (io w) as [sockets|] eqn:Hio; cbn [io emitted].
  - rewrite ?Hio. cbn [emitted]. rewrite <- app_assoc. reflexivity.
  - rewrite ?Hio. rewrite app_nil_r. reflexivity.
Qed.

Lemma In_two_deliveries (w : World) (u1 u2 : string) (e : ServerEvent)
    (s : Socket) (e' : ServerEvent) :
  In (s, e')
     match io w with
     | Some sockets => deliveries sockets u1 e ++ deliveries sockets u2 e
     | None => []
     end <->
  exists sockets, io w = Some sockets /\ In s sockets /\
    (socket_userId s = u1 \/ socket_userId s = u2) /\ e' = e.
Proof.
  destruct (io w) as [sockets|].
  - rewrite in_app_iff, !MatchFacts.In_deliveries. split.
    + intros [(H1 & H2 & H3) | (H1 & H2 & H3)]; exists sockets; auto.
    + intros (sockets' & [= <-] & H1 & [H2 | H2] & H3); auto.
  - split; [intros [] | intros (sockets & Hs & _); discriminate Hs].
Qed.

(** X6. [startMatch] on a stored match leaves the database alone, sends
    one and the same [game_start] (test of 60 s, start time now) to every
    connected socket of the two players and to no other socket, and arms
    the match timer for 120 s later; it does so whatever the status of the
    match, and again on every call. *)
Theorem startMatch_notifies_players_and_arms_timer
    (w : World) (matchId : string) (now : Z) (m : PvPMatch) :
  getMatch (db w) matchId = Some m ->
  let w' := startMatch w matchId now in
  let event := game_start matchId (player1Id m) (player1Username m)
                          (player2Id m) (player2Username m) now 60 in
  db w' = db w /\
  activeMatches w' !! matchId = Some (now + 120000)%Z /\
  exists new : list (Socket * ServerEvent),
    emitted w' = emitted w ++ new /\
    (forall s e, In (s, e) new <->
       exists sockets, io w = Some sockets /\ In s sockets /\
         (socket_userId s = player1Id m \/ socket_userId s = player2Id m) /\
         e = event) /\
    emitted (startMatch w' matchId now) = emitted w ++ new ++ new.
Proof.
  intros Hm w' event.
  assert (Hrun : forall w0, getMatch (db w0) matchId = Some m ->
            startMatch w0 matchId now =
            with_activeMatches
              (emitToUser (emitToUser w0 (player1Id m) event) (player2Id m) event)
              (<[matchId := (now + MATCH_TIMEOUT)%Z]>
                 (activeMatches
                    (emitToUser (emitToUser w0 (player1Id m) event) (player2Id m) event)))).
  { intros w0 H0. unfold startMatch. rewrite H0. reflexivity. }
  assert (Hdb : db w' = db w).
  { unfold w'. rewrite (Hrun w Hm). cbn [db with_activeMatches].
    rewrite !MatchFacts.db_emitToUser. reflexivity. }
  assert (Hio : io w' = io w).
  { unfold w'. rewrite (Hrun w Hm). cbn [io with_activeMatches].
    rewrite !MatchFacts.io_emitToUser. reflexivity. }
  split; [exact Hdb|]. split.
  { unfold w'. rewrite (Hrun w Hm). cbn [activeMatches with_activeMatches].
    apply lookup_insert_eq. }
  eexists. split; [|split].
  - unfold w'. rewrite (Hrun w Hm). cbn [emitted with_activeMatches].
    apply emitted_two_emits.
  - intros s e. apply In_two_deliveries.
  - rewrite (Hrun w'); [|rewrite Hdb; exact Hm].
    cbn [emitted with_activeMatches]. rewrite emitted_two_emits, Hio.
    unfold w' at 1. rewrite (Hrun w Hm). cbn [emitted with_activeMatches].
    rewrite emitted_two_emits, <- app_assoc. reflexivity.
Qed.

Lemma startMatch_notifies_players_and_arms_timer_witness :
  db (startMatch (Sample.world 1000) "m1" 5000) = db (Sample.world 1000) /\
  activeMatches (startMatch (Sample.world 1000) "m1" 5000) !! "m1" =
    Some (5000 + 120000)%Z.
Proof.
  destruct (startMatch_notifies_players_and_arms_timer
              (Sample.world 1000) "m1" 5000 Sample.m1 eq_refl)
    as (Hdb & Htimer & _).
  split; [exact Hdb | exact Htimer].
Defined.

Lemma inactive_match_events_noop
    (w : World) (matchId userId : string) (wpm accuracy : float) (now : Z) :
  (getMatch (db w) matchId = None \/
   exists m, getMatch (db w) matchId = Some m /\ status m <> active) ->
  handleProgressUpdate w matchId userId wpm accuracy now = w /\
  handleMatchComplete w matchId userId wpm accuracy now = w /\
  handleMatchTimeout w matchId now = w.
Proof.
  unfold handleProgressUpdate, handleMatchComplete, handleMatchTimeout.
  intros [Hnone | (m & Hm & Hst)].
  - rewrite Hnone. auto.
  - rewrite Hm. rewrite (bool_decide_eq_false_2 _ Hst). auto.
Qed.

(** X7. An event that names a match that is not stored, or one that is
    not active any more, is discarded: a progress update, a completion and
    a timer firing each leave the whole state as it is. *)
Theorem events_for_inactive_match_are_discarded
    (w : World) (matchId userId : string) (wpm accuracy : float) (now : Z) :
  (getMatch (db w) matchId = None \/
   exists m, getMatch (db w) matchId = Some m /\ status m <> active) ->
  handleProgressUpdate w matchId userId wpm accuracy now = w /\
  handleMatchComplete w matchId userId wpm accuracy now = w /\
  handleMatchTimeout w matchId now = w.
Proof. apply inactive_match_events_noop. Qed.

Lemma events_for_inactive_match_are_discarded_witness :
  handleProgressUpdate (Sample.world 1000) "m9" "alice" 80 95 1000 =
    Sample.world 1000 /\
  handleMatchComplete (Sample.world 1000) "m9" "alice" 80 95 1000 =
    Sample.world 1000 /\
  handleMatchTimeout (Sample.world 1000) "m9" 1000 = Sample.world 1000.
Proof.
  apply events_for_inactive_match_are_discarded. left. reflexivity.
Defined.

(** X8. When the timer of an active match fires, the match becomes
    [completed] with [completedAt = now] and nothing else of it changes: no
    winner is set and no Elo change is recorded; no ranking and no other
    match is touched; [match_timeout] goes to the connected sockets of the
    two players and to no one else; the timer entry stays in the table. *)
Theorem handleMatchTimeout_completes_without_rating_change
    (w : World) (matchId : string) (now : Z) (m : PvPMatch) :
  getMatch (db w) matchId = Some m ->
  status m = active ->
  let w' := handleMatchTimeout w matchId now in
  getMatch (db w') matchId = Some (set_timed_out now m) /\
  status (set_timed_out now m) = completed /\
  completedAt (set_timed_out now m) = Some now /\
  winnerId (set_timed_out now m) = winnerId m /\
  player1EloChange (set_timed_out now m) = player1EloChange m /\
  player2EloChange (set_timed_out now m) = player2EloChange m /\
  pvp_rankings (db w') = pvp_rankings (db w) /\
  (forall other, other <> matchId ->
     getMatch (db w') other = getMatch (db w) other) /\
  activeMatches w' = activeMatches w /\
  exists new : list (Socket * ServerEvent),
    emitted w' = emitted w ++ new /\
    forall s e, In (s, e) new <->
      exists sockets, io w = Some sockets /\ In s sockets /\
        (socket_userId s = player1Id m \/ socket_userId s = player2Id m) /\
        e = match_timeout matchId "Match timeout - game ended".
Proof.
  intros Hm Hact w'.
  assert (Hrun : w' =
    clearMatch
      (emitToUser
         (emitToUser (with_db w (updateMatch (db w) matchId (set_timed_out now)))
            (player1Id m) (match_timeout matchId "Match timeout - game ended"))
         (player2Id m) (match_timeout matchId "Match timeout - game ended"))
      (player1Id m) (player2Id m)).
  { unfold w', handleMatchTimeout. rewrite Hm.
    rewrite (bool_decide_eq_true_2 _ Hact). reflexivity. }
  assert (Hdb : db w' = updateMatch (db w) matchId (set_timed_out now)).
  { rewrite Hrun, MatchFacts.db_clearMatch, !MatchFacts.db_emitToUser. reflexivity. }
  split.
  { rewrite Hdb. unfold getMatch, updateMatch in *. cbn [pvp_matches].
    rewrite lookup_alter_eq, Hm. reflexivity. }
  do 5 (split; [reflexivity|]).
  split; [rewrite Hdb; reflexivity|].
  split.
  { intros other Hne. rewrite Hdb. unfold getMatch, updateMatch. cbn [pvp_matches].
    apply lookup_alter_ne. congruence. }
  split.
  { rewrite Hrun. cbn [activeMatches clearMatch with_tracker].
    rewrite !activeMatches_emitToUser. reflexivity. }
  eexists. split.
  - rewrite Hrun. cbn [emitted clearMatch with_tracker].
    rewrite emitted_two_emits. reflexivity.
  - intros s e. apply (In_two_deliveries (with_db w _)).
Qed.

Lemma handleMatchTimeout_completes_without_rating_change_witness :
  getMatch (db (handleMatchTimeout (Sample.world 1000) "m1" 120000)) "m1" =
    Some (set_timed_out 120000 Sample.m1) /\
  pvp_rankings (db (handleMatchTimeout (Sample.world 1000) "m1" 120000)) =
    pvp_rankings (db (Sample.world 1000)).
Proof.
  destruct (handleMatchTimeout_completes_without_rating_change
              (Sample.world 1000) "m1" 120000 Sample.m1 eq_refl eq_refl)
    as (Hm & _ & _ & _ & _ & _ & Hr & _).
  split; [exact Hm | exact Hr].
Defined.

(** *** Finalization: the whole step *)

Section FinalizeRun.
Variables (w : World) (matchId : string) (now : Z).
Variables (m : PvPMatch) (p1Ranking p2Ranking : PvPRanking).
Hypothesis Hmatch : getMatch (db w) matchId = Some m.
Hypothesis Hrank1 : getRanking (db w) (player1Id m) = Some p1Ranking.
Hypothesis Hrank2 : getRanking (db w) (player2Id m) = Some p2Ranking.

Local Abbreviation winner := (fst <$> selectWinner m).
Local Abbreviation change1 :=
  (Elo.calculateEloChange (IZR (Ranking.elo p1Ranking)) (IZR (Ranking.elo p2Ranking))
     (resultOf winner (player1Id m) (player2Id m))).
Local Abbreviation change2 :=
  (Elo.calculateEloChange (IZR (Ranking.elo p2Ranking)) (IZR (Ranking.elo p1Ranking))
     (resultOf winner (player2Id m) (player1Id m))).
Local Abbreviation payload :=
  (mkResult matchId winner (snd <$> selectWinner m)
     (player1Id m) (player1Username m) (player1Wpm m) (player1Accuracy m) change1
     (player2Id m) (player2Username m) (player2Wpm m) (player2Accuracy m) change2
     (durationOf m)).

Lemma finalizeMatch_emitted :
  emitted (finalizeMatch w matchId now) =
  emitted w ++
  match io w with
  | Some sockets =>
      deliveries sockets (player1Id m) (match_result payload) ++
      deliveries sockets (player2Id m) (match_result payload)
  | None => []
  end.
Proof.
  unfold finalizeMatch. rewrite Hmatch.
  change (db (with_activeMatches w (delete matchId (activeMatches w)))) with (db w).
  rewrite Hrank1, Hrank2. cbv zeta.
  cbn [emitted clearMatch with_tracker].
  rewrite emitted_two_emits. reflexivity.
Qed.

Lemma finalizeMatch_tracker :
  tracker (finalizeMatch w matchId now) =
  delete (player2Id m) (delete (player1Id m) (tracker w)).
Proof.
  unfold finalizeMatch. rewrite Hmatch.
  change (db (with_activeMatches w (delete matchId (activeMatches w)))) with (db w).
  rewrite Hrank1, Hrank2. cbv zeta.
  cbn [tracker clearMatch with_tracker].
  rewrite !tracker_emitToUser. reflexivity.
Qed.

Lemma finalizeMatch_timers :
  activeMatches (finalizeMatch w matchId now) = delete matchId (activeMatches w).
Proof.
  unfold finalizeMatch. rewrite Hmatch.
  change (db (with_activeMatches w (delete matchId (activeMatches w)))) with (db w).
  rewrite Hrank1, Hrank2. cbv zeta.
  cbn [activeMatches clearMatch with_tracker].
  rewrite !activeMatches_emitToUser. reflexivity.
Qed.

End FinalizeRun.

(** X9. Finalization between two different players books the result on
    both rankings: each has one more match; with a decisive score the
    winner has one more win and the loser one more loss, and nothing else;
    [wins + losses <= matches] carries over; [lastMatchAt] and
    [updatedAt] become the time of finalization, identity and creation
    date stay. *)
Theorem finalizeMatch_books_result_on_rankings
    (w : World) (matchId : string) (now : Z)
    (m : PvPMatch) (p1Ranking p2Ranking : PvPRanking) :
  getMatch (db w) matchId = Some m ->
  getRanking (db w) (player1Id m) = Some p1Ranking ->
  getRanking (db w) (player2Id m) = Some p2Ranking ->
  player1Id m <> player2Id m ->
  let score1 := weightedScore (player1Wpm m) (player1Accuracy m) in
  let score2 := weightedScore (player2Wpm m) (player2Accuracy m) in
  let w' := finalizeMatch w matchId now in
  exists r1 r2 : PvPRanking,
    getRanking (db w') (player1Id m) = Some r1 /\
    getRanking (db w') (player2Id m) = Some r2 /\
    Ranking.matches r1 = (Ranking.matches p1Ranking + 1)%Z /\
    Ranking.matches r2 = (Ranking.matches p2Ranking + 1)%Z /\
    ((score2 <? score1)%float = true ->
       Ranking.wins r1 = (Ranking.wins p1Ranking + 1)%Z /\
       Ranking.losses r1 = Ranking.losses p1Ranking /\
       Ranking.wins r2 = Ranking.wins p2Ranking /\
       Ranking.losses r2 = (Ranking.losses p2Ranking + 1)%Z) /\
    ((score1 <? score2)%float = true ->
       Ranking.wins r1 = Ranking.wins p1Ranking /\
       Ranking.losses r1 = (Ranking.losses p1Ranking + 1)%Z /\
       Ranking.wins r2 = (Ranking.wins p2Ranking + 1)%Z /\
       Ranking.losses r2 = Ranking.losses p2Ranking) /\
    ((Ranking.wins p1Ranking + Ranking.losses p1Ranking <= Ranking.matches p1Ranking)%Z ->
     (Ranking.wins r1 + Ranking.losses r1 <= Ranking.matches r1)%Z) /\
    ((Ranking.wins p2Ranking + Ranking.losses p2Ranking <= Ranking.matches p2Ranking)%Z ->
     (Ranking.wins r2 + Ranking.losses r2 <= Ranking.matches r2)%Z) /\
    Ranking.lastMatchAt r1 = Some now /\ Ranking.lastMatchAt r2 = Some now /\
    Ranking.updatedAt r1 = now /\ Ranking.updatedAt r2 = now /\
    Ranking.userId r1 = Ranking.userId p1Ranking /\
    Ranking.userId r2 = Ranking.userId p2Ranking /\
    Ranking.createdAt r1 = Ranking.createdAt p1Ranking /\
    Ranking.createdAt r2 = Ranking.createdAt p2Ranking /\
    (forall other, other <> player1Id m -> other <> player2Id m ->
       getRanking (db w') other = getRanking (db w) other).
Proof.
  intros Hm H1 H2 Hne score1 score2 w'.
  eexists _, _.
  split; [apply (MatchFacts.finalizeMatch_ranking1 w matchId now m _ _ Hm H1 H2 Hne)|].
  split; [apply (MatchFacts.finalizeMatch_ranking2 w matchId now m _ _ Hm H1 H2)|].
  cbn [Ranking.matches Ranking.wins Ranking.losses Ranking.lastMatchAt
       Ranking.updatedAt Ranking.userId Ranking.createdAt].
  split; [reflexivity|]. split; [reflexivity|].
  split.
  { intros Hlt. rewrite (MatchFacts.selectWinner_player1 m Hlt). cbn [fmap option_map option_fmap fst].
    rewrite MatchFacts.is_id_same, (MatchFacts.is_id_other _ _ Hne).
    rewrite bool_decide_eq_true_2 by discriminate. cbn. auto. }
  split.
  { intros Hlt. rewrite (MatchFacts.selectWinner_player2 m Hlt). cbn [fmap option_map option_fmap fst].
    rewrite MatchFacts.is_id_same, (MatchFacts.is_id_other (player2Id m) (player1Id m))
      by congruence.
    rewrite bool_decide_eq_true_2 by discriminate. cbn. auto. }
  split.
  { intros Hinv.
    destruct (is_id _ (player1Id m)); cbn [negb andb];
      [lia | destruct (bool_decide _); lia]. }
  split.
  { intros Hinv.
    destruct (is_id _ (player2Id m)); cbn [negb andb];
      [lia | destruct (bool_decide _); lia]. }
  do 8 (split; [reflexivity|]).
  intros other Ho1 Ho2. unfold w'.
  rewrite (MatchFacts.finalizeMatch_db w matchId now m _ _ Hm H1 H2).
  unfold getRanking, updateMatch, updateRanking. cbn [pvp_rankings].
  rewrite !lookup_alter_ne by congruence. reflexivity.
Qed.

Lemma finalizeMatch_books_result_on_rankings_witness :
  exists r1 r2 : PvPRanking,
    getRanking (db (finalizeMatch (Sample.world 1000) "m1" 60000)) "alice" = Some r1 /\
    getRanking (db (finalizeMatch (Sample.world 1000) "m1" 60000)) "bob" = Some r2 /\
    Ranking.wins r1 = 1%Z /\ Ranking.losses r2 = 1%Z.
Proof.
  destruct (finalizeMatch_books_result_on_rankings
              (Sample.world 1000) "m1" 60000 Sample.m1
              (Sample.ranking "alice" "Alice" 1000)
              (Sample.ranking "bob" "Bob" 1000)
              eq_refl eq_refl eq_refl ltac:(discriminate))
    as (r1 & r2 & Hr1 & Hr2 & _ & _ & Hwin & _).
  exists r1, r2. split; [exact Hr1|]. split; [exact Hr2|].
  destruct Hwin as (Hw1 & _ & _ & Hl2); [reflexivity|].
  split; [exact Hw1 | exact Hl2].
Defined.

(** X10. Finalization sends one and the same [match_result] to every
    connected socket of the two players and to no other socket; what it
    announces (winner, Elo changes, duration, the four stats) is what it
    has stored in the match; afterwards the progress of both players is
    gone from the tracker and the match has no timer. *)
Theorem finalizeMatch_announces_what_it_stores
    (w : World) (matchId : string) (now : Z)
    (m : PvPMatch) (p1Ranking p2Ranking : PvPRanking) :
  getMatch (db w) matchId = Some m ->
  getRanking (db w) (player1Id m) = Some p1Ranking ->
  getRanking (db w) (player2Id m) = Some p2Ranking ->
  let w' := finalizeMatch w matchId now in
  exists (m' : PvPMatch) (payload : ResultPayload)
         (new : list (Socket * ServerEvent)),
    getMatch (db w') matchId = Some m' /\
    emitted w' = emitted w ++ new /\
    (forall s e, In (s, e) new <->
       exists sockets, io w = Some sockets /\ In s sockets /\
         (socket_userId s = player1Id m \/ socket_userId s = player2Id m) /\
         e = match_result payload) /\
    res_matchId payload = matchId /\
    res_winnerId payload = winnerId m' /\
    res_winnerName payload = winnerName m' /\
    res_player1EloChange payload = player1EloChange m' /\
    res_player2EloChange payload = player2EloChange m' /\
    res_matchDuration payload = matchDuration m' /\
    res_player1Id payload = player1Id m' /\
    res_player2Id payload = player2Id m' /\
    res_player1Wpm payload = player1Wpm m' /\
    res_player1Accuracy payload = player1Accuracy m' /\
    res_player2Wpm payload = player2Wpm m' /\
    res_player2Accuracy payload = player2Accuracy m' /\
    getProgress w' (player1Id m) = None /\
    getProgress w' (player2Id m) = None /\
    activeMatches w' !! matchId = None.
Proof.
  intros Hm H1 H2 w'.
  eexists _, _, _.
  split; [apply (MatchFacts.finalizeMatch_match w matchId now m _ _ Hm H1 H2)|].
  split; [apply (finalizeMatch_emitted w matchId now m _ _ Hm H1 H2)|].
  split; [intros s e; apply In_two_deliveries|].
  do 12 (split; [reflexivity|]).
  unfold getProgress, w'.
  rewrite (finalizeMatch_tracker w matchId now m _ _ Hm H1 H2).
  rewrite (finalizeMatch_timers w matchId now m _ _ Hm H1 H2).
  split; [|split].
  - destruct (decide (player1Id m = player2Id m)) as [-> | Hne].
    + apply lookup_delete_eq.
    + rewrite lookup_delete_ne by congruence. apply lookup_delete_eq.
  - apply lookup_delete_eq.
  - apply lookup_delete_eq.
Qed.

Lemma finalizeMatch_announces_what_it_stores_witness :
  exists (m' : PvPMatch) (payload : ResultPayload),
    getMatch (db (finalizeMatch (Sample.world 1000) "m1" 60000)) "m1" = Some m' /\
    res_winnerId payload = winnerId m' /\
    res_player1EloChange payload = player1EloChange m'.
Proof.
  destruct (finalizeMatch_announces_what_it_stores
              (Sample.world 1000) "m1" 60000 Sample.m1
              (Sample.ranking "alice" "Alice" 1000)
              (Sample.ranking "bob" "Bob" 1000)
              eq_refl eq_refl eq_refl)
    as (m' & payload & new & Hm & _ & _ & _ & Hw & _ & He & _).
  exists m', payload. auto.
Defined.

(** X11. When the ranking of one of the players is not stored,
    finalization gives up after clearing the timer: nothing is written,
    nothing is sent, the match keeps its status, and it has no timer any
    more. *)
Theorem finalizeMatch_without_ranking_only_clears_timer
    (w : World) (matchId : string) (now : Z) (m : PvPMatch) :
  getMatch (db w) matchId = Some m ->
  getRanking (db w) (player1Id m) = None \/
  getRanking (db w) (player2Id m) = None ->
  finalizeMatch w matchId now =
    with_activeMatches w (delete matchId (activeMatches w)) /\
  db (finalizeMatch w matchId now) = db w /\
  emitted (finalizeMatch w matchId now) = emitted w /\
  tracker (finalizeMatch w matchId now) = tracker w /\
  activeMatches (finalizeMatch w matchId now) !! matchId = None.
Proof.
  intros Hm Hmissing.
  assert (Hrun : finalizeMatch w matchId now =
                 with_activeMatches w (delete matchId (activeMatches w))).
  { unfold finalizeMatch. rewrite Hm.
    change (db (with_activeMatches w (delete matchId (activeMatches w)))) with (db w).
    destruct Hmissing as [H | H]; rewrite H.
    - reflexivity.
    - destruct (getRanking (db w) (player1Id m)); reflexivity. }
  rewrite Hrun. cbn [db emitted tracker activeMatches with_activeMatches].
  repeat split. apply lookup_delete_eq.
Qed.

Lemma finalizeMatch_without_ranking_only_clears_timer_witness :
  db (finalizeMatch SampleMore.unranked_world "m1" 60000) =
  db SampleMore.unranked_world.
Proof.
  destruct (finalizeMatch_without_ranking_only_clears_timer
              SampleMore.unranked_world "m1" 60000 Sample.m1
              eq_refl (or_introl eq_refl))
    as (_ & Hdb & _).
  exact Hdb.
Defined.

(** X12. A match leaves [active] once.  After a finalization, and just as
    well after a timeout, every later progress update, completion or timer
    firing for that match changes nothing: a player who finishes after the
    timeout is not scored. *)
Theorem completed_match_is_final
    (w : World) (matchId : string) (now : Z)
    (m : PvPMatch) (p1Ranking p2Ranking : PvPRanking) :
  getMatch (db w) matchId = Some m ->
  getRanking (db w) (player1Id m) = Some p1Ranking ->
  getRanking (db w) (player2Id m) = Some p2Ranking ->
  status m = active ->
  forall (ended : World),
    ended = finalizeMatch w matchId now \/ ended = handleMatchTimeout w matchId now ->
    forall (userId : string) (wpm accuracy : float) (later : Z),
      handleProgressUpdate ended matchId userId wpm accuracy later = ended /\
      handleMatchComplete ended matchId userId wpm accuracy later = ended /\
      handleMatchTimeout ended matchId later = ended.
Proof.
  intros Hm H1 H2 Hact ended Hended userId wpm accuracy later.
  apply inactive_match_events_noop. right.
  destruct Hended as [-> | ->].
  - eexists. split.
    + apply (MatchFacts.finalizeMatch_match w matchId now m _ _ Hm H1 H2).
    + discriminate.
  - destruct (MatchFacts.handleMatchTimeout_completes w matchId now m Hm Hact)
      as (m' & Hget & Hst & _).
    exists m'. split; [exact Hget|]. rewrite Hst. discriminate.
Qed.

Lemma completed_match_is_final_witness :
  handleMatchComplete (handleMatchTimeout (Sample.world 1000) "m1" 120000)
                      "m1" "alice" 90 99 121000 =
  handleMatchTimeout (Sample.world 1000) "m1" 120000.
Proof.
  apply (completed_match_is_final (Sample.world 1000) "m1" 120000 Sample.m1
           (Sample.ranking "alice" "Alice" 1000)
           (Sample.ranking "bob" "Bob" 1000)
           eq_refl eq_refl eq_refl eq_refl _ (or_intror eq_refl)
           "alice" 90 99 121000).
Defined.

(** X13. The sender of a progress update is not checked against the
    players of the match.  A user who plays in neither slot leaves the
    stored match as it is, but the tracker records the numbers and
    [opponent_progress] carrying them goes to the sockets of player 1. *)
Theorem handleProgressUpdate_from_outsider_reaches_player1
    (w : World) (matchId userId : string) (wpm accuracy : float) (now : Z)
    (m : PvPMatch) :
  getMatch (db w) matchId = Some m ->
  status m = active ->
  userId <> player1Id m -> userId <> player2Id m ->
  let w' := handleProgressUpdate w matchId userId wpm accuracy now in
  db w' = db w /\
  getProgress w' userId = Some (Progress.mk userId wpm accuracy now) /\
  exists new : list (Socket * ServerEvent),
    emitted w' = emitted w ++ new /\
    forall s e, In (s, e) new <->
      exists sockets, io w = Some sockets /\ In s sockets /\
        socket_userId s = player1Id m /\
        e = opponent_progress matchId wpm accuracy now.
Proof.
  intros Hm Hact Hn1 Hn2 w'.
  assert (Hrun : w' =
    emitToUser (updateProgress w userId wpm accuracy now) (player1Id m)
               (opponent_progress matchId wpm accuracy now)).
  { unfold w', handleProgressUpdate. rewrite Hm.
    rewrite (bool_decide_eq_true_2 _ Hact). cbn [negb]. cbv zeta.
    unfold storeStats.
    rewrite (bool_decide_eq_false_2 _ Hn1), (bool_decide_eq_false_2 _ Hn2).
    destruct w; reflexivity. }
  rewrite Hrun. split; [rewrite MatchFacts.db_emitToUser; reflexivity|]. split.
  { unfold getProgress. rewrite tracker_emitToUser. cbn. apply lookup_insert_eq. }
  unfold emitToUser. cbn [io updateProgress with_tracker].
  destruct (io w) as [sockets|] eqn:Hio.
  - eexists. split; [reflexivity|]. intros s e.
    rewrite MatchFacts.In_deliveries. split.
    + intros (Hin & Hu & He). exists sockets. auto.
    + intros (sockets' & [= <-] & Hin & Hu & He). auto.
  - exists []. split; [cbn; rewrite app_nil_r; reflexivity|].
    intros s e. split; [intros [] | intros (sockets & Hs & _); discriminate Hs].
Qed.

Lemma handleProgressUpdate_from_outsider_reaches_player1_witness :
  exists new : list (Socket * ServerEvent),
    emitted (handleProgressUpdate (Sample.world 1000) "m1" "carol" 300 100 10000) =
      emitted (Sample.world 1000) ++ new /\
    In (mkSocket "s1" "alice", opponent_progress "m1" 300 100 10000) new.
Proof.
  destruct (handleProgressUpdate_from_outsider_reaches_player1
              (Sample.world 1000) "m1" "carol" 300 100 10000 Sample.m1
              eq_refl eq_refl ltac:(discriminate) ltac:(discriminate))
    as (_ & _ & new & Hnew & Hall).
  exists new. split; [exact Hnew|].
  apply Hall. exists Sample.sockets.
  split; [reflexivity|]. split; [left; reflexivity|]. split; reflexivity.
Defined.

(** X14. For the completion barrier a progress report is as good as a
    final one: when player 2 has only reported progress with a positive wpm
    and player 1 then completes with a positive wpm, the match is
    finalized on the spot, scored with player 2's progress numbers. *)
Theorem progress_report_releases_barrier
    (w : World) (matchId : string) (m : PvPMatch)
    (p1Ranking p2Ranking : PvPRanking)
    (wpm1 accuracy1 wpm2 accuracy2 : float) (t1 t2 : Z) :
  getMatch (db w) matchId = Some m ->
  status m = active ->
  player1Id m <> player2Id m ->
  getRanking (db w) (player1Id m) = Some p1Ranking ->
  getRanking (db w) (player2Id m) = Some p2Ranking ->
  (0 <? wpm1)%float = true -> (0 <? wpm2)%float = true ->
  let w1 := handleProgressUpdate w matchId (player2Id m) wpm2 accuracy2 t1 in
  let w2 := handleMatchComplete w1 matchId (player1Id m) wpm1 accuracy1 t2 in
  exists m' : PvPMatch,
    getMatch (db w2) matchId = Some m' /\
    status m' = completed /\ completedAt m' = Some t2 /\
    player1Wpm m' = wpm1 /\ player1Accuracy m' = accuracy1 /\
    player2Wpm m' = wpm2 /\ player2Accuracy m' = accuracy2.
Proof.
  intros Hm Hact Hne H1 H2 Hp1 Hp2 w1 w2.
  set (m2 := set_player2_stats wpm2 accuracy2 m).
  set (m3 := set_player1_stats wpm1 accuracy1 m2).
  assert (Hdb1 : db w1 = updateMatch (db w) matchId (set_player2_stats wpm2 accuracy2)).
  { unfold w1, handleProgressUpdate. rewrite Hm.
    rewrite (bool_decide_eq_true_2 _ Hact). cbn [negb]. cbv zeta.
    rewrite MatchFacts.db_emitToUser. cbn [db with_db updateProgress with_tracker].
    unfold storeStats.
    rewrite bool_decide_eq_false_2 by congruence.
    rewrite bool_decide_eq_true_2 by reflexivity. reflexivity. }
  assert (Hm2 : getMatch (db w1) matchId = Some m2).
  { rewrite Hdb1. unfold getMatch, updateMatch in *. cbn [pvp_matches].
    rewrite lookup_alter_eq, Hm. reflexivity. }
  set (stored := with_db w1 (storeStats (db w1) m2 matchId (player1Id m) wpm1 accuracy1)).
  assert (Hm3 : getMatch (db stored) matchId = Some m3).
  { unfold stored. cbn [db with_db].
    rewrite (MatchFacts.getMatch_storeStats (db w1) m2 matchId (player1Id m) wpm1 accuracy1 Hm2).
    rewrite bool_decide_eq_true_2 by reflexivity. reflexivity. }
  assert (Hrun : w2 = finalizeMatch stored matchId t2).
  { unfold w2, handleMatchComplete. rewrite Hm2.
    change (status m2) with (status m).
    rewrite (bool_decide_eq_true_2 _ Hact). cbn [negb]. cbv zeta.
    fold stored. rewrite Hm3.
    assert (Hboth : bothCompleted m3 = true).
    { apply MatchFacts.bothCompleted_spec. split; [exact Hp1 | exact Hp2]. }
    rewrite Hboth. reflexivity. }
  assert (Hranks : pvp_rankings (db stored) = pvp_rankings (db w)).
  { unfold stored. cbn [db with_db]. unfold storeStats.
    rewrite bool_decide_eq_true_2 by reflexivity.
    cbn [pvp_rankings updateMatch]. rewrite Hdb1. reflexivity. }
  assert (Hr1 : getRanking (db stored) (player1Id m3) = Some p1Ranking).
  { unfold getRanking. rewrite Hranks. exact H1. }
  assert (Hr2 : getRanking (db stored) (player2Id m3) = Some p2Ranking).
  { unfold getRanking. rewrite Hranks. exact H2. }
  eexists. split.
  - rewrite Hrun.
    apply (MatchFacts.finalizeMatch_match stored matchId t2 m3 _ _ Hm3 Hr1 Hr2).
  - repeat split; reflexivity.
Qed.

Lemma progress_report_releases_barrier_witness :
  exists m' : PvPMatch,
    getMatch
      (db (handleMatchComplete
             (handleProgressUpdate (Sample.world 1000) "m1" "bob" 30 90 10000)
             "m1" "alice" 80 95 20000)) "m1" = Some m' /\
    status m' = completed /\ player2Wpm m' = 30%float.
Proof.
  destruct (progress_report_releases_barrier
              (Sample.world 1000) "m1" Sample.m1
              (Sample.ranking "alice" "Alice" 1000)
              (Sample.ranking "bob" "Bob" 1000)
              80 95 30 90 10000 20000
              eq_refl eq_refl ltac:(discriminate) eq_refl eq_refl
              eq_refl eq_refl)
    as (m' & Hm & Hst & _ & _ & _ & Hw & _).
  exists m'. auto.
Defined.

End MatchMoreFacts.

(** ** Storage facade: rankings, history, active matches *)

Module DalMoreFacts.
Import Match Dal DalMore.

(** X15. [createRanking] is idempotent: the ranking returned is the one
    stored under the user afterwards; an existing ranking is returned as it
    is and nothing is written; a second call changes nothing; other users
    and the matches are never touched. *)
Theorem createRanking_is_idempotent (d : Db) (ranking : PvPRanking) :
  let created := createRanking d ranking in
  getRanking (fst created) (Ranking.userId ranking) = Some (snd created) /\
  createRanking (fst created) ranking = created /\
  (forall existing,
     getRanking d (Ranking.userId ranking) = Some existing ->
     created = (d, existing)) /\
  (getRanking d (Ranking.userId ranking) = None ->
     snd created = ranking /\
     size (pvp_rankings (fst created)) = S (size (pvp_rankings d))) /\
  (forall other, other <> Ranking.userId ranking ->
     getRanking (fst created) other = getRanking d other) /\
  pvp_matches (fst created) = pvp_matches d.
Proof.
  unfold createRanking, getRanking. cbv zeta.
  destruct (pvp_rankings d !! Ranking.userId ranking) as [existing|] eqn:Hlook;
    cbn [fst snd pvp_rankings pvp_matches].
  - split; [exact Hlook|]. split; [rewrite Hlook; reflexivity|].
    split; [intros e [= <-]; reflexivity|].
    split; [discriminate|]. split; reflexivity.
  - split; [apply lookup_insert_eq|].
    split; [cbn [pvp_rankings]; rewrite lookup_insert_eq; reflexivity|].
    split; [discriminate|].
    split; [intros _; split; [reflexivity | apply map_size_insert_None; exact Hlook]|].
    split; [|reflexivity].
    intros other Hne. apply lookup_insert_ne. congruence.
Qed.

(** *** Queries on the matches *)

Lemma In_find_matches (d : Db) (query : PvPMatch -> bool) (m : PvPMatch) :
  In m (find_matches d query) <->
  query m = true /\ exists key, pvp_matches d !! key = Some m.
Proof.
  unfold find_matches. rewrite filter_In.
  rewrite <- list_elem_of_In, list_elem_of_fmap. split.
  - intros [([key m'] & -> & Hin) Hq]. split; [exact Hq|]. exists key.
    apply elem_of_map_to_list in Hin. exact Hin.
  - intros (Hq & key & Hkey). split; [|exact Hq].
    exists (key, m). split; [reflexivity|].
    apply elem_of_map_to_list. exact Hkey.
Qed.

Lemma involves_spec (userId : string) (m : PvPMatch) :
  involves userId m = true <-> player1Id m = userId \/ player2Id m = userId.
Proof.
  unfold involves. rewrite orb_true_iff, !bool_decide_eq_true. reflexivity.
Qed.

Lemma history_query_spec (userId : string) (m : PvPMatch) :
  history_query userId m = true <->
  (player1Id m = userId \/ player2Id m = userId) /\ status m = completed.
Proof.
  unfold history_query.
  rewrite andb_true_iff, involves_spec, bool_decide_eq_true. reflexivity.
Qed.

Global Instance createdAt_desc_trans : Transitive createdAt_desc.
Proof. intros a b c. unfold createdAt_desc. lia. Qed.

Global Instance createdAt_desc_total : Total createdAt_desc.
Proof. intros a b. unfold createdAt_desc. lia. Qed.

Lemma server_sort_matches_contract : sorts_by_createdAt_desc server_sort_matches.
Proof.
  intros l. unfold server_sort_matches. split.
  - apply merge_sort_Permutation.
  - apply StronglySorted_merge_sort; apply _.
Qed.

Lemma length_cursor_limit {A} (limit : nat) (l : list A) :
  length (cursor_limit limit l) <= length l.
Proof.
  destruct limit; [reflexivity|]. unfold cursor_limit.
  rewrite length_take. lia.
Qed.

(** X16. Whatever server sort honours the query, a page of
    [getMatchHistory] holds stored matches only, each completed and played
    by the user, newest first, and never more than [limit] of them; the
    total is the number of all completed matches of the user, the same for
    every page, and no page is longer than it. *)
Theorem getMatchHistory_lists_completed_matches_of_user
    (sort : list PvPMatch -> list PvPMatch) (d : Db) (userId : string)
    (limit offset : nat) :
  sorts_by_createdAt_desc sort ->
  let page := fst (getMatchHistory sort d userId limit offset) in
  let total := snd (getMatchHistory sort d userId limit offset) in
  (forall m, In m page ->
     (player1Id m = userId \/ player2Id m = userId) /\
     status m = completed /\
     exists key, pvp_matches d !! key = Some m) /\
  StronglySorted createdAt_desc page /\
  (limit <> 0 -> length page <= limit) /\
  length page <= total /\
  total = length (find_matches d (history_query userId)) /\
  (forall limit' offset',
     snd (getMatchHistory sort d userId limit' offset') = total) /\
  (forall m, (player1Id m = userId \/ player2Id m = userId) ->
     status m = completed ->
     (exists key, pvp_matches d !! key = Some m) ->
     In m (fst (getMatchHistory sort d userId 0 0))).
Proof.
  intros Hsort page total.
  destruct (Hsort (find_matches d (history_query userId))) as [Hperm Hsorted].
  unfold page, total, getMatchHistory. cbn [fst snd].
  split.
  { intros m Hin. apply DalFacts.In_cursor_limit in Hin.
    assert (Hin' : In m (find_matches d (history_query userId))).
    { apply (Permutation_in _ Hperm).
      apply list_elem_of_In. apply list_elem_of_In in Hin.
      apply (subseteq_drop offset _). exact Hin. }
    apply In_find_matches in Hin' as [Hq Hkey].
    apply history_query_spec in Hq as [Hu Hst]. auto. }
  split.
  { apply DalFacts.StronglySorted_cursor_limit, DalFacts.StronglySorted_drop.
    exact Hsorted. }
  split.
  { intros Hlimit. destruct limit as [|n]; [congruence|].
    unfold cursor_limit. rewrite length_take. lia. }
  split.
  { pose proof (length_cursor_limit limit
                  (drop offset (sort (find_matches d (history_query userId))))) as H1.
    rewrite length_drop in H1.
    rewrite (Permutation_length Hperm) in H1. lia. }
  split; [reflexivity|]. split; [reflexivity|].
  intros m Hu Hst Hkey. cbn [cursor_limit drop].
  apply (Permutation_in _ (Permutation_sym Hperm)).
  apply In_find_matches. split; [|exact Hkey].
  apply history_query_spec. auto.
Qed.

Lemma getMatchHistory_lists_completed_matches_of_user_witness :
  fst (getMatchHistory server_sort_matches (db (Sample.world 1000)) "alice" 20 0) = [] /\
  snd (getMatchHistory server_sort_matches (db (Sample.world 1000)) "alice" 20 0) = 0.
Proof.
  destruct (getMatchHistory_lists_completed_matches_of_user
              server_sort_matches (db (Sample.world 1000)) "alice" 20 0
              server_sort_matches_contract)
    as (_ & _ & _ & Hlen & Htotal & _).
  assert (H0 : snd (getMatchHistory server_sort_matches (db (Sample.world 1000))
                      "alice" 20 0) = 0) by (rewrite Htotal; reflexivity).
  split; [|exact H0].
  rewrite H0 in Hlen. apply length_zero_iff_nil. lia.
Defined.

(** X17. [getActiveMatches] follows the life of a match: a stored match
    is listed for a user exactly when it is active and the user plays in
    it; once the match has been finalized or has timed out it is listed for
    no one. *)
Theorem getActiveMatches_follows_match_status
    (w : World) (matchId : string) (now : Z)
    (m : PvPMatch) (p1Ranking p2Ranking : PvPRanking) :
  getMatch (db w) matchId = Some m ->
  getRanking (db w) (player1Id m) = Some p1Ranking ->
  getRanking (db w) (player2Id m) = Some p2Ranking ->
  status m = active ->
  In m (getActiveMatches (db w) (player1Id m)) /\
  In m (getActiveMatches (db w) (player2Id m)) /\
  (forall userId, In m (getActiveMatches (db w) userId) ->
     player1Id m = userId \/ player2Id m = userId) /\
  forall ended,
    ended = MatchService.finalizeMatch w matchId now \/
    ended = MatchService.handleMatchTimeout w matchId now ->
    exists m', getMatch (db ended) matchId = Some m' /\
      forall userId, ~ In m' (getActiveMatches (db ended) userId).
Proof.
  intros Hm H1 H2 Hact.
  assert (Hin : forall u, In m (getActiveMatches (db w) u) <->
                          (player1Id m = u \/ player2Id m = u)).
  { intros u. unfold getActiveMatches. rewrite In_find_matches.
    rewrite andb_true_iff, involves_spec, bool_decide_eq_true. split.
    - intros [[Hu _] _]. exact Hu.
    - intros Hu. split; [auto|]. exists matchId. exact Hm. }
  split; [apply Hin; auto|]. split; [apply Hin; auto|].
  split; [intros u Hu; apply Hin; exact Hu|].
  intros ended Hended.
  assert (Hdone : exists m', getMatch (db ended) matchId = Some m' /\
                             status m' = completed).
  { destruct Hended as [-> | ->].
    - eexists. split.
      + apply (MatchFacts.finalizeMatch_match w matchId now m _ _ Hm H1 H2).
      + reflexivity.
    - destruct (MatchFacts.handleMatchTimeout_completes w matchId now m Hm Hact)
        as (m' & Hget & Hst & _).
      exists m'. auto. }
  destruct Hdone as (m' & Hget & Hst).
  exists m'. split; [exact Hget|].
  intros u Hu. unfold getActiveMatches in Hu. apply In_find_matches in Hu as [Hq _].
  apply andb_true_iff in Hq as [_ Hq]. apply bool_decide_eq_true in Hq.
  rewrite Hst in Hq. discriminate Hq.
Qed.

Lemma getActiveMatches_follows_match_status_witness :
  In Sample.m1 (getActiveMatches (db (Sample.world 1000)) "alice") /\
  In Sample.m1 (getActiveMatches (db (Sample.world 1000)) "bob").
Proof.
  destruct (getActiveMatches_follows_match_status
              (Sample.world 1000) "m1" 60000 Sample.m1
              (Sample.ranking "alice" "Alice" 1000)
              (Sample.ranking "bob" "Bob" 1000)
              eq_refl eq_refl eq_refl eq_refl)
    as (Ha & Hb & _).
  split; [exact Ha | exact Hb].
Defined.

End DalMoreFacts.

(** ** Socket registry *)

Module SocketMoreFacts.
Import SocketMore.

Lemma deliveries_nil_iff (sockets : list Socket) (userId : string)
    (event : ServerEvent) :
  deliveries sockets userId event = [] <->
  forall s, In s sockets -> socket_userId s <> userId.
Proof.
  split.
  - intros Hnil s Hin Hu.
    assert (Hd : In (s, event) (deliveries sockets userId event))
      by (apply MatchFacts.In_deliveries; auto).
    rewrite Hnil in Hd. destruct Hd.
  - intros Hall. destruct (deliveries sockets userId event) as [|[s e] l] eqn:Hd;
      [reflexivity|].
    assert (Hin : In (s, e) (deliveries sockets userId event))
      by (rewrite Hd; left; reflexivity).
    apply MatchFacts.In_deliveries in Hin as (Hin & Hu & _).
    destruct (Hall s Hin Hu).
Qed.

Lemma isUserConnected_spec (w : World) (userId : string) :
  isUserConnected w userId = true <->
  exists sockets s, io w = Some sockets /\ In s sockets /\ socket_userId s = userId.
Proof.
  unfold isUserConnected. destruct (io w) as [sockets|].
  - rewrite existsb_exists. split.
    + intros (s & Hin & Hb). apply bool_decide_eq_true in Hb. eauto.
    + intros (sockets' & s & [= <-] & Hin & Hu). exists s.
      split; [exact Hin | apply bool_decide_eq_true; exact Hu].
  - split; [discriminate | intros (sockets & s & Hs & _); discriminate Hs].
Qed.

(** X18. A targeted emit is dropped exactly for users who are not
    connected: [emitToUser] adds nothing to what has been sent if and only
    if [isUserConnected] is false, which is also when [getUserSocketId]
    finds no socket; a socket id that is found belongs to a socket of that
    user. *)
Theorem emitToUser_reaches_connected_users_only
    (w : World) (userId : string) (event : ServerEvent) :
  (emitted (emitToUser w userId event) = emitted w <->
   isUserConnected w userId = false) /\
  (getUserSocketId w userId = None <-> isUserConnected w userId = false) /\
  (forall socketId, getUserSocketId w userId = Some socketId ->
     exists sockets s, io w = Some sockets /\ In s sockets /\
       socket_userId s = userId /\ socket_id s = socketId).
Proof.
  unfold emitToUser, getUserSocketId, isUserConnected.
  destruct (io w) as [sockets|]; cbn [emitted].
  - split; [|split].
    + rewrite <- (app_nil_r (emitted w)) at 2.
      split.
      * intros H. apply app_inv_head in H.
        apply not_true_iff_false. intros Hc.
        apply existsb_exists in Hc as (s & Hin & Hb).
        apply bool_decide_eq_true in Hb.
        apply (proj1 (deliveries_nil_iff sockets userId event) H s Hin Hb).
      * intros H. f_equal. apply deliveries_nil_iff. intros s Hin Hu.
        apply not_true_iff_false in H. apply H.
        apply existsb_exists. exists s. split; [exact Hin|].
        apply bool_decide_eq_true. exact Hu.
    + destruct (List.find _ sockets) as [s|] eqn:Hfind; cbn.
      * apply find_some in Hfind as [Hin Hb].
        split; [discriminate|]. intros H. exfalso.
        apply not_true_iff_false in H. apply H.
        apply existsb_exists. eauto.
      * split; [|reflexivity]. intros _.
        apply not_true_iff_false. intros Hc.
        apply existsb_exists in Hc as (s & Hin & Hb).
        pose proof (find_none _ _ Hfind s Hin) as Hn. cbn in Hn.
        rewrite Hb in Hn. discriminate Hn.
    + intros socketId Hfound.
      destruct (List.find _ sockets) as [s|] eqn:Hfind; [|discriminate].
      injection Hfound as <-.
      apply find_some in Hfind as [Hin Hb]. apply bool_decide_eq_true in Hb.
      exists sockets, s. auto.
  - split; [|split]; [tauto | tauto | discriminate].
Qed.

Lemma NoDup_tagged_filter (keep : Socket -> bool) (event : ServerEvent)
    (sockets : list Socket) :
  NoDup sockets ->
  NoDup (map (fun s => (s, event)) (List.filter keep sockets)).
Proof.
  induction 1 as [|s sockets Hnotin Hnd IH]; cbn; [constructor|].
  destruct (keep s); [|exact IH].
  cbn. constructor; [|exact IH].
  intros Hin. apply list_elem_of_In, in_map_iff in Hin as (s' & [= ->] & Hin).
  apply filter_In in Hin as [Hin _]. apply Hnotin, list_elem_of_In. exact Hin.
Qed.

(** X19. [emitToUsers] sends to every connected socket whose user is in
    the list and to no other, once per socket even when a user is listed
    twice; for a single user it is [emitToUser]. *)
Theorem emitToUsers_once_per_socket
    (w : World) (userIds : list string) (event : ServerEvent) :
  (exists new : list (Socket * ServerEvent),
     emitted (emitToUsers w userIds event) = emitted w ++ new /\
     (forall s e, In (s, e) new <->
        exists sockets, io w = Some sockets /\ In s sockets /\
          In (socket_userId s) userIds /\ e = event) /\
     (forall sockets, io w = Some sockets -> NoDup sockets -> NoDup new)) /\
  (forall userId, emitToUsers w [userId] event = emitToUser w userId event) /\
  db (emitToUsers w userIds event) = db w.
Proof.
  unfold emitToUsers, emitToUser. destruct (io w) as [sockets|] eqn:Hio.
  - split; [|split; [|reflexivity]].
    + eexists. split; [reflexivity|]. split.
      * intros s e. rewrite in_map_iff. split.
        -- intros (s' & [= <- <-] & Hin). apply filter_In in Hin as [Hin Hb].
           apply bool_decide_eq_true in Hb. apply list_elem_of_In in Hb.
           exists sockets. auto.
        -- intros (sockets' & [= <-] & Hin & Hu & ->). exists s.
           split; [reflexivity|]. apply filter_In. split; [exact Hin|].
           apply bool_decide_eq_true. apply list_elem_of_In. exact Hu.
      * intros sockets' [= <-] Hnd. apply NoDup_tagged_filter. exact Hnd.
    + intros userId. cbn [emitted]. f_equal. f_equal. unfold deliveries. f_equal.
      apply filter_ext. intros s.
      apply bool_decide_ext. rewrite list_elem_of_singleton. reflexivity.
  - split; [|split; reflexivity].
    exists []. split; [rewrite app_nil_r; reflexivity|]. split.
    + intros s e. split; [intros [] | intros (sockets & Hs & _); discriminate Hs].
    + intros sockets Hs. discriminate Hs.
Qed.

End SocketMoreFacts.

(** ** Matchmaking queue: leaving, eviction, pairing, match creation *)

Module QueueMoreFacts.
Import QueueService.

Lemma list_find_first (u : string) (before after : list QueueEntry)
    (e : QueueEntry) :
  userId e = u -> ~ In u (map userId before) ->
  list_find (fun entry => userId entry = u) (before ++ e :: after) =
  Some (length before, e).
Proof.
  intros He Hnot. apply list_find_Some. split; [|split].
  - rewrite lookup_app_r by lia. rewrite Nat.sub_diag. reflexivity.
  - exact He.
  - intros j y Hj Hlt Hy. apply Hnot.
    rewrite lookup_app_l in Hj by exact Hlt.
    apply in_map_iff. exists y. split; [exact Hy|].
    apply list_elem_of_In. apply list_elem_of_lookup. eauto.
Qed.

(** X20. [leave] for a user who has no entry returns [false] and changes
    nothing.  Otherwise it returns [true] and removes the first entry of
    that user and no other, the entries before and after keeping their
    order; the user is then no longer a member, and pairs whose match is
    being created are not affected. *)
Theorem leave_removes_the_first_entry_of_the_user (q : PvPQueue) (u : string) :
  (~ In u (map userId (queue q)) -> leave q u = (q, false)) /\
  (forall before e after,
     queue q = before ++ e :: after ->
     userId e = u -> ~ In u (map userId before) ->
     leave q u =
       (mkQueue (before ++ after) (userInQueue q ∖ {[u]}) (creating q) (world q),
        true) /\
     isInQueue (fst (leave q u)) u = false).
Proof.
  split.
  - intros Hnot. unfold leave.
    destruct (list_find _ (queue q)) as [[index e]|] eqn:Hfind; [|reflexivity].
    exfalso. apply list_find_Some in Hfind as (Hlook & He & _).
    apply Hnot. apply in_map_iff. exists e. split; [exact He|].
    apply list_elem_of_In. apply list_elem_of_lookup. eauto.
  - intros before e after Hq He Hnot.
    assert (Hrun : leave q u =
      (mkQueue (before ++ after) (userInQueue q ∖ {[u]}) (creating q) (world q),
       true)).
    { unfold leave. rewrite Hq, (list_find_first u before after e He Hnot).
      rewrite delete_middle. reflexivity. }
    split; [exact Hrun|]. rewrite Hrun. cbn [fst]. unfold isInQueue.
    apply bool_decide_eq_false. cbn [userInQueue]. set_solver.
Qed.

Lemma leave_removes_the_first_entry_of_the_user_witness :
  leave SampleQueue.three_joined "carol" =
    (mkQueue [] (userInQueue SampleQueue.three_joined ∖ {["carol"]})
             (creating SampleQueue.three_joined)
             (world SampleQueue.three_joined),
     true) /\
  leave SampleQueue.three_joined "alice" = (SampleQueue.three_joined, false).
Proof.
  split.
  - apply (proj2 (leave_removes_the_first_entry_of_the_user
                    SampleQueue.three_joined "carol") [] SampleQueue.eC []).
    + reflexivity.
    + reflexivity.
    + intros [].
  - apply (proj1 (leave_removes_the_first_entry_of_the_user
                    SampleQueue.three_joined "alice")).
    vm_compute. intros [H | []]. discriminate H.
Defined.

(** *** Staleness eviction *)

Lemma filter_idempotent {A} (f : A -> bool) (l : list A) :
  List.filter f (List.filter f l) = List.filter f l.
Proof.
  induction l as [|x l IH]; cbn; [reflexivity|].
  destruct (f x) eqn:E; cbn; rewrite ?E, IH; reflexivity.
Qed.

Lemma filter_complement {A} (f : A -> bool) (l : list A) :
  List.filter f (List.filter (fun x => negb (f x)) l) = [].
Proof.
  induction l as [|x l IH]; cbn; [reflexivity|].
  destruct (f x) eqn:E; cbn; rewrite ?E; exact IH.
Qed.

Lemma emitted_fold_emitToUser (event : ServerEvent) (entries : list QueueEntry) :
  forall w,
    db (fold_left (fun w entry => emitToUser w (userId entry) event) entries w) = db w /\
    exists new,
      emitted (fold_left (fun w entry => emitToUser w (userId entry) event) entries w) =
        emitted w ++ new /\
      forall s e, In (s, e) new ->
        e = event /\ exists entry, In entry entries /\ socket_userId s = userId entry.
Proof.
  induction entries as [|entry entries IH]; intros w; cbn [fold_left].
  - split; [reflexivity|]. exists []. split; [rewrite app_nil_r; reflexivity|].
    intros s e [].
  - destruct (IH (emitToUser w (userId entry) event)) as (Hdb & new & Hnew & Hall).
    split; [rewrite Hdb; apply MatchFacts.db_emitToUser|].
    unfold emitToUser in Hnew |- *. destruct (io w) as [sockets|] eqn:Hio.
    + cbn [emitted] in Hnew. rewrite <- app_assoc in Hnew.
      eexists. split; [exact Hnew|].
      intros s e Hin. apply in_app_iff in Hin as [Hin | Hin].
      * apply MatchFacts.In_deliveries in Hin as (_ & Hu & He).
        split; [exact He|]. exists entry. split; [left; reflexivity | exact Hu].
      * destruct (Hall s e Hin) as (He & entry' & Hin' & Hu).
        split; [exact He|]. exists entry'. split; [right; exact Hin' | exact Hu].
    + exists new. split; [exact Hnew|].
      intros s e Hin. destruct (Hall s e Hin) as (He & entry' & Hin' & Hu).
      split; [exact He|]. exists entry'. split; [right; exact Hin' | exact Hu].
Qed.

(** X21. The periodic cleanup keeps, in their order, exactly the entries
    that have waited 30 000 ms at most (an entry of exactly that age
    stays) and takes the others out of the membership set;
    [queue_timeout] goes only to sockets of evicted users; pairs whose
    match is being created and the database are left alone; running it
    again at the same instant changes nothing and sends nothing. *)
Theorem cleanupStaleEntries_evicts_entries_older_than_timeout
    (q : PvPQueue) (now : Z) :
  let q' := cleanupStaleEntries q now in
  (forall e, In e (queue q') <->
     In e (queue q) /\ (now - joinedAt e <= 30000)%Z) /\
  queue q' `sublist_of` queue q /\
  (forall u, u ∈ userInQueue q' <->
     u ∈ userInQueue q /\
     ~ exists e, In e (queue q) /\ (30000 < now - joinedAt e)%Z /\ userId e = u) /\
  creating q' = creating q /\
  db (world q') = db (world q) /\
  (exists new,
     emitted (world q') = emitted (world q) ++ new /\
     forall s ev, In (s, ev) new ->
       ev = queue_timeout "Queue timeout - you were removed" /\
       exists e, In e (queue q) /\ (30000 < now - joinedAt e)%Z /\
                 socket_userId s = userId e) /\
  cleanupStaleEntries q' now = q'.
Proof.
  intros q'.
  assert (Hstale : forall e, stale now e = true <-> (30000 < now - joinedAt e)%Z).
  { intros e. unfold stale, QUEUE_TIMEOUT. apply Z.ltb_lt. }
  split.
  { intros e. unfold q', cleanupStaleEntries. cbn [queue].
    rewrite filter_In, negb_true_iff, <- not_true_iff_false, Hstale.
    split; intros [Hin Hage]; (split; [exact Hin | lia]). }
  split.
  { unfold q', cleanupStaleEntries. cbn [queue].
    induction (queue q) as [|x l IH]; cbn; [constructor|].
    destruct (negb (stale now x)); [apply sublist_skip | apply sublist_cons]; exact IH. }
  split.
  { intros u. unfold q', cleanupStaleEntries. cbn [userInQueue].
    rewrite elem_of_difference, elem_of_list_to_set, list_elem_of_In, in_map_iff.
    split; intros [Hin Hnot]; (split; [exact Hin|]).
    - intros (e & Hine & Hold & Hu). apply Hnot. exists e.
      split; [exact Hu|]. apply filter_In. split; [exact Hine | apply Hstale; exact Hold].
    - intros (e & Hu & Hf). apply filter_In in Hf as [Hine Hold].
      apply Hnot. exists e. split; [exact Hine|]. split; [apply Hstale; exact Hold | exact Hu]. }
  split; [reflexivity|].
  destruct (emitted_fold_emitToUser (queue_timeout "Queue timeout - you were removed")
              (List.filter (stale now) (queue q)) (world q))
    as (Hdb & new & Hnew & Hall).
  split; [exact Hdb|].
  split.
  { exists new. split; [exact Hnew|].
    intros s ev Hin. destruct (Hall s ev Hin) as (Hev & e & Hine & Hu).
    split; [exact Hev|]. apply filter_In in Hine as [Hine Hold].
    exists e. split; [exact Hine|]. split; [apply Hstale; exact Hold | exact Hu]. }
  unfold q', cleanupStaleEntries. cbn [queue userInQueue creating world].
  rewrite filter_complement, (filter_idempotent (fun entry => negb (stale now entry))).
  cbn [map list_to_set fold_left].
  f_equal. set_solver.
Qed.

(** An entry of exactly 30 000 ms stays, one millisecond more evicts it. *)
Example cleanupStaleEntries_boundary :
  map userId
      (queue (cleanupStaleEntries
                (mkQueue [mkEntry "alice" "Alice" "s1" 0;
                          mkEntry "bob" "Bob" "s2" 1] ∅ [] (Sample.world 1000))
                30001)) = ["bob"].
Proof. reflexivity. Qed.

(** *** Joining and pairing *)

(** X22. In every state the queue can reach, [join] of a user who is not
    a member either finds the queue empty, queues the user and returns 1,
    or finds one user waiting, pops both as a pair (the one who waited is
    player 1, the joiner player 2) and returns 0, the length of the queue
    after the pair-off; in the second case neither player is a member any
    more while their match is being created. *)
Theorem join_waits_or_pairs_with_the_waiting_user
    (q : PvPQueue) (u n s : string) (now : Z) :
  reachable q ->
  isInQueue q u = false ->
  let entry := mkEntry u n s now in
  let q' := fst (join q u n s now) in
  let size := snd (join q u n s now) in
  (queue q = [] /\ size = 1 /\ queue q' = [entry] /\
   creating q' = creating q /\ isInQueue q' u = true) \/
  (exists waiting,
     queue q = [waiting] /\ size = 0 /\ queue q' = [] /\
     creating q' = creating q ++ [(waiting, entry)] /\
     isInQueue q' u = false /\ isInQueue q' (userId waiting) = false).
Proof.
  intros Hreach Habsent entry q' size.
  apply QueueFacts.reachable_at_rest in Hreach. unfold at_rest in Hreach.
  unfold q', size. rewrite (QueueFacts.join_absent q u n s now Habsent).
  cbv zeta. fold entry. unfold tryMatch. cbn [queue].
  destruct (queue q) as [|waiting [|other rest]] eqn:Hq; cbn in Hreach; try lia.
  - left. cbn. repeat split.
    unfold isInQueue. apply bool_decide_eq_true. cbn. set_solver.
  - right. exists waiting. cbn. repeat split.
    + unfold isInQueue. apply bool_decide_eq_false. cbn. set_solver.
    + unfold isInQueue. apply bool_decide_eq_false. cbn. set_solver.
Qed.

Lemma join_waits_or_pairs_with_the_waiting_user_witness :
  snd (join SampleQueue.three_joined "dave" "Dave" "s4" 3000) = 0.
Proof.
  destruct (join_waits_or_pairs_with_the_waiting_user
              SampleQueue.three_joined "dave" "Dave" "s4" 3000)
    as [(Hq & _) | (waiting & _ & Hsize & _)].
  - exists (Sample.world 1000). eexists. reflexivity.
  - vm_compute. reflexivity.
  - vm_compute in Hq. discriminate Hq.
  - exact Hsize.
Defined.

(** *** Creating the match *)

Lemma ensureRanking_spec (d : Dal.Db) (player : QueueEntry) (now : Z) :
  let ensured := ensureRanking d player now in
  Dal.getRanking (fst ensured) (userId player) = Some (snd ensured) /\
  (forall r, Dal.getRanking d (userId player) = Some r ->
     ensured = (d, r)) /\
  (Dal.getRanking d (userId player) = None ->
     snd ensured =
       Ranking.mk (userId player) (username player) 1000 0 0 0 None now now) /\
  (forall other, other <> userId player ->
     Dal.getRanking (fst ensured) other = Dal.getRanking d other) /\
  Dal.pvp_matches (fst ensured) = Dal.pvp_matches d.
Proof.
  unfold ensureRanking. cbv zeta.
  destruct (Dal.getRanking d (userId player)) as [r|] eqn:Hget.
  - cbn [fst snd]. split; [exact Hget|]. split; [intros r' [= <-]; reflexivity|].
    split; [discriminate|]. split; reflexivity.
  - unfold Dal.createRanking. cbn [Ranking.userId].
    unfold Dal.getRanking in Hget. rewrite Hget. cbn [fst snd].
    split; [apply lookup_insert_eq|]. split; [discriminate|].
    split; [reflexivity|]. split; [|reflexivity].
    intros other Hne. unfold Dal.getRanking. cbn [Dal.pvp_rankings].
    apply lookup_insert_ne. congruence.
Qed.

(** X23. A successful [createMatch] for two different users leaves both
    with a ranking, so that finalization will find them: a ranking that
    existed is untouched, a missing one starts at 1000 with no games;
    other rankings are untouched; the match is stored [active], all stats
    zero, no winner; and each player's sockets, and no others, are told
    [match_found] with the other's id, name and current rating. *)
Theorem createMatch_prepares_rankings_and_announces
    (w : World) (player1 player2 : QueueEntry) (matchId : string) (now : Z) :
  userId player1 <> userId player2 ->
  exists (w' : World) (r1 r2 : PvPRanking),
    createMatch w player1 player2 matchId now Created = Resolved w' /\
    Dal.getRanking (db w') (userId player1) = Some r1 /\
    Dal.getRanking (db w') (userId player2) = Some r2 /\
    (forall r, Dal.getRanking (db w) (userId player1) = Some r -> r1 = r) /\
    (forall r, Dal.getRanking (db w) (userId player2) = Some r -> r2 = r) /\
    (Dal.getRanking (db w) (userId player1) = None ->
       r1 = Ranking.mk (userId player1) (username player1) 1000 0 0 0 None now now) /\
    (Dal.getRanking (db w) (userId player2) = None ->
       r2 = Ranking.mk (userId player2) (username player2) 1000 0 0 0 None now now) /\
    (forall other, other <> userId player1 -> other <> userId player2 ->
       Dal.getRanking (db w') other = Dal.getRanking (db w) other) /\
    Dal.getMatch (db w') matchId =
      Some (Match.mk matchId (userId player1) (username player1)
                     (userId player2) (username player2)
                     0 0 0 0 None None 0 0 0 active now None) /\
    exists new,
      emitted w' = emitted w ++ new /\
      forall s e, In (s, e) new <->
        exists sockets, io w = Some sockets /\ In s sockets /\
          ((socket_userId s = userId player1 /\
            e = match_found matchId (userId player2) (username player2)
                            (Ranking.elo r2)) \/
           (socket_userId s = userId player2 /\
            e = match_found matchId (userId player1) (username player1)
                            (Ranking.elo r1))).
Proof.
  intros Hne. unfold createMatch.
  destruct (ensureRanking_spec (db w) player1 now) as (Hg1 & Hold1 & Hnew1 & Hoth1 & Hm1).
  destruct (ensureRanking (db w) player1 now) as [d1 r1]. cbn [fst snd] in *.
  destruct (ensureRanking_spec d1 player2 now) as (Hg2 & Hold2 & Hnew2 & Hoth2 & Hm2).
  destruct (ensureRanking d1 player2 now) as [d2 r2]. cbn [fst snd] in *.
  eexists _, r1, r2. split; [reflexivity|].
  rewrite !MatchFacts.db_emitToUser. cbn [db with_db].
  assert (Hget : forall u, Dal.getRanking (Dal.createMatch d2 (newMatch matchId player1 player2 now)) u
                           = Dal.getRanking d2 u) by reflexivity.
  split; [rewrite Hget, Hoth2 by congruence; exact Hg1|].
  split; [rewrite Hget; exact Hg2|].
  split; [intros r Hr; specialize (Hold1 r Hr); congruence|].
  split.
  { intros r Hr. rewrite <- (Hoth1 (userId player2)) in Hr by congruence.
    specialize (Hold2 r Hr). congruence. }
  split; [exact Hnew1|].
  split; [intros Hnone; apply Hnew2; rewrite Hoth1 by congruence; exact Hnone|].
  split; [intros other Ho1 Ho2; rewrite Hget, Hoth2, Hoth1 by congruence; reflexivity|].
  split.
  { unfold Dal.getMatch, Dal.createMatch. cbn [Dal.pvp_matches Match._id newMatch].
    apply lookup_insert_eq. }
  rewrite MatchMoreFacts.emitted_emit_emit. cbn [io with_db emitted].
  destruct (io w) as [sockets|] eqn:Hio.
  - eexists. split; [reflexivity|].
    intros s e. rewrite in_app_iff, !MatchFacts.In_deliveries. split.
    + intros [(Hin & Hu & He) | (Hin & Hu & He)]; exists sockets; auto.
    + intros (sockets' & [= <-] & Hin & [[Hu He] | [Hu He]]); auto.
  - exists []. split; [reflexivity|].
    intros s e. split; [intros [] | intros (sockets & Hs & _); discriminate Hs].
Qed.

Lemma createMatch_prepares_rankings_and_announces_witness :
  exists (w' : World) (r1 r2 : PvPRanking),
    createMatch SampleMore.unranked_world SampleQueue.eA SampleQueue.eB
                "m2" 5000 Created = Resolved w' /\
    Dal.getRanking (db w') "alice" = Some r1 /\
    Dal.getRanking (db w') "bob" = Some r2 /\
    Ranking.elo r1 = 1000%Z /\ Ranking.elo r2 = 1000%Z.
Proof.
  destruct (createMatch_prepares_rankings_and_announces
              SampleMore.unranked_world SampleQueue.eA SampleQueue.eB "m2" 5000
              ltac:(discriminate))
    as (w' & r1 & r2 & Hres & Hr1 & Hr2 & _ & _ & Hn1 & Hn2 & _).
  exists w', r1, r2. split; [exact Hres|]. split; [exact Hr1|]. split; [exact Hr2|].
  rewrite (Hn1 eq_refl), (Hn2 eq_refl). split; reflexivity.
Defined.

End QueueMoreFacts.

(** ** REST handlers *)

Module RoutesFacts.
Import Routes.

(** X24. The ranking route answers 200 with the stored ranking, or 500:
    the 404 it throws for a user without ranking is thrown inside the
    [try] and replaced by the [catch], so no 404 ever leaves the handler. *)
Theorem getRanking_route_answers_200_or_500 (d : Dal.Db) (userId : string) :
  (forall ranking, Dal.getRanking d userId = Some ranking ->
     getRanking d userId = Ok200 "Ranking retrieved" ranking) /\
  (Dal.getRanking d userId = None ->
     getRanking d userId = MonkeyError 500 "Internal server error") /\
  (forall status message,
     getRanking d userId = MonkeyError status message ->
     status = 500%Z /\ Dal.getRanking d userId = None).
Proof.
  unfold getRanking. destruct (Dal.getRanking d userId) as [r|]; cbn.
  - split; [intros r' [= <-]; reflexivity|]. split; [discriminate|].
    intros status message H. discriminate H.
  - split; [discriminate|]. split; [reflexivity|].
    intros status message [= <- _]. auto.
Qed.

Lemma falsy_false (s : option string) :
  falsy s = false <-> exists v, s = Some v /\ v <> "".
Proof.
  destruct s as [v|]; cbn.
  - rewrite bool_decide_eq_false. split; [eauto | intros (v' & [= <-] & H); exact H].
  - split; [discriminate | intros (v & H & _); discriminate H].
Qed.



(** X26. The leave route answers 200 exactly when the request names a
    user who has an entry in the queue, and that user is then no longer a
    member; every refusal is a 404 and leaves the queue as it was. *)
Theorem leaveQueue_route_refuses_with_404_or_leaves
    (q : QueueService.PvPQueue) (user : RequestUser) :
  (forall status message,
     snd (leaveQueue q user) = MonkeyError status message ->
     status = 404%Z /\ fst (leaveQueue q user) = q) /\
  (forall message,
     snd (leaveQueue q user) = Ok200 message tt <->
     message = "Left queue successfully" /\
     exists userId, id user = Some userId /\ userId <> "" /\
       In userId (map QueueService.userId (QueueService.queue q))) /\
  (forall message userId,
     snd (leaveQueue q user) = Ok200 message tt -> id user = Some userId ->
     QueueService.isInQueue (fst (leaveQueue q user)) userId = false).
Proof.
  unfold leaveQueue.
  destruct (id user) as [userId|] eqn:Hid; cbn [falsy].
  - destruct (bool_decide (userId = "")) eqn:Hempty.
    + cbn [fst snd]. apply bool_decide_eq_true in Hempty.
      split; [intros status message [= <- _]; auto|].
      split; [|intros message u H; discriminate H].
      intros message. split; [discriminate|].
      intros (_ & u & [= <-] & Hne & _). contradiction.
    + apply bool_decide_eq_false in Hempty.
      unfold QueueService.leave.
      destruct (list_find _ (QueueService.queue q)) as [[index e]|] eqn:Hfind;
        cbn [fst snd].
      * apply list_find_Some in Hfind as (Hlook & He & _).
        split; [intros status message H; discriminate H|].
        split.
        -- intros message. split.
           ++ intros [= <-]. split; [reflexivity|]. exists userId.
              split; [reflexivity|]. split; [exact Hempty|].
              apply in_map_iff. exists e. split; [exact He|].
              apply list_elem_of_In. apply list_elem_of_lookup. eauto.
           ++ intros [-> _]. reflexivity.
        -- intros message u _ [= <-]. unfold QueueService.isInQueue.
           apply bool_decide_eq_false. cbn.
           rewrite not_elem_of_difference, elem_of_singleton. right. reflexivity.
      * split; [intros status message [= <- _]; auto|].
        split; [|intros message u H; discriminate H].
        intros message. split; [discriminate|].
        intros (_ & u & [= <-] & _ & Hin). exfalso.
        apply in_map_iff in Hin as (e & He & Hin).
        apply list_elem_of_In, list_elem_of_lookup in Hin as [i Hi].
        pose proof (proj1 (list_find_None _ _) Hfind) as Hall.
        rewrite Forall_forall in Hall. apply (Hall e); [|exact He].
        apply list_elem_of_lookup. eauto.
  - cbn [fst snd].
    split; [intros status message [= <- _]; auto|].
    split; [|intros message u H; discriminate H].
    intros message. split; [discriminate|].
    intros (_ & u & H & _). discriminate H.
Qed.

End RoutesFacts.

(** ** Typing test of the PvP page *)

Module TypingFacts.
Import Typing EloMore.

Lemma len_nonneg (s : string) : (0 <= len s)%Z.
Proof. unfold len. lia. Qed.

Lemma correctInWord_bounds (input word : string) :
  (0 <= correctInWord input word <= Z.min (len input) (len word))%Z.
Proof.
  revert word. induction input as [|a input IH]; intros [|b word]; cbn [correctInWord].
  - unfold len; cbn; lia.
  - unfold len; cbn; lia.
  - unfold len; cbn; lia.
  - specialize (IH word). unfold len in *. cbn [String.length].
    destruct (Ascii.eqb a b); lia.
Qed.

Lemma accuracy_range (t : PvpTest) :
  (0 <= correctChars t <= totalChars t)%Z -> (0 <= accuracy t <= 100)%Z.
Proof.
  intros Hinv. unfold accuracy.
  destruct (Z.ltb_spec 0 (totalChars t)) as [Hpos | Hzero]; [|lia].
  destruct (EloMoreFacts.percentage_range (correctChars t) (totalChars t) Hinv Hpos)
    as [H0 H100].
  split.
  - rewrite <- (EloMoreFacts.Math_round_Q_Z 0).
    apply EloMoreFacts.Math_round_Q_le. exact H0.
  - rewrite <- (EloMoreFacts.Math_round_Q_Z 100) at 2.
    apply EloMoreFacts.Math_round_Q_le. exact H100.
Qed.

Lemma accuracy_perfect (t : PvpTest) :
  correctChars t = totalChars t -> accuracy t = 100%Z.
Proof.
  intros Heq. unfold accuracy.
  destruct (Z.ltb_spec 0 (totalChars t)) as [Hpos | Hzero]; [|reflexivity].
  rewrite Heq. transitivity (Math_round_Q (inject_Z 100)).
  - apply EloMoreFacts.Math_round_Q_eq.
    assert (Hq : (0 < inject_Z (totalChars t))%Q)
      by (pose proof Hpos as Hz; rewrite Zlt_Qlt in Hz; exact Hz).
    field. Lqa.lra.
  - apply EloMoreFacts.Math_round_Q_Z.
Qed.

Lemma handleSpace_counters (t : PvpTest) :
  (0 <= correctChars t <= totalChars t)%Z ->
  (0 <= correctChars (handleSpace t) <= totalChars (handleSpace t))%Z /\
  (correctChars t <= correctChars (handleSpace t))%Z /\
  (totalChars t <= totalChars (handleSpace t))%Z /\
  (correctChars (handleSpace t) - correctChars t <=
   totalChars (handleSpace t) - totalChars t)%Z.
Proof.
  intros Hinv. unfold handleSpace.
  destruct (isActive t); cbn [negb]; [|lia].
  destruct (words t !! currentWordIndex t) as [currentWord|]; [|lia].
  destruct (bool_decide (currentWord = "")); [lia|].
  cbn [correctChars totalChars].
  pose proof (len_nonneg (currentInput t)). pose proof (len_nonneg currentWord).
  pose proof (correctInWord_bounds (currentInput t) currentWord).
  destruct (bool_decide (currentInput t = currentWord)) eqn:Hexact; [|lia].
  apply bool_decide_eq_true in Hexact. rewrite Hexact. lia.
Qed.

(** X27. Scoring a word never breaks [0 <= correctChars <= totalChars]:
    both counters only grow, the correct ones by no more than the total,
    so the accuracy that is reported stays a percentage between 0 and
    100; a word typed exactly adds the same amount to both, which keeps a
    perfect score perfect. *)
Theorem handleSpace_keeps_accuracy_a_percentage (t : PvpTest) :
  (0 <= correctChars t <= totalChars t)%Z ->
  let t' := handleSpace t in
  (0 <= correctChars t' <= totalChars t')%Z /\
  (correctChars t <= correctChars t')%Z /\
  (totalChars t <= totalChars t')%Z /\
  (0 <= accuracy t' <= 100)%Z /\
  (correctChars t = totalChars t ->
   words t !! currentWordIndex t = Some (currentInput t) ->
   correctChars t' = totalChars t' /\ accuracy t' = 100%Z).
Proof.
  intros Hinv t'.
  destruct (handleSpace_counters t Hinv) as (H1 & H2 & H3 & _).
  split; [exact H1|]. split; [exact H2|]. split; [exact H3|].
  split; [apply accuracy_range; exact H1|].
  intros Hperfect Hword.
  assert (Heq : correctChars t' = totalChars t').
  { unfold t', handleSpace.
    destruct (isActive t); cbn [negb]; [|exact Hperfect].
    rewrite Hword.
    destruct (bool_decide (currentInput t = "")); [exact Hperfect|].
    cbn [correctChars totalChars].
    rewrite bool_decide_eq_true_2 by reflexivity. lia. }
  split; [exact Heq | apply accuracy_perfect; exact Heq].
Qed.

Lemma handleSpace_keeps_accuracy_a_percentage_witness :
  (0 <= accuracy (handleSpace (handlePvPInput (newTest ["the"; "be"]) "teh" 100)) <= 100)%Z.
Proof.
  apply (handleSpace_keeps_accuracy_a_percentage
           (handlePvPInput (newTest ["the"; "be"]) "teh" 100)).
  vm_compute. split; discriminate.
Defined.

(** *** A whole test *)

Lemma typeWord_advances (now : Z) (t : PvpTest) (typed : string) :
  isActive t = true ->
  Forall (fun word => word <> "") (words t) ->
  currentWordIndex t < length (words t) ->
  let t' := typeWord now t typed in
  words t' = words t /\
  currentWordIndex t' = S (currentWordIndex t) /\
  isActive t' = negb (length (words t) <=? S (currentWordIndex t)) /\
  ((0 <= correctChars t <= totalChars t)%Z ->
   (0 <= correctChars t' <= totalChars t')%Z) /\
  (correctChars t = totalChars t ->
   words t !! currentWordIndex t = Some typed ->
   correctChars t' = totalChars t').
Proof.
  intros Hact Hwords Hlt t'.
  destruct (lookup_lt_is_Some_2 (words t) (currentWordIndex t) Hlt) as [word Hword].
  assert (Hne : word <> "").
  { rewrite Forall_forall in Hwords. apply Hwords.
    apply list_elem_of_lookup. eauto. }
  set (t0 := handlePvPInput t typed now).
  assert (H0 : words t0 = words t /\ currentWordIndex t0 = currentWordIndex t /\
               currentInput t0 = typed /\ correctChars t0 = correctChars t /\
               totalChars t0 = totalChars t /\ isActive t0 = true).
  { unfold t0, handlePvPInput. rewrite Hact. cbn. repeat split; reflexivity. }
  destruct H0 as (Hw0 & Hi0 & Hin0 & Hc0 & Ht0 & Ha0).
  assert (Hrun : t' = handleSpace t0) by reflexivity.
  split; [|split; [|split; [|split]]].
  - rewrite Hrun. unfold handleSpace. rewrite Ha0, Hw0, Hi0, Hword. cbn [negb].
    rewrite (bool_decide_eq_false_2 _ Hne). reflexivity.
  - rewrite Hrun. unfold handleSpace. rewrite Ha0, Hw0, Hi0, Hword. cbn [negb].
    rewrite (bool_decide_eq_false_2 _ Hne). reflexivity.
  - rewrite Hrun. unfold handleSpace. rewrite Ha0, Hw0, Hi0, Hword. cbn [negb].
    rewrite (bool_decide_eq_false_2 _ Hne). reflexivity.
  - intros Hinv. rewrite Hrun. apply handleSpace_counters. rewrite Hc0, Ht0. exact Hinv.
  - intros Hperfect Htyped. rewrite Hrun. unfold handleSpace.
    rewrite Ha0, Hw0, Hi0, Hword. cbn [negb].
    rewrite (bool_decide_eq_false_2 _ Hne). cbn [correctChars totalChars].
    rewrite Hin0, Hc0, Ht0.
    rewrite Hword in Htyped. injection Htyped as ->.
    rewrite bool_decide_eq_true_2 by reflexivity. lia.
Qed.

Lemma typing_run (now : Z) (typed : list string) :
  forall t,
    isActive t = true ->
    Forall (fun word => word <> "") (words t) ->
    typed <> [] ->
    currentWordIndex t + length typed <= length (words t) ->
    let t' := fold_left (typeWord now) typed t in
    words t' = words t /\
    currentWordIndex t' = currentWordIndex t + length typed /\
    isActive t' = negb (length (words t) <=? currentWordIndex t') /\
    ((0 <= correctChars t <= totalChars t)%Z ->
     (0 <= correctChars t' <= totalChars t')%Z) /\
    (correctChars t = totalChars t ->
     typed = take (length typed) (drop (currentWordIndex t) (words t)) ->
     correctChars t' = totalChars t').
Proof.
  induction typed as [|x typed IH]; intros t Hact Hwords Hne Hlen; [congruence|].
  cbn [length] in Hlen.
  destruct (typeWord_advances now t x Hact Hwords ltac:(lia))
    as (Hw1 & Hi1 & Ha1 & Hinv1 & Hperf1).
  cbn [fold_left]. set (t1 := typeWord now t x) in *.
  destruct typed as [|y typed].
  - cbn [fold_left length]. rewrite Hi1, Ha1.
    split; [exact Hw1|]. split; [lia|]. split; [f_equal; f_equal; lia|].
    split; [exact Hinv1|].
    intros Hperfect Htyped. apply Hperf1; [exact Hperfect|].
    cbn [length take] in Htyped.
    destruct (drop (currentWordIndex t) (words t)) as [|z l] eqn:Hdrop;
      [discriminate Htyped|].
    injection Htyped as ->.
    rewrite <- (Nat.add_0_r (currentWordIndex t)), <- lookup_drop, Hdrop.
    reflexivity.
  - assert (Hact1 : isActive t1 = true).
    { rewrite Ha1. apply negb_true_iff. apply Nat.leb_gt. cbn [length] in Hlen. lia. }
    assert (Hwords1 : Forall (fun word => word <> "") (words t1))
      by (rewrite Hw1; exact Hwords).
    destruct (IH t1 Hact1 Hwords1 ltac:(discriminate)
                ltac:(rewrite Hw1, Hi1; cbn [length] in *; lia))
      as (Hw & Hi & Ha & Hinv & Hperf).
    rewrite Hw1, Hi1 in *.
    split; [exact Hw|]. split; [cbn [length] in *; lia|]. split; [exact Ha|].
    split; [intros H; apply Hinv, Hinv1, H|].
    intros Hperfect Htyped.
    destruct (drop (currentWordIndex t) (words t)) as [|z l] eqn:Hdrop;
      [discriminate Htyped|].
    cbn [length take] in Htyped. injection Htyped as -> Htail.
    assert (Hz : words t !! currentWordIndex t = Some z).
    { rewrite <- (Nat.add_0_r (currentWordIndex t)), <- lookup_drop, Hdrop.
      reflexivity. }
    assert (Hl : drop (S (currentWordIndex t)) (words t) = l).
    { rewrite (drop_S _ _ _ Hz) in Hdrop. congruence. }
    apply Hperf; [apply Hperf1; assumption|].
    rewrite Hl. exact Htail.
Qed.

(** X28. Typing something and pressing space once for every word always
    ends the test, whatever was typed: the index has then run through all
    the words, the test is inactive and ignores further input and key
    presses; the correct characters counted are at most the total, and
    equal to it when every word was typed exactly. *)
Theorem typing_every_word_ends_the_test
    (now : Z) (testWords typed : list string) :
  testWords <> [] ->
  Forall (fun word => word <> "") testWords ->
  length typed = length testWords ->
  let t := fold_left (typeWord now) typed (newTest testWords) in
  isActive t = false /\
  currentWordIndex t = length testWords /\
  (forall input later, handlePvPInput t input later = t) /\
  handleSpace t = t /\
  (0 <= correctChars t <= totalChars t)%Z /\
  (typed = testWords -> correctChars t = totalChars t).
Proof.
  intros Hne Hwords Hlen t.
  assert (Htyped : typed <> []).
  { intros ->. destruct testWords; [congruence | discriminate Hlen]. }
  destruct (typing_run now typed (newTest testWords) eq_refl Hwords Htyped
              ltac:(cbn; lia))
    as (Hw & Hi & Ha & Hinv & Hperf).
  fold t in Hw, Hi, Ha, Hinv, Hperf. cbn [newTest words currentWordIndex] in *.
  assert (Hinactive : isActive t = false).
  { rewrite Ha, Hi, Hlen. cbn. rewrite Nat.leb_refl. reflexivity. }
  split; [exact Hinactive|]. split; [lia|].
  split; [intros input later; unfold handlePvPInput; rewrite Hinactive; reflexivity|].
  split; [unfold handleSpace; rewrite Hinactive; reflexivity|].
  split; [apply Hinv; cbn; lia|].
  intros ->. apply Hperf; [reflexivity|].
  cbn [drop]. rewrite firstn_all. reflexivity.
Qed.

Lemma typing_every_word_ends_the_test_witness :
  isActive (fold_left (typeWord 100) ["teh"; "be"] (newTest ["the"; "be"])) = false.
Proof.
  apply (typing_every_word_ends_the_test 100 ["the"; "be"] ["teh"; "be"]).
  - discriminate.
  - repeat constructor; discriminate.
  - reflexivity.
Defined.

(** *** What the page sends *)

Lemma lastProgress_snoc (l : list ClientEvent) (wpm' accuracy' : Z) :
  lastProgress (l ++ [PvpProgress wpm' accuracy']) = Some (mkStats wpm' accuracy').
Proof. unfold lastProgress. rewrite last_snoc. reflexivity. Qed.

(** The figures kept are those of the last progress message, and the
    completion message, sent when the test stops, repeats them. *)
Lemma updateStats_sent (p : Page) (now : Z) :
  words (pvpTest (updateStats p now)) = words (pvpTest p) /\
  pvpTest (updateStats p now) = pvpTest p /\
  (updateStats p now = p \/
   exists wpm' accuracy',
     matchStats (updateStats p now) = Some (mkStats wpm' accuracy') /\
     sent (updateStats p now) = sent p ++ [PvpProgress wpm' accuracy']).
Proof.
  unfold updateStats. destruct (startTime (pvpTest p)) as [started|]; [|auto].
  destruct (started =? 0)%Z; [auto|]. cbn.
  split; [reflexivity|]. split; [reflexivity|]. right. eauto.
Qed.

Lemma updateStats_in_sync (t : PvpTest) (stats : option MatchStats)
    (progress : list ClientEvent) (now : Z) :
  Forall isProgress progress ->
  stats = lastProgress progress ->
  exists progress',
    Forall isProgress progress' /\
    matchStats (updateStats (mkPage t stats progress) now) = lastProgress progress' /\
    sent (updateStats (mkPage t stats progress) now) = progress' /\
    pvpTest (updateStats (mkPage t stats progress) now) = t.
Proof.
  intros Hall Hstats.
  destruct (updateStats_sent (mkPage t stats progress) now)
    as (_ & Htest & [-> | (w & a & Hm & Hs)]).
  - exists progress. cbn. auto.
  - exists (progress ++ [PvpProgress w a]). rewrite Hm, Hs, Htest. cbn.
    rewrite lastProgress_snoc. split; [|auto].
    apply Forall_app. split; [exact Hall|]. repeat constructor.
Qed.

Lemma key_in_sync (p : Page) (e : KeyEvent) :
  (exists progress,
     Forall isProgress progress /\
     matchStats p = lastProgress progress /\
     sent p = progress ++
       (if isActive (pvpTest p) then [] else [reported (lastProgress progress)])) ->
  exists progress,
    Forall isProgress progress /\
    matchStats (key p e) = lastProgress progress /\
    sent (key p e) = progress ++
      (if isActive (pvpTest (key p e)) then []
       else [reported (lastProgress progress)]).
Proof.
  intros (progress & Hall & Hstats & Hsent).
  destruct (isActive (pvpTest p)) eqn:Hact.
  - rewrite app_nil_r in Hsent. destruct p as [t stats sent0].
    cbn [pvpTest matchStats sent] in *. subst sent0.
    destruct e as [inputValue now now' | now]; cbn [key].
    + unfold onInput. cbn [pvpTest matchStats sent]. rewrite Hact. cbn [negb].
      destruct (updateStats_in_sync (handlePvPInput t inputValue now) stats
                  progress now' Hall Hstats) as (progress' & H1 & H2 & H3 & H4).
      exists progress'. rewrite H4.
      replace (isActive (handlePvPInput t inputValue now)) with true
        by (unfold handlePvPInput; rewrite Hact; reflexivity).
      rewrite app_nil_r. auto.
    + unfold onSpace. cbn [pvpTest matchStats sent]. rewrite Hact. cbn [negb].
      assert (Hsame : exists progress0,
                Forall isProgress progress0 /\
                stats = lastProgress progress0 /\
                progress = progress0 ++ (if isActive t then [] else
                                           [reported (lastProgress progress0)])).
      { exists progress. rewrite Hact, app_nil_r. auto. }
      destruct (words t !! currentWordIndex t) as [currentWord|] eqn:Hword;
        [|exact Hsame].
      destruct (bool_decide (currentWord = "")) eqn:Hempty; [exact Hsame|].
      assert (Hactive' : isActive (handleSpace t) =
                         negb (length (words t) <=? S (currentWordIndex t))).
      { unfold handleSpace. rewrite Hact, Hword, Hempty. reflexivity. }
      destruct (length (words t) <=? S (currentWordIndex t)) eqn:Hlast.
      * exists progress. unfold finishPvPTest. cbn. rewrite Hstats. auto.
      * destruct (updateStats_in_sync (handleSpace t) stats progress now Hall Hstats)
          as (progress' & H1 & H2 & H3 & H4).
        exists progress'. rewrite H4, Hactive'. cbn [negb].
        rewrite app_nil_r. auto.
  - assert (Hkey : key p e = p).
    { destruct e; cbn [key]; [unfold onInput | unfold onSpace];
        rewrite Hact; reflexivity. }
    rewrite Hkey, Hact. eauto.
Qed.

(** X29. Whatever is typed, the page sends progress messages while the
    test runs and a single completion message when it stops, and nothing
    after it; the completion message repeats the figures of the last
    progress message, or carries zeros when none was sent. *)
Theorem completion_repeats_the_last_progress_message
    (testWords : list string) (events : list KeyEvent) :
  let p := fold_left key events (newPage testWords) in
  exists progress,
    Forall isProgress progress /\
    matchStats p = lastProgress progress /\
    sent p = progress ++
      (if isActive (pvpTest p) then [] else [reported (lastProgress progress)]).
Proof.
  cbn zeta.
  assert (Hinit : exists progress,
            Forall isProgress progress /\
            matchStats (newPage testWords) = lastProgress progress /\
            sent (newPage testWords) = progress ++
              (if isActive (pvpTest (newPage testWords)) then []
               else [reported (lastProgress progress)])).
  { exists []. cbn. auto. }
  revert Hinit. generalize (newPage testWords).
  induction events as [|e events IH]; intros p Hp; [exact Hp|].
  cbn [fold_left]. apply IH, key_in_sync, Hp.
Qed.

(** X30. The last word never reaches the server.  Once typing has
    started, the input event of the last word sends the progress computed
    from the counters as they were before that word, and the space that
    ends the test scores the word but sends the same figures again as the
    result: what was typed for the word and when the space was pressed make
    no difference. *)
Theorem last_word_never_reaches_the_server
    (p : Page) (started : Z) (currentWord inputValue : string) (now now' later : Z) :
  isActive (pvpTest p) = true ->
  startTime (pvpTest p) = Some started -> started <> 0%Z ->
  words (pvpTest p) !! currentWordIndex (pvpTest p) = Some currentWord ->
  currentWord <> "" ->
  S (currentWordIndex (pvpTest p)) = length (words (pvpTest p)) ->
  let p' := onSpace (onInput p inputValue now now') later in
  let wpm' := wpm (pvpTest p) started now' in
  let accuracy' := accuracy (pvpTest p) in
  sent p' = sent p ++ [PvpProgress wpm' accuracy'; PvpComplete wpm' accuracy'] /\
  isActive (pvpTest p') = false /\
  (totalChars (pvpTest p) < totalChars (pvpTest p'))%Z.
Proof.
  intros Hact Hstart Hnonzero Hword Hne Hlast p' wpm' accuracy'.
  destruct p as [t stats sent0]. cbn [pvpTest matchStats sent] in *.
  assert (Hz : (started =? 0)%Z = false) by (apply Z.eqb_neq; exact Hnonzero).
  set (t0 := handlePvPInput t inputValue now).
  assert (H0 : words t0 = words t /\ currentWordIndex t0 = currentWordIndex t /\
               currentInput t0 = inputValue /\ correctChars t0 = correctChars t /\
               totalChars t0 = totalChars t /\ isActive t0 = true /\
               startTime t0 = Some started).
  { unfold t0, handlePvPInput. rewrite Hact, Hstart. cbn. repeat split; reflexivity. }
  destruct H0 as (Hw0 & Hi0 & Hin0 & Hc0 & Ht0 & Ha0 & Hs0).
  assert (Hwpm : wpm t0 started now' = wpm') by (unfold wpm', wpm; rewrite Hc0; reflexivity).
  assert (Hacc : accuracy t0 = accuracy')
    by (unfold accuracy', accuracy; rewrite Hc0, Ht0; reflexivity).
  assert (Hin : onInput (mkPage t stats sent0) inputValue now now' =
                mkPage t0 (Some (mkStats wpm' accuracy'))
                       (sent0 ++ [PvpProgress wpm' accuracy'])).
  { unfold onInput. cbn [pvpTest matchStats sent]. rewrite Hact. cbn [negb].
    fold t0. unfold updateStats. cbn [pvpTest matchStats sent].
    rewrite Hs0, Hz, Hwpm, Hacc. reflexivity. }
  assert (Hp' : p' =
    finishPvPTest (mkPage (handleSpace t0) (Some (mkStats wpm' accuracy'))
                          (sent0 ++ [PvpProgress wpm' accuracy']))).
  { unfold p'. rewrite Hin. unfold onSpace. cbn [pvpTest matchStats sent].
    rewrite Ha0, Hw0, Hi0, Hword, (bool_decide_eq_false_2 _ Hne), <- Hlast,
      Nat.leb_refl.
    reflexivity. }
  rewrite Hp'. unfold finishPvPTest. cbn [pvpTest matchStats sent isActive totalChars].
  split; [rewrite <- app_assoc; reflexivity|]. split; [reflexivity|].
  unfold handleSpace. rewrite Ha0, Hw0, Hi0, Hword, (bool_decide_eq_false_2 _ Hne).
  cbn [negb totalChars]. rewrite Ht0.
  pose proof (len_nonneg (currentInput t0)). pose proof (len_nonneg currentWord). lia.
Qed.

Lemma last_word_never_reaches_the_server_witness :
  sent (onSpace (onInput (fold_left key [Input "the" 1000 1000; Space 61000]
                                    (newPage ["the"; "be"]))
                         "xx" 90000 91000) 121000) =
  [PvpProgress 0 100; PvpProgress 1 100; PvpProgress 1 100; PvpComplete 1 100].
Proof.
  apply (last_word_never_reaches_the_server
           (fold_left key [Input "the" 1000 1000; Space 61000] (newPage ["the"; "be"]))
           1000 "be" "xx" 90000 91000 121000).
  - reflexivity.
  - reflexivity.
  - discriminate.
  - reflexivity.
  - discriminate.
  - reflexivity.
Defined.

End TypingFacts.
